(** * Tughra: a shallow embedding of the cycle-based transform engine

    The development follows [tughra.js] (class [Tughra]) and [worker.js].
    JavaScript strings are sequences of UTF-16 code units, modelled as
    [list Z]; a call either returns a value, throws, or does not return,
    which is the [completion] type below.  The host functions the class
    calls ([String.fromCharCode], [TextEncoder], [btoa], [parseInt], ...)
    are embedded in [Module JS], the class itself after it. *)

From Stdlib Require Import Ascii String QArith Qround.
From stdpp Require Import base numbers list strings gmap.

Open Scope Z_scope.

(** ** Strings and completions *)

(** A JavaScript string: its UTF-16 code units, each in [0, 65536). *)
Abbreviation jsstring := (list Z) (only parsing).

(** The code units of an ASCII literal. *)
Definition js (s : string) : jsstring :=
  (λ a, Z.of_N (N_of_ascii a)) <$> list_ascii_of_string s.

Definition code_unit (c : Z) : Prop := 0 ≤ c < 65536.
Definition wf_string (s : jsstring) : Prop := Forall code_unit s.

(** What a JavaScript [throw] carries, by constructor of the object. *)
Inductive exn : Type :=
  | Error (message : string)
  | TypeError (message : string)
  | InvalidCharacterError
  | URIError
  | RangeError.

(** The outcome of a call. [Diverge] is a loop that never ends. *)
Inductive completion (A : Type) : Type :=
  | Normal (v : A)
  | Throw (e : exn)
  | Diverge.
Arguments Normal {A} v.
Arguments Throw {A} e.
Arguments Diverge {A}.

#[global] Instance completion_ret : MRet completion := @Normal.
#[global] Instance completion_bind : MBind completion := λ A B f m,
  match m with
  | Normal v => f v
  | Throw e => Throw e
  | Diverge => Diverge
  end.

(** [try { body } catch (error) { handler }]: a [throw] of the body is
    caught, a loop that never ends is not. *)
Definition try_catch {A} (body : completion A) (handler : exn → completion A)
  : completion A :=
  match body with
  | Throw e => handler e
  | other => other
  end.

(** [for (let i = 0; i < cycles; i++) r = step(r)], started from [r]. *)
Fixpoint for_loop {A} (cycles : nat) (step : A → completion A) (r : A)
  : completion A :=
  match cycles with
  | O => Normal r
  | S n => r' ← step r; for_loop n step r'
  end.

(** ** The host *)

(** What the language leaves to the engine that runs the program:
    [max_arguments] is the largest number of arguments a call can take; a
    call with more throws a [RangeError]. *)
Class Host : Type := { max_arguments : Z }.

(** ** The host functions *)

Module JS.

(** [ToUint16] on an integral number. *)
Definition ToUint16 (n : Z) : Z := n `mod` 65536.

(** [String.fromCharCode(n)] for an integral [n]: one code unit. *)
Definition fromCharCode (n : Z) : Z := ToUint16 n.

(** [String.fromCharCode(...units)]: every element is one argument of
    the call. *)
Definition fromCharCode_spread {host : Host} (units : list Z)
  : completion (list Z) :=
  if bool_decide (Z.of_nat (length units) ≤ max_arguments)
  then Normal (fromCharCode <$> units)
  else Throw RangeError.

(** [String.fromCharCode(n)] where [n] may be [NaN] or infinite ([None]):
    [ToUint16] sends both to [+0]. *)
Definition fromCharCode_num (n : option Z) : Z := from_option fromCharCode 0 n.

(** [s.charCodeAt(i)]; [None] is [NaN]. *)
Definition charCodeAt (s : jsstring) (i : nat) : option Z := s !! i.

(** [s.indexOf(c)] for a one-unit string [c]; [None] is [-1]. *)
Fixpoint indexOf (s : jsstring) (c : Z) : option nat :=
  match s with
  | [] => None
  | x :: s' => if bool_decide (x = c) then Some O else S <$> indexOf s' c
  end.

(** [s.substring(i, j)] for [0 <= i <= j]. *)
Definition substring (s : jsstring) (i j : nat) : jsstring :=
  take (j - i) (drop i s).

(** [s.padStart(n, c)] and [s.padEnd(n, c)] for a one-unit filler. *)
Definition padStart (n : nat) (c : Z) (s : jsstring) : jsstring :=
  replicate (n - length s) c ++ s.
Definition padEnd (n : nat) (c : Z) (s : jsstring) : jsstring :=
  s ++ replicate (n - length s) c.

(** [parts.join(sep)] on an array of strings. *)
Fixpoint join (sep : jsstring) (parts : list jsstring) : jsstring :=
  match parts with
  | [] => []
  | [p] => p
  | p :: rest => p ++ sep ++ join sep rest
  end.

(** [s.split(c)] for a one-unit separator [c]: never the empty array. *)
Fixpoint split (c : Z) (s : jsstring) : list jsstring :=
  match s with
  | [] => [[]]
  | x :: s' =>
      if bool_decide (x = c) then [] :: split c s'
      else match split c s' with
           | p :: ps => (x :: p) :: ps
           | [] => [[x]]
           end
  end.

(** *** Code points *)

Definition is_high_surrogate (c : Z) : bool :=
  bool_decide (0xD800 ≤ c ≤ 0xDBFF).
Definition is_low_surrogate (c : Z) : bool :=
  bool_decide (0xDC00 ≤ c ≤ 0xDFFF).
Definition is_surrogate (c : Z) : bool :=
  bool_decide (0xD800 ≤ c ≤ 0xDFFF).

(** The string iterator: one item per code point, a surrogate pair being
    one item of two units and a lone surrogate an item of its own. *)
Fixpoint String_iterator (s : jsstring) : list jsstring :=
  match s with
  | [] => []
  | c :: rest =>
      match rest with
      | d :: rest' =>
          if is_high_surrogate c && is_low_surrogate d
          then [c; d] :: String_iterator rest'
          else [c] :: String_iterator rest
      | [] => [[c]]
      end
  end.

(** The code point of an iterator item. *)
Definition codePoint (item : jsstring) : Z :=
  match item with
  | [c; d] => 0x10000 + (c - 0xD800) * 0x400 + (d - 0xDC00)
  | c :: _ => c
  | [] => 0
  end.

(** The UTF-16 code units of a code point. *)
Definition utf16_units (cp : Z) : jsstring :=
  if bool_decide (cp < 0x10000) then [cp]
  else [0xD800 + Z.shiftr (cp - 0x10000) 10;
        0xDC00 + Z.land (cp - 0x10000) 0x3FF].

(** The UTF-8 bytes of a code point. *)
Definition utf8_bytes (cp : Z) : list Z :=
  if bool_decide (cp < 0x80) then [cp]
  else if bool_decide (cp < 0x800) then
    [Z.lor 0xC0 (Z.shiftr cp 6); Z.lor 0x80 (Z.land cp 0x3F)]
  else if bool_decide (cp < 0x10000) then
    [Z.lor 0xE0 (Z.shiftr cp 12);
     Z.lor 0x80 (Z.land (Z.shiftr cp 6) 0x3F);
     Z.lor 0x80 (Z.land cp 0x3F)]
  else
    [Z.lor 0xF0 (Z.shiftr cp 18);
     Z.lor 0x80 (Z.land (Z.shiftr cp 12) 0x3F);
     Z.lor 0x80 (Z.land (Z.shiftr cp 6) 0x3F);
     Z.lor 0x80 (Z.land cp 0x3F)].

(** [new TextEncoder().encode(s)]: the string is first made a scalar value
    string (a lone surrogate becomes U+FFFD), then encoded in UTF-8. *)
Definition TextEncoder_encode (s : jsstring) : list Z :=
  item ← String_iterator s;
  utf8_bytes (let cp := codePoint item in
              if is_surrogate cp then 0xFFFD else cp).

(** [unescape(encodeURIComponent(s))]: the UTF-8 encoding of [s] as a
    string of bytes; [encodeURIComponent] throws a [URIError] on a lone
    surrogate. *)
Definition unescape_encodeURIComponent (s : jsstring) : completion jsstring :=
  let cps := codePoint <$> String_iterator s in
  if existsb is_surrogate cps then Throw URIError
  else Normal (cps ≫= utf8_bytes).

(** A continuation byte, [10xxxxxx]. *)
Definition is_continuation (b : Z) : bool := bool_decide (0x80 ≤ b ≤ 0xBF).

(** A decoded value is accepted when it is a scalar value in the shortest
    form: [least] is the smallest value that needs this many bytes. *)
Definition scalar_from (least v : Z) : option Z :=
  if bool_decide (least ≤ v ≤ 0x10FFFF) && negb (is_surrogate v)
  then Some v else None.

(** Strict UTF-8 decoding of a string of bytes to code points; [None] when
    the bytes are not well-formed UTF-8 (or a unit is not a byte). *)
Fixpoint utf8_decode_strict (bs : list Z) : option (list Z) :=
  match bs with
  | [] => Some []
  | b0 :: r0 =>
      if bool_decide (0 ≤ b0 < 0x80) then (b0 ::.) <$> utf8_decode_strict r0
      else if bool_decide (0xC0 ≤ b0 < 0xE0) then
        match r0 with
        | b1 :: r1 =>
            if is_continuation b1 then
              v ← scalar_from 0x80
                    (Z.lor (Z.shiftl (Z.land b0 0x1F) 6) (Z.land b1 0x3F));
              (v ::.) <$> utf8_decode_strict r1
            else None
        | _ => None
        end
      else if bool_decide (0xE0 ≤ b0 < 0xF0) then
        match r0 with
        | b1 :: b2 :: r2 =>
            if is_continuation b1 && is_continuation b2 then
              v ← scalar_from 0x800
                    (Z.lor (Z.shiftl (Z.land b0 0x0F) 12)
                       (Z.lor (Z.shiftl (Z.land b1 0x3F) 6) (Z.land b2 0x3F)));
              (v ::.) <$> utf8_decode_strict r2
            else None
        | _ => None
        end
      else if bool_decide (0xF0 ≤ b0 < 0xF8) then
        match r0 with
        | b1 :: b2 :: b3 :: r3 =>
            if is_continuation b1 && is_continuation b2 && is_continuation b3
            then
              v ← scalar_from 0x10000
                    (Z.lor (Z.shiftl (Z.land b0 0x07) 18)
                       (Z.lor (Z.shiftl (Z.land b1 0x3F) 12)
                          (Z.lor (Z.shiftl (Z.land b2 0x3F) 6)
                             (Z.land b3 0x3F))));
              (v ::.) <$> utf8_decode_strict r3
            else None
        | _ => None
        end
      else None
  end.

(** [decodeURIComponent(escape(s))]: [escape] writes every unit below 256
    as itself or as [%XX] and the others as [%uXXXX], which
    [decodeURIComponent] rejects; the [%XX] runs are decoded as strict
    UTF-8, a [URIError] being thrown when they are not well formed. *)
Definition decodeURIComponent_escape (s : jsstring) : completion jsstring :=
  match utf8_decode_strict s with
  | Some cps => Normal (cps ≫= utf16_units)
  | None => Throw URIError
  end.

(** *** [TextDecoder] *)

(** The state of the UTF-8 decoder of the Encoding Standard: the code
    point being assembled, the continuation bytes still to come, and the
    range allowed for the next one. *)
Record utf8_decoder : Type := Utf8Decoder {
  utf8_code_point : Z;
  utf8_bytes_needed : nat;
  utf8_lower_boundary : Z;
  utf8_upper_boundary : Z
}.

Definition utf8_decoder_initial : utf8_decoder := Utf8Decoder 0 0 0x80 0xBF.

(** A byte read while no continuation byte is awaited: the next state and
    the code points emitted (U+FFFD for an error). *)
Definition utf8_lead (b : Z) : utf8_decoder * list Z :=
  if bool_decide (0 ≤ b ≤ 0x7F) then (utf8_decoder_initial, [b])
  else if bool_decide (0xC2 ≤ b ≤ 0xDF) then
    (Utf8Decoder (Z.land b 0x1F) 1 0x80 0xBF, [])
  else if bool_decide (0xE0 ≤ b ≤ 0xEF) then
    (Utf8Decoder (Z.land b 0xF) 2
       (if bool_decide (b = 0xE0) then 0xA0 else 0x80)
       (if bool_decide (b = 0xED) then 0x9F else 0xBF), [])
  else if bool_decide (0xF0 ≤ b ≤ 0xF4) then
    (Utf8Decoder (Z.land b 0x7) 3
       (if bool_decide (b = 0xF0) then 0x90 else 0x80)
       (if bool_decide (b = 0xF4) then 0x8F else 0xBF), [])
  else (utf8_decoder_initial, [0xFFFD]).

(** One byte. A byte outside the allowed range ends the sequence with an
    error and is then read again as a lead byte. *)
Definition utf8_step (st : utf8_decoder) (b : Z) : utf8_decoder * list Z :=
  match utf8_bytes_needed st with
  | O => utf8_lead b
  | S n =>
      if bool_decide (utf8_lower_boundary st ≤ b ≤ utf8_upper_boundary st) then
        let cp := Z.lor (Z.shiftl (utf8_code_point st) 6) (Z.land b 0x3F) in
        match n with
        | O => (utf8_decoder_initial, [cp])
        | S _ => (Utf8Decoder cp n 0x80 0xBF, [])
        end
      else
        let '(st', out) := utf8_lead b in (st', 0xFFFD :: out)
  end.

Fixpoint utf8_run (st : utf8_decoder) (bs : list Z) : list Z :=
  match bs with
  | [] => match utf8_bytes_needed st with O => [] | S _ => [0xFFFD] end
  | b :: r => let '(st', out) := utf8_step st b in out ++ utf8_run st' r
  end.

(** [new TextDecoder().decode(bytes)]: UTF-8 with replacement; a byte order
    mark decoded first is dropped. *)
Definition TextDecoder_decode (bs : list Z) : jsstring :=
  let cps := utf8_run utf8_decoder_initial bs in
  match cps with
  | cp :: r => if bool_decide (cp = 0xFEFF) then r else cps
  | [] => []
  end ≫= utf16_units.

(** *** [btoa] and [atob] *)

Definition base64_alphabet : jsstring :=
  js "ABCDEFGHIJKLMNOPQRSTUVWXYZabcdefghijklmnopqrstuvwxyz0123456789+/".

Definition base64_symbol (i : Z) : Z :=
  default 0 (base64_alphabet !! Z.to_nat i).

Fixpoint base64_encode (bs : list Z) : jsstring :=
  match bs with
  | [] => []
  | [a] =>
      [base64_symbol (Z.shiftr a 2);
       base64_symbol (Z.shiftl (Z.land a 3) 4); 61; 61]
  | [a; b] =>
      [base64_symbol (Z.shiftr a 2);
       base64_symbol (Z.lor (Z.shiftl (Z.land a 3) 4) (Z.shiftr b 4));
       base64_symbol (Z.shiftl (Z.land b 15) 2); 61]
  | a :: b :: c :: r =>
      base64_symbol (Z.shiftr a 2)
      :: base64_symbol (Z.lor (Z.shiftl (Z.land a 3) 4) (Z.shiftr b 4))
      :: base64_symbol (Z.lor (Z.shiftl (Z.land b 15) 2) (Z.shiftr c 6))
      :: base64_symbol (Z.land c 63)
      :: base64_encode r
  end.

(** [btoa(s)]: throws when a unit of [s] is above 255. *)
Definition btoa (s : jsstring) : completion jsstring :=
  if forallb (λ c, bool_decide (c ≤ 255)) s then Normal (base64_encode s)
  else Throw InvalidCharacterError.

Definition is_ascii_whitespace (c : Z) : bool :=
  bool_decide (c ∈ [9; 10; 12; 13; 32]).

(** One or two [=] at the end are removed. *)
Definition strip_padding (s : jsstring) : jsstring :=
  match reverse s with
  | x :: r =>
      if bool_decide (x = 61) then
        match r with
        | y :: r' => if bool_decide (y = 61) then reverse r' else reverse r
        | [] => []
        end
      else s
  | [] => s
  end.

Fixpoint base64_decode (l : list Z) : list Z :=
  match l with
  | a :: b :: c :: d :: r =>
      Z.lor (Z.shiftl a 2) (Z.shiftr b 4)
      :: Z.lor (Z.shiftl (Z.land b 15) 4) (Z.shiftr c 2)
      :: Z.lor (Z.shiftl (Z.land c 3) 6) d
      :: base64_decode r
  | [a; b; c] =>
      [Z.lor (Z.shiftl a 2) (Z.shiftr b 4);
       Z.lor (Z.shiftl (Z.land b 15) 4) (Z.shiftr c 2)]
  | [a; b] => [Z.lor (Z.shiftl a 2) (Z.shiftr b 4)]
  | _ => []
  end.

(** [atob(s)], the forgiving-base64 decode of the HTML Standard. *)
Definition atob (s : jsstring) : completion jsstring :=
  let data := filter (λ c, is_ascii_whitespace c = false) s in
  let data :=
    if bool_decide (length data `mod` 4 = 0)%nat then strip_padding data
    else data in
  if bool_decide (length data `mod` 4 = 1)%nat then Throw InvalidCharacterError
  else match mapM (indexOf base64_alphabet) data with
       | Some sextets => Normal (base64_decode (Z.of_nat <$> sextets))
       | None => Throw InvalidCharacterError
       end.

(** *** Numbers and strings *)

Definition digit_char (d : Z) : Z :=
  if bool_decide (d < 10) then 48 + d else 97 + (d - 10).

Fixpoint digits_of (fuel : nat) (radix n : Z) (acc : jsstring) : jsstring :=
  let acc' := digit_char (n `mod` radix) :: acc in
  match fuel with
  | O => acc'
  | S f =>
      if bool_decide (n < radix) then acc'
      else digits_of f radix (n `div` radix) acc'
  end.

(** [n.toString(radix)] for an integral [n]. *)
Definition Number_toString (radix n : Z) : jsstring :=
  if bool_decide (n < 0)
  then 45 :: digits_of (Z.to_nat (Z.log2 (- n))) radix (- n) []
  else digits_of (Z.to_nat (Z.log2 n)) radix n [].

(** [String(bytes)] for a [Uint8Array]: the elements in decimal, joined by
    commas. *)
Definition Uint8Array_toString (bytes : list Z) : jsstring :=
  join (js ",") (Number_toString 10 <$> bytes).

(** The characters [parseInt] skips before the number: white space and
    line terminators. *)
Definition is_StrWhiteSpaceChar (c : Z) : bool :=
  bool_decide (c ∈ [0x9; 0xA; 0xB; 0xC; 0xD; 0x20; 0xA0; 0x1680; 0x2028;
                    0x2029; 0x202F; 0x205F; 0x3000; 0xFEFF])
  || bool_decide (0x2000 ≤ c ≤ 0x200A).

Fixpoint skip_white_space (s : jsstring) : jsstring :=
  match s with
  | c :: s' => if is_StrWhiteSpaceChar c then skip_white_space s' else s
  | [] => []
  end.

Definition digit_value (c : Z) : option Z :=
  if bool_decide (48 ≤ c ≤ 57) then Some (c - 48)
  else if bool_decide (97 ≤ c ≤ 122) then Some (c - 97 + 10)
  else if bool_decide (65 ≤ c ≤ 90) then Some (c - 65 + 10)
  else None.

(** The values of the longest prefix of radix-[R] digits. *)
Fixpoint digits_prefix (R : Z) (s : jsstring) : list Z :=
  match s with
  | c :: s' =>
      match digit_value c with
      | Some d => if bool_decide (d < R) then d :: digits_prefix R s' else []
      | None => []
      end
  | [] => []
  end.

(** The Number value for a non-negative integer: the nearest double, ties
    to even; [None] when it is beyond the largest double (Infinity). *)
Definition to_double (v : Z) : option Z :=
  let e := Z.log2 v - 52 in
  if bool_decide (e ≤ 0) then Some v
  else
    let q := Z.shiftr v e in
    let r := Z.land v (Z.ones e) in
    let half := Z.shiftl 1 (e - 1) in
    let q' := if bool_decide (half < r) || (bool_decide (r = half) && Z.odd q)
              then q + 1 else q in
    let d := Z.shiftl q' e in
    if bool_decide (2 ^ 1024 ≤ d) then None else Some d.

(** The sign [parseInt] reads, and the string after it. *)
Definition sign_of (str : jsstring) : Z :=
  match str with 45 :: _ => -1 | _ => 1 end.
Definition strip_sign (str : jsstring) : jsstring :=
  match str with
  | 45 :: str' => str'
  | 43 :: str' => str'
  | _ => str
  end.

(** A leading [0x] or [0X] is removed and selects radix 16, when
    [stripPrefix] allows it. *)
Definition strip_prefix (stripPrefix : bool) (R : Z) (str : jsstring)
  : Z * jsstring :=
  match str with
  | 48 :: x :: str' =>
      if stripPrefix && bool_decide (x = 120 ∨ x = 88) then (16, str')
      else (R, str)
  | _ => (R, str)
  end.

(** [parseInt(s, radix)], with [radix = 0] for a call without radix;
    [None] is [NaN] or an infinity. *)
Definition parseInt (s : jsstring) (radix : Z) : option Z :=
  let str := skip_white_space s in
  let sign := sign_of str in
  let str := strip_sign str in
  if bool_decide (radix ≠ 0) && bool_decide (radix < 2 ∨ 36 < radix) then None
  else
    let stripPrefix := bool_decide (radix = 0 ∨ radix = 16) in
    let R := if bool_decide (radix = 0) then 10 else radix in
    let '(R, str) := strip_prefix stripPrefix R str in
    match digits_prefix R str with
    | [] => None
    | ds => (λ v, sign * v) <$> to_double (foldl (λ v d, v * R + d) 0 ds)
    end.

End JS.

(** [new Set(items)] followed by [Array.from]: the distinct items in the
    order of their first occurrence. *)
Definition Set_from {A} `{EqDecision A} (items : list A) : list A :=
  foldl (λ set x, if bool_decide (x ∈ set) then set else set ++ [x]) [] items.

(** The specification's wording of the same: duplicates removed, the first
    occurrence kept, the order preserved. *)
Fixpoint first_occurrences {A} `{EqDecision A} (l : list A) : list A :=
  match l with
  | [] => []
  | x :: l' => x :: filter (λ y, y ≠ x) (first_occurrences l')
  end.

(** An object literal or [Object.fromEntries] with one-unit keys: a later
    entry replaces an earlier one of the same key. *)
Definition Object_fromEntries (entries : list (Z * Z)) : gmap Z Z :=
  foldl (λ o kv, <[kv.1 := kv.2]> o) ∅ entries.

(** [x % y] on integral numbers: the remainder has the sign of [x];
    [None] is the [NaN] of a zero divisor. *)
Definition rem_num (x y : Z) : option Z :=
  if bool_decide (y = 0) then None else Some (Z.rem x y).

(** * The class [Tughra] *)

Module Tughra.

(** The object [baseEncodeDecode] returns: two closures over the alphabet
    and the chunk size. *)
Record Library : Type := {
  encode : jsstring → completion jsstring;
  decode : jsstring → completion jsstring
}.

(** The fields of an instance. [encryptionKey] is the [Uint8Array] of the
    key's UTF-8 bytes. *)
Record t : Type := {
  keyOffsets : jsstring;
  mode : string;
  useBaseEncoding : bool;
  baseCharset : jsstring;
  baseLibrary : Library;
  encryptionKey : list Z;
  algorithm : string;
  substitutionKey : gmap Z Z;
  reverseSubstitutionKey : gmap Z Z;
  a : Z;
  b : Z;
  m : Z
}.

(** ** The base codec *)

(** The integer parts of [e^0, e^1, ..., e^22]. *)
Definition exp_floor : list Z :=
  [1; 2; 7; 20; 54; 148; 403; 1096; 2980; 8103; 22026; 59874; 162754;
   442413; 1202604; 3269017; 8886110; 24154952; 65659969; 178482300;
   485165195; 1318815734; 3584912846].

(** [Math.ceil(Math.log(base))] for [1 <= base < 2^31]: the natural
    logarithm of an integer above 1 is never an integer, so its ceiling
    counts the powers of [e] below [base]. *)
Definition ceil_log (base : nat) : nat :=
  length (filter (λ x, x < Z.of_nat base) exp_floor).

(** The values [i] takes in [for (let i = 0; i < n; i += step)], for a
    positive [step]. *)
Definition loop_indices (n step : nat) : list nat :=
  (λ k, k * step)%nat <$> seq 0 ((n + step - 1) `div` step)%nat.

(** [output += alphabet[index]]: a missing element is [undefined], which
    the concatenation writes out. *)
Definition alphabet_at (alphabet : jsstring) (index : option Z) : jsstring :=
  match index ≫= (λ i, if bool_decide (0 ≤ i) then alphabet !! Z.to_nat i
                        else None) with
  | Some c => [c]
  | None => js "undefined"
  end.

(** With chunks of no bits the loop of [encode] never advances: every
    round appends to [output], until the engine refuses a string of that
    length with a [RangeError]. *)
Definition baseEncodeDecode (alphabet : jsstring) : Library :=
  let base := length alphabet in
  let chunkSize := ceil_log base in
  {| encode := λ text,
       let binary :=
         c ← text; JS.padStart 8 48 (JS.Number_toString 2 c) in
       match chunkSize, binary with
       | O, _ :: _ => Throw RangeError
       | _, _ =>
           Normal (i ← loop_indices (length binary) chunkSize;
                   let chunk :=
                     JS.padEnd chunkSize 48
                       (JS.substring binary i (i + chunkSize)) in
                   let index := JS.parseInt chunk 2 in
                   alphabet_at alphabet index)
       end;
     decode := λ text,
       pieces ← mapM (λ c,
         match JS.indexOf alphabet c with
         | None => Throw (Error "Invalid Base character")
         | Some index =>
             Normal (JS.padStart chunkSize 48
                       (JS.Number_toString 2 (Z.of_nat index)))
         end) text;
       let binary := concat pieces in
       Normal (i ← loop_indices (length binary) 8;
               let chunk := JS.substring binary i (i + 8) in
               if bool_decide (length chunk = 8%nat)
               then [JS.fromCharCode_num (JS.parseInt chunk 2)]
               else [])
  |}.

(** [toBase] and [fromBase]: an exception of the codec is caught and the
    text returned as it came. *)
Definition toBase (this : t) (text : jsstring) : completion jsstring :=
  match text with
  | [] => Normal text
  | _ =>
      try_catch
        (bytes ← JS.unescape_encodeURIComponent text;
         encode (baseLibrary this) bytes)
        (λ error, Normal text)
  end.

Definition fromBase (this : t) (text : jsstring) : completion jsstring :=
  match text with
  | [] => Normal text
  | _ =>
      try_catch
        (bytes ← decode (baseLibrary this) text;
         JS.decodeURIComponent_escape bytes)
        (λ error, Normal text)
  end.

(** ** Construction *)

Definition checkKeyStrength (encryptionKey : jsstring) : completion unit :=
  if bool_decide (length encryptionKey < 8)%nat
  then Throw (Error "Key must be at least 8 characters long.")
  else Normal ().

(** The entries of the [substitutionKey] literal, in the order written,
    which is also the order [Object.entries] lists them in. *)
Definition substitution_entries : list (Z * Z) :=
  zip (js "abcdefghijklmnopqrstuvwxyzABCDEFGHIJKLMNOPQRSTUVWXYZ")
      (js "qwertyuiopasdfghjklzxcvbnmQWERTYUIOPASDFGHJKLZXCVBNM").

Definition default_baseCharset : jsstring :=
  js "ABCDEFGHIJKLMNOPQRSTUVWXYZabcdefghijklmnopqrstuvwxyz0123456789+/=".

(** [new Tughra(mode, baseCharset, algorithm, encryptionKey,
    useBaseEncoding)], the key being a string. *)
Definition constructor (mode : string) (baseCharset : jsstring)
    (algorithm : string) (encryptionKey : jsstring) (useBaseEncoding : bool)
  : completion t :=
  items ← mapM (λ item,
    match JS.charCodeAt item 0 with
    | None =>
        Throw (Error
          "Invalid character in encryption array. Only letters and numbers are allowed.")
    | Some charCode => Normal item
    end) (Set_from (JS.String_iterator encryptionKey));
  let uniqueKeyOffsets := JS.join [] items in
  if String.eqb algorithm "default"
     && bool_decide (length uniqueKeyOffsets = 0%nat)
  then Throw (Error "keyOffsets must contain at least one valid value.")
  else
    let baseCharset :=
      match baseCharset with [] => default_baseCharset | _ => baseCharset end in
    _ ← (if negb (String.eqb algorithm "default")
         then checkKeyStrength encryptionKey else Normal ());
    Normal
      {| keyOffsets := uniqueKeyOffsets;
         mode := if String.eqb mode "" then "encrypt" else mode;
         useBaseEncoding := useBaseEncoding;
         baseCharset := baseCharset;
         baseLibrary := baseEncodeDecode baseCharset;
         encryptionKey := JS.TextEncoder_encode encryptionKey;
         algorithm := if String.eqb algorithm "" then "default" else algorithm;
         substitutionKey := Object_fromEntries substitution_entries;
         reverseSubstitutionKey :=
           Object_fromEntries ((λ kv, (kv.2, kv.1)) <$> substitution_entries);
         a := 5;
         b := 8;
         m := 26 |}.

Definition setAlgorithm (this : t) (algorithm : string) : t :=
  {| keyOffsets := keyOffsets this;
     mode := mode this;
     useBaseEncoding := useBaseEncoding this;
     baseCharset := baseCharset this;
     baseLibrary := baseLibrary this;
     encryptionKey := encryptionKey this;
     algorithm := algorithm;
     substitutionKey := substitutionKey this;
     reverseSubstitutionKey := reverseSubstitutionKey this;
     a := a this;
     b := b this;
     m := m this |}.

(** ** The variants *)

(** [/[A-Za-z]/] on one unit, and the two ways the source tells the case
    of a letter: [char === char.toUpperCase()] and [char <= 'Z']. *)
Definition is_letter (c : Z) : bool :=
  bool_decide (65 ≤ c ≤ 90) || bool_decide (97 ≤ c ≤ 122).
Definition is_upper_case (c : Z) : bool := negb (bool_decide (97 ≤ c ≤ 122)).
Definition letter_base (c : Z) : Z := if bool_decide (c ≤ 90) then 65 else 97.

(** [text.replace(re, fn)] with a global one-unit class [re] and a [fn]
    that returns one unit. *)
Definition replace (re : Z → bool) (fn : Z → Z) (text : jsstring) : jsstring :=
  (λ char, if re char then fn char else char) <$> text.

Definition _modInverse (a m : Z) : option Z :=
  snd <$> list_find (λ x, Z.rem (a * x) m = 1) (seqZ 1 (m - 1)).

Definition _encryptAffine (this : t) (text : jsstring) : jsstring :=
  (λ char,
     if is_letter char then
       let base := if is_upper_case char then 65 else 97 in
       JS.fromCharCode (Z.rem (a this * (char - base) + b this) 26 + base)
     else char) <$> text.

(** A [null] inverse counts as [0] in the product. *)
Definition _decryptAffine (this : t) (text : jsstring) : jsstring :=
  let a_inv := default 0 (_modInverse (a this) 26) in
  (λ char,
     if is_letter char then
       let base := if is_upper_case char then 65 else 97 in
       JS.fromCharCode
         (Z.rem (Z.rem (a_inv * (char - base - b this + 26)) 26 + 26) 26 + base)
     else char) <$> text.

Definition _encryptAffinePro (this : t) (text : jsstring) : jsstring :=
  (λ char,
     if is_letter char then
       let isUpperCase := is_upper_case char in
       let base := if isUpperCase then 65 else 97 in
       let x := char - base in
       JS.fromCharCode_num
         ((λ r, r + base) <$> rem_num (a this * x + b this) (m this))
     else char) <$> text.

Definition _decryptAffinePro (this : t) (text : jsstring)
  : completion jsstring :=
  match _modInverse (a this) (m this) with
  | None => Throw (Error "No modular inverse exists for the given key 'a'")
  | Some aInv =>
      Normal ((λ char,
         if is_letter char then
           let isUpperCase := is_upper_case char in
           let base := if isUpperCase then 65 else 97 in
           let y := char - base in
           JS.fromCharCode_num
             ((λ r, r + base) <$>
                rem_num (aInv * (y - b this + m this)) (m this))
         else char) <$> text)
  end.

Definition _encryptSubstitutionPro (this : t) (text : jsstring) : jsstring :=
  (λ char, default char (substitutionKey this !! char)) <$> text.

Definition _decryptSubstitutionPro (this : t) (text : jsstring) : jsstring :=
  (λ char, default char (reverseSubstitutionKey this !! char)) <$> text.

Definition _encryptROT13 (text : jsstring) : jsstring :=
  replace is_letter (λ char,
    let base := letter_base char in
    JS.fromCharCode (Z.rem (char - base + 13) 26 + base)) text.

Definition _decryptROT13 (text : jsstring) : jsstring := _encryptROT13 text.

Definition _encryptROT18 (text : jsstring) : jsstring :=
  replace is_letter (λ char,
    let base := letter_base char in
    JS.fromCharCode (Z.rem (char - base + 18) 26 + base)) text.

Definition _decryptROT18 (text : jsstring) : jsstring :=
  replace is_letter (λ char,
    let base := letter_base char in
    JS.fromCharCode (Z.rem (char - base + 26 - 18) 26 + base)) text.

Definition _encryptROT25 (text : jsstring) : jsstring :=
  replace is_letter (λ char,
    let base := letter_base char in
    JS.fromCharCode (Z.rem (char - base + 25) 26 + base)) text.

Definition _decryptROT25 (text : jsstring) : jsstring :=
  replace is_letter (λ char,
    let base := letter_base char in
    JS.fromCharCode (Z.rem (char - base + 26 - 25) 26 + base)) text.

Definition _encryptROT30 (text : jsstring) : jsstring :=
  replace is_letter (λ char,
    let base := letter_base char in
    JS.fromCharCode (Z.rem (char - base + 4) 26 + base)) text.

Definition _decryptROT30 (text : jsstring) : jsstring :=
  replace is_letter (λ char,
    let base := letter_base char in
    JS.fromCharCode (Z.rem (Z.rem (char - base + 22) 26 + 26) 26 + base)) text.

(** [x ^ key.charCodeAt(...)]: a [NaN] operand counts as [0]. *)
Definition _encryptXORPro (text key : jsstring) : jsstring :=
  imap (λ index char,
    JS.fromCharCode
      (Z.lxor char (default 0 (JS.charCodeAt key (index `mod` length key)))))
    text.

Definition _decryptXORPro (text key : jsstring) : jsstring :=
  _encryptXORPro text key.

(** With an empty key the offset is [NaN], and so is the sum. *)
Definition _TughraEncrypt (this : t) (text : jsstring) : jsstring :=
  imap (λ i charCode,
    let offset :=
      JS.charCodeAt (keyOffsets this) (i `mod` length (keyOffsets this)) in
    JS.fromCharCode_num ((λ offset, charCode + offset) <$> offset)) text.

Definition _TughraDecrypt (this : t) (encryptedText : jsstring) : jsstring :=
  imap (λ i charCode,
    let offset :=
      JS.charCodeAt (keyOffsets this) (i `mod` length (keyOffsets this)) in
    JS.fromCharCode_num ((λ offset, charCode - offset) <$> offset))
    encryptedText.

Definition _caesarEncrypt (this : t) (text : jsstring) : jsstring :=
  (λ char, JS.fromCharCode (char + Z.of_nat (length (encryptionKey this))))
    <$> text.

Definition _caesarDecrypt (this : t) (text : jsstring) : jsstring :=
  (λ char, JS.fromCharCode (char - Z.of_nat (length (encryptionKey this))))
    <$> text.

(** [String.fromCharCode(...bytes)] is the byte sequence itself; the
    calls take slices of 8192 bytes, which the engines accept. *)
Definition _arrayBufferToBase64 (buffer : list Z) : completion jsstring :=
  JS.btoa buffer.

Definition _base64ToArrayBuffer (base64 : jsstring) : completion (list Z) :=
  binaryString ← JS.atob base64;
  Normal ((λ c, c `mod` 256) <$> (binaryString : jsstring)).

(** A [NaN] stored in a [Uint8Array] is [0]. *)
Definition _vigenereEncrypt (this : t) (text : jsstring)
  : completion jsstring :=
  let textBytes := JS.TextEncoder_encode text in
  let key := encryptionKey this in
  let encryptedBytes :=
    imap (λ i byte,
      match key !! (i `mod` length key)%nat with
      | Some k => Z.rem (byte + k) 256
      | None => 0
      end) textBytes in
  _arrayBufferToBase64 encryptedBytes.

Definition _vigenereDecrypt (this : t) (encryptedText : jsstring)
  : completion jsstring :=
  encryptedBytes ← _base64ToArrayBuffer encryptedText;
  let key := encryptionKey this in
  let decryptedBytes :=
    imap (λ i byte,
      match key !! (i `mod` length key)%nat with
      | Some k => Z.rem (byte - k + 256) 256
      | None => 0
      end) encryptedBytes in
  Normal (JS.TextDecoder_decode decryptedBytes).

(** [this.encryptionKey] is a [Uint8Array], never falsy; [TextEncoder]
    encodes its string form. The bytes mapped from a [Uint8Array] are
    stored modulo 256, and all of them are the arguments of one call of
    [String.fromCharCode]. *)
Definition _xorEncrypt {host : Host} (this : t) (text : jsstring)
  : completion jsstring :=
  let textBytes := JS.TextEncoder_encode text in
  let keyBytes :=
    JS.TextEncoder_encode (JS.Uint8Array_toString (encryptionKey this)) in
  let encryptedBytes :=
    imap (λ i byte,
      Z.lxor byte (default 0 (keyBytes !! (i `mod` length keyBytes)%nat))
      `mod` 256)
      textBytes in
  binary ← JS.fromCharCode_spread encryptedBytes;
  JS.btoa binary.

Definition _xorDecrypt (this : t) (encryptedText : jsstring)
  : completion jsstring :=
  encryptedBytes ← JS.atob encryptedText;
  let keyBytes :=
    JS.TextEncoder_encode (JS.Uint8Array_toString (encryptionKey this)) in
  let decryptedBytes :=
    imap (λ i byte,
      Z.lxor byte (default 0 (keyBytes !! (i `mod` length keyBytes)%nat)))
      encryptedBytes in
  Normal (JS.TextDecoder_decode ((λ x, x `mod` 256) <$> decryptedBytes)).

Definition _encryptROT47 (text : jsstring) : jsstring :=
  replace (λ c, bool_decide (33 ≤ c ≤ 126))
    (λ char, JS.fromCharCode (33 + Z.rem (char + 14) 94)) text.

(** The class has no method [encryptROT47]: the call throws. *)
Definition _decryptROT47 (text : jsstring) : completion jsstring :=
  Throw (TypeError "this.encryptROT47 is not a function").

Definition _encryptAtbash (text : jsstring) : jsstring :=
  replace is_letter (λ char,
    let base := letter_base char in
    JS.fromCharCode (base + (25 - (char - base)))) text.

(** The class has no method [encryptAtbash]: the call throws. *)
Definition _decryptAtbash (text : jsstring) : completion jsstring :=
  Throw (TypeError "this.encryptAtbash is not a function").

Definition _encryptSubstitution (this : t) (text : jsstring) : jsstring :=
  (λ char, default char (substitutionKey this !! char)) <$> text.

Definition _decryptSubstitution (this : t) (text : jsstring) : jsstring :=
  (λ char, default char (reverseSubstitutionKey this !! char)) <$> text.

Definition _encryptBase64 (text : jsstring) : completion jsstring :=
  JS.btoa text.

Definition _decryptBase64 (base64 : jsstring) : completion jsstring :=
  JS.atob base64.

Definition _encryptAsciiShift (this : t) (text : jsstring) : jsstring :=
  (λ char, JS.fromCharCode (char + Z.of_nat (length (encryptionKey this))))
    <$> text.

Definition _decryptAsciiShift (this : t) (text : jsstring) : jsstring :=
  (λ char, JS.fromCharCode (char - Z.of_nat (length (encryptionKey this))))
    <$> text.

Definition _encryptUnicodeShift (this : t) (text : jsstring) : jsstring :=
  (λ char, JS.fromCharCode (char + Z.of_nat (length (encryptionKey this))))
    <$> text.

Definition _decryptUnicodeShift (this : t) (text : jsstring) : jsstring :=
  (λ char, JS.fromCharCode (char - Z.of_nat (length (encryptionKey this))))
    <$> text.

Definition _encryptNumeric (text : jsstring) : jsstring :=
  JS.join (js "-") (JS.Number_toString 10 <$> text).

Definition _decryptNumeric (numbers : jsstring) : jsstring :=
  (λ num, JS.fromCharCode_num (JS.parseInt num 0)) <$> JS.split 45 numbers.

Definition _encryptReversedCaesar (this : t) (text : jsstring) : jsstring :=
  replace is_letter (λ char,
    let base := letter_base char in
    JS.fromCharCode
      (Z.rem (25 - (char - base) + Z.of_nat (length (encryptionKey this))) 26
       + base)) text.

Definition _decryptReversedCaesar (this : t) (text : jsstring) : jsstring :=
  replace is_letter (λ char,
    let base := letter_base char in
    JS.fromCharCode
      (Z.rem (25 - (char - base) - Z.of_nat (length (encryptionKey this)) + 26)
         26 + base)) text.

(** ** Dispatch and cycles *)

(** The cases of the [switch] in [_processCycle]; [Default] is its
    [default:] branch. *)
Inductive variant : Type :=
  | Caesar | Vigenere | Xor | ROT47 | Atbash | Substitution | Base64 | ASCII
  | Affine | UnicodeShift | Numeric | ReversedCaesar | ROT13 | ROT18 | ROT25
  | ROT30 | XORPro | AffinePro | SubstitutionPro | Default.

Definition cases : list (string * variant) :=
  [("caesar", Caesar); ("vigenere", Vigenere); ("xor", Xor);
   ("ROT47", ROT47); ("Atbash", Atbash); ("Substitution", Substitution);
   ("Base64", Base64); ("ASCII", ASCII); ("Affine", Affine);
   ("Unicode Shift", UnicodeShift); ("Numeric", Numeric);
   ("Reversed Caesar", ReversedCaesar); ("ROT13", ROT13); ("ROT18", ROT18);
   ("ROT25", ROT25); ("ROT30", ROT30); ("XOR Pro", XORPro);
   ("Affine Pro", AffinePro); ("Substitution Pro", SubstitutionPro)]%string.

Definition switch (algorithm : string) : variant :=
  match list_find (λ case, case.1 = algorithm) cases with
  | Some (_, (_, v)) => v
  | None => Default
  end.

Definition _processCycle {host : Host} (this : t) (text : jsstring)
    (mode : string) : completion jsstring :=
  let encrypt := String.eqb mode "encrypt" in
  match switch (algorithm this) with
  | Caesar =>
      Normal (if encrypt then _caesarEncrypt this text
              else _caesarDecrypt this text)
  | Vigenere =>
      if encrypt then _vigenereEncrypt this text
      else _vigenereDecrypt this text
  | Xor => if encrypt then _xorEncrypt this text else _xorDecrypt this text
  | ROT47 => if encrypt then Normal (_encryptROT47 text) else _decryptROT47 text
  | Atbash =>
      if encrypt then Normal (_encryptAtbash text) else _decryptAtbash text
  | Substitution =>
      Normal (if encrypt then _encryptSubstitution this text
              else _decryptSubstitution this text)
  | Base64 => if encrypt then _encryptBase64 text else _decryptBase64 text
  | ASCII =>
      Normal (if encrypt then _encryptAsciiShift this text
              else _decryptAsciiShift this text)
  | Affine =>
      Normal (if encrypt then _encryptAffine this text
              else _decryptAffine this text)
  | UnicodeShift =>
      Normal (if encrypt then _encryptUnicodeShift this text
              else _decryptUnicodeShift this text)
  | Numeric =>
      Normal (if encrypt then _encryptNumeric text else _decryptNumeric text)
  | ReversedCaesar =>
      Normal (if encrypt then _encryptReversedCaesar this text
              else _decryptReversedCaesar this text)
  | ROT13 => Normal (if encrypt then _encryptROT13 text else _decryptROT13 text)
  | ROT18 => Normal (if encrypt then _encryptROT18 text else _decryptROT18 text)
  | ROT25 => Normal (if encrypt then _encryptROT25 text else _decryptROT25 text)
  | ROT30 => Normal (if encrypt then _encryptROT30 text else _decryptROT30 text)
  | XORPro =>
      Normal (if encrypt then _encryptXORPro text (keyOffsets this)
              else _decryptXORPro text (keyOffsets this))
  | AffinePro =>
      if encrypt then Normal (_encryptAffinePro this text)
      else _decryptAffinePro this text
  | SubstitutionPro =>
      Normal (if encrypt then _encryptSubstitutionPro this text
              else _decryptSubstitutionPro this text)
  | Default =>
      Normal (if encrypt then _TughraEncrypt this text
              else _TughraDecrypt this text)
  end.

(** [process(text, cycles)] for an integral [cycles]. *)
Definition process {host : Host} (this : t) (text : jsstring) (cycles : Z)
  : completion jsstring :=
  text ← (if useBaseEncoding this && String.eqb (mode this) "decrypt"
          then fromBase this text else Normal text);
  let cycles :=
    if String.eqb (algorithm this) "xor"
       || String.eqb (algorithm this) "ROT47"
       || String.eqb (algorithm this) "ROT13"
    then 1 else cycles in
  resultText ←
    for_loop (Z.to_nat cycles) (λ r, _processCycle this r (mode this)) text;
  if useBaseEncoding this && String.eqb (mode this) "encrypt"
  then toBase this resultText else Normal resultText.

(** [tughra.a = a; tughra.m = m]: the constructor fixes the Affine fields
    and no method changes them; a caller can only assign the properties of
    the instance. *)
Definition assign_a_m (this : t) (a m : Z) : t :=
  {| keyOffsets := keyOffsets this;
     mode := mode this;
     useBaseEncoding := useBaseEncoding this;
     baseCharset := baseCharset this;
     baseLibrary := baseLibrary this;
     encryptionKey := encryptionKey this;
     algorithm := algorithm this;
     substitutionKey := substitutionKey this;
     reverseSubstitutionKey := reverseSubstitutionKey this;
     a := a;
     b := b this;
     m := m |}.

End Tughra.

(** * The worker *)

Module Worker.

(** The fields [onmessage] reads from [e.data]. *)
Record data : Type := Data {
  text : jsstring;
  cycles : Z;
  baseCharset : jsstring;
  mode : string;
  useBaseEncoding : bool;
  algorithm : string;
  encryptionKey : jsstring
}.

(** What is posted to the main thread; [None] is [null]. *)
Record message : Type := Message {
  result : option jsstring;
  error : option string
}.



End Worker.

(** * The class [TughraLibrary] *)

Module TughraLibrary.

Record group : Type := Group { name : string; start : Z; end_ : Z }.

Record t : Type := { unicodeGroups : list group }.

Definition constructor : t := {| unicodeGroups :=
  [Group "Numbers" 48 57; Group "Lowercase English" 97 122;
   Group "Uppercase English" 65 90; Group "Basic Latin" 33 127;
   Group "Latin-1 Supplement" 128 255; Group "Latin Extended-A" 256 383;
   Group "Latin Extended-B" 384 591; Group "IPA Extensions" 592 687;
   Group "Greek and Coptic" 880 1023; Group "Cyrillic" 1024 1279;
   Group "Arabic" 1536 1791; Group "Hebrew" 1424 1535;
   Group "Devanagari" 2304 2431; Group "Bengali" 2432 2559;
   Group "Gurmukhi" 2560 2687; Group "Gujarati" 2688 2815;
   Group "Oriya" 2816 2943; Group "Tamil" 2944 3071; Group "Telugu" 3072 3199;
   Group "Kannada" 3200 3327; Group "Malayalam" 3328 3455;
   Group "Thai" 3584 3711; Group "Lao" 3712 3839; Group "Tibetan" 3840 4095;
   Group "Georgian" 4256 4351; Group "Hangul Jamo" 4352 4607;
   Group "Latin Extended Additional" 7680 7935;
   Group "Greek Extended" 7936 8191; Group "General Punctuation" 8192 8303;
   Group "Superscripts and Subscripts" 8304 8351;
   Group "Currency Symbols" 8352 8399;
   Group "Combining Diacritical Marks" 8400 8447;
   Group "Letterlike Symbols" 8448 8527; Group "Number Forms" 8528 8591;
   Group "Arrows" 8592 8703; Group "Mathematical Operators" 8704 8959;
   Group "Miscellaneous Technical" 8960 9215;
   Group "Control Pictures" 9216 9279;
   Group "Optical Character Recognition" 9280 9311;
   Group "Enclosed Alphanumerics" 9312 9471; Group "Box Drawing" 9472 9599;
   Group "Block Elements" 9600 9631; Group "Geometric Shapes" 9632 9727;
   Group "Miscellaneous Symbols" 9728 9983; Group "Dingbats" 9984 10175;
   Group "Braille Patterns" 10240 10495;
   Group "CJK Symbols and Punctuation" 12288 12351;
   Group "Hiragana" 12352 12447; Group "Katakana" 12448 12543;
   Group "Bopomofo" 12544 12591;
   Group "Hangul Compatibility Jamo" 12592 12687;
   Group "Phonetic Extensions" 12704 12735;
   Group "Enclosed CJK Letters and Months" 12800 13055;
   Group "CJK Compatibility" 13056 13311;
   Group "CJK Unified Ideographs" 19968 40959;
   Group "Hangul Syllables" 44032 55215; Group "Private Use Area" 57344 63743;
   Group "CJK Compatibility Ideographs" 63744 64255;
   Group "Alphabetic Presentation Forms" 64256 64335;
   Group "Arabic Presentation Forms-A" 64336 65023;
   Group "Variation Selectors" 65024 65039;
   Group "Combining Half Marks" 65056 65071;
   Group "CJK Compatibility Forms" 65072 65103;
   Group "Small Form Variants" 65104 65135;
   Group "Arabic Presentation Forms-B" 65136 65279;
   Group "Halfwidth and Fullwidth Forms" 65280 65519;
   Group "Specials" 65520 65535; Group "Linear B Syllabary" 65536 65663;
   Group "Linear B Ideograms" 65664 65791; Group "Aegean Numbers" 65792 65855;
   Group "Ancient Greek Numbers" 65856 65935;
   Group "Ancient Symbols" 65936 65999; Group "Phaistos Disc" 66000 66047;
   Group "Lycian" 66176 66207; Group "Carian" 66208 66271;
   Group "Coptic Epact Numbers" 66272 66303; Group "Old Italic" 66304 66351;
   Group "Gothic" 66352 66383; Group "Old Permic" 66384 66431;
   Group "Ugaritic" 66432 66463; Group "Old Persian" 66464 66527;
   Group "Deseret" 66560 66639; Group "Shavian" 66640 66687;
   Group "Osmanya" 66688 66735; Group "Cypriot Syllabary" 67584 67647;
   Group "Imperial Aramaic" 67648 67679; Group "Phoenician" 67840 67871;
   Group "Lydian" 67872 67903; Group "Meroitic Hieroglyphs" 67968 67999;
   Group "Meroitic Cursive" 68000 68095; Group "Kharoshthi" 68096 68191;
   Group "Old South Arabian" 68192 68223; Group "Avestan" 68352 68415;
   Group "Inscriptional Parthian" 68416 68447;
   Group "Inscriptional Pahlavi" 68448 68479; Group "Old Turkic" 68480 68511;
   Group "Rumi Numeral Symbols" 68512 68543; Group "Brahmi" 69632 69703;
   Group "Kaithi" 69728 69791; Group "Sora Sompeng" 69840 69863;
   Group "Chakma" 69984 70079; Group "Sharada" 70080 70143;
   Group "Takri" 70144 70239; Group "Mahajani" 70240 70271;
   Group "Mandaic" 70272 70335; Group "Ahlat" 70336 70383;
   Group "Miao" 70384 70431;
   Group "Arabic Mathematical Alphabetic Symbols" 70464 70495;
   Group "CJK Compatibility Ideographs Extension A" 108224 108455;
   Group "CJK Compatibility Ideographs Extension B" 110576 110751;
   Group "CJK Compatibility Ideographs Extension C" 110752 110855;
   Group "CJK Compatibility Ideographs Extension D" 110856 110879;
   Group "CJK Compatibility Ideographs Extension E" 110880 110999;
   Group "CJK Compatibility Ideographs Extension F" 111040 111411] |}.

Definition getUnicodeGroups (this : t) : list group := unicodeGroups this.

(** [array.find(g => g.name === groupName)]. *)
Definition find_group (this : t) (groupName : jsstring) : option group :=
  snd <$> list_find (λ g, js (name g) = groupName) (unicodeGroups this).

(** [String.fromCodePoint(i)] for an integral [i]; [None] is its
    [RangeError]. *)
Definition fromCodePoint (i : Z) : option jsstring :=
  if bool_decide (0 ≤ i ≤ 0x10FFFF) then Some (JS.utf16_units i) else None.

(** [displayCharacters(groupName)]; [None] is the [RangeError] of
    [String.fromCodePoint]. An unknown name is logged and gives the empty
    string. *)
Definition displayCharacters (this : t) (groupName : jsstring)
  : option jsstring :=
  match find_group this groupName with
  | None => Some []
  | Some group =>
      characters ←
        mapM fromCodePoint (seqZ (start group) (end_ group - start group + 1));
      Some (concat characters)
  end.

(** [s.trim()]. *)
Definition trim (s : jsstring) : jsstring :=
  reverse (JS.skip_white_space (reverse (JS.skip_white_space s))).

(** How a call of [generateKey] ends: with the array, whose elements may
    be [undefined] ([None]); with [new Error(`Invalid Unicode group name:
    ${trimmedGroupName}`)]; or with the [TypeError] of reading [start] of
    [undefined]. *)
Inductive generateKey_completion : Type :=
  | Returned (encryptionArray : list (option jsstring))
  | InvalidUnicodeGroupName (trimmedGroupName : jsstring)
  | UndefinedGroup.

(** The [forEach] over the names: the groups found, or the first name that
    is not one. *)
Fixpoint storedGroups (this : t) (groupNames : list jsstring)
  : jsstring + list group :=
  match groupNames with
  | [] => inr []
  | groupName :: rest =>
      let trimmedGroupName := trim groupName in
      match find_group this trimmedGroupName with
      | None => inl trimmedGroupName
      | Some group =>
          match storedGroups this rest with
          | inl bad => inl bad
          | inr groups => inr (group :: groups)
          end
      end
  end.

(** [generateKey(cycles, groupNames)] for an integral [cycles].
    [random_floor k n] is what [Math.floor(Math.random() * n)] gives at
    the [k]-th call of [Math.random]. *)
Definition generateKey (random_floor : nat → nat → nat) (this : t)
    (cycles : Z) (groupNames : jsstring) : generateKey_completion :=
  match storedGroups this (JS.split 44 groupNames) with
  | inl trimmedGroupName => InvalidUnicodeGroupName trimmedGroupName
  | inr storedGroups =>
      from_option Returned UndefinedGroup
        (mapM (λ i : nat,
           randomUnicodeGroup ←
             storedGroups !! random_floor (2 * i)%nat (length storedGroups);
           let characters :=
             (λ j, [JS.fromCharCode j]) <$>
               seqZ (start randomUnicodeGroup)
                 (end_ randomUnicodeGroup - start randomUnicodeGroup + 1) in
           let randomIndex := random_floor (2 * i + 1)%nat (length characters) in
           Some (characters !! randomIndex))
           (seq 0 (Z.to_nat cycles)))
  end.

(** The object [counts]: its keys in the order of their insertion, which
    is the order [for ... in] visits them in (no name of a group is an
    array index). [counts[groupName] = value] adds the key or overwrites
    its value. *)
Definition counts_assign (groupName : string) (value : Z)
    (counts : list (string * Z)) : list (string * Z) :=
  if bool_decide (groupName ∈ counts.*1)
  then (λ kv, if bool_decide (kv.1 = groupName) then (kv.1, value) else kv)
         <$> counts
  else counts ++ [(groupName, value)].

(** [counts[groupName]++] on a key that is there: the names counted are
    those the first loop has set to 0. *)
Definition counts_increment (groupName : string)
    (counts : list (string * Z)) : list (string * Z) :=
  (λ kv, if bool_decide (kv.1 = groupName) then (kv.1, kv.2 + 1) else kv)
    <$> counts.

(** [detectLanguage(text)]; [None] is [null]. *)
Definition detectLanguage (this : t) (text : jsstring) : option string :=
  let counts :=
    foldl (λ counts group, counts_assign (name group) 0 counts) []
      (unicodeGroups this) in
  let counts :=
    foldl (λ counts char,
      match JS.charCodeAt char 0 with
      | None => counts
      | Some charCode =>
          match list_find (λ group,
                  start group ≤ charCode ∧ charCode ≤ end_ group)
                  (unicodeGroups this) with
          | Some (_, group) => counts_increment (name group) counts
          | None => counts
          end
      end) counts (JS.String_iterator text) in
  fst (foldl (λ '(detectedLanguage, maxCount) '(groupName, count),
         if bool_decide (count > maxCount) then (Some groupName, count)
         else (detectedLanguage, maxCount))
         (None, 0) counts).

(** ** Sizes *)

(** [x.toFixed(2)] for a number below [10^21], given exactly as a rational:
    the integer [n] for which [n / 100] is closest to [x], the larger one of
    two, written with at least three digits and a point before the last
    two. *)
Definition point2 (n : Z) : jsstring :=
  let m := JS.padStart 3 48 (JS.Number_toString 10 n) in
  take (length m - 2) m ++ [46] ++ drop (length m - 2) m.

Definition toFixed2 (x : Q) : jsstring :=
  if Qle_bool 0 x
  then point2 (Qfloor (Qplus (Qmult x 100%Q) (1 # 2)))
  else 45 :: point2 (Qfloor (Qplus (Qmult (Qopp x) 100%Q) (1 # 2))).

(** The [while] loop of [_formatSize]; it ends within four rounds, since
    [unitIndex] starts at 0 and a round needs [unitIndex < 4]. *)
Fixpoint formatSize_while (fuel : nat) (bytes : Q) (unitIndex : nat) : Q * nat :=
  match fuel with
  | O => (bytes, unitIndex)
  | S fuel =>
      if Qle_bool 1024%Q bytes && bool_decide (unitIndex < 5 - 1)%nat
      then formatSize_while fuel (Qdiv bytes 1024%Q) (S unitIndex)
      else (bytes, unitIndex)
  end.

(** [_formatSize(bytes)] for an integral [bytes] of absolute value below
    [2^53]: the divisions by 1024 are then exact in double precision, so
    the number is kept as a rational. *)
Definition _formatSize (bytes : Z) : jsstring :=
  let units := ["bytes"; "KB"; "MB"; "GB"; "TB"]%string in
  let '(bytes, unitIndex) := formatSize_while 4 (inject_Z bytes) 0 in
  toFixed2 bytes ++ js " " ++ from_option js (js "undefined") (units !! unitIndex).
(** ** The statistics of a text *)

(** What [_calculateStats] is given: a [Blob], of which it reads the MIME
    type, or a string. *)
Inductive input : Type :=
  | Blob (type : jsstring)
  | String (s : jsstring).

Record stats : Type := Stats {
  characters : nat;
  words : nat;
  lines : nat;
  size : nat;
  type : jsstring;
  isBlob : bool;
  isDataURI : bool
}.

(** [s.startsWith(prefix)]. *)
Definition startsWith (prefix s : jsstring) : bool :=
  bool_decide (take (length prefix) s = prefix).

(** [s.split(/\s+/)]: the pieces between the longest runs of white space
    and line terminators. [in_separator] tells that the unit before was
    one of a run. *)
Fixpoint split_white_space (in_separator : bool) (s : jsstring)
  : list jsstring :=
  match s with
  | [] => [[]]
  | c :: s' =>
      if JS.is_StrWhiteSpaceChar c then
        if in_separator then split_white_space true s'
        else [] :: split_white_space true s'
      else
        match split_white_space false s' with
        | p :: ps => (c :: p) :: ps
        | [] => [[c]]
        end
  end.

(** [s.split(/\r\n|\r|\n/)]. *)
Fixpoint split_lines (s : jsstring) : list jsstring :=
  match s with
  | [] => [[]]
  | c :: s' =>
      if bool_decide (c = 13) then
        match s' with
        | d :: s'' =>
            if bool_decide (d = 10) then [] :: split_lines s''
            else [] :: split_lines s'
        | [] => [[]; []]
        end
      else if bool_decide (c = 10) then [] :: split_lines s'
      else
        match split_lines s' with
        | p :: ps => (c :: p) :: ps
        | [] => [[c]]
        end
  end.

(** [text.trim().split(/\s+/).filter(Boolean).length]. *)
Definition count_words (text : jsstring) : nat :=
  length (filter (λ word, word ≠ []) (split_white_space false (trim text))).

(** [text.split(/\r\n|\r|\n/).length]. *)
Definition count_lines (text : jsstring) : nat := length (split_lines text).

(** [new Blob([text]).size]: the length of the text in UTF-8. *)
Definition Blob_size (text : jsstring) : nat :=
  length (JS.TextEncoder_encode text).

(** The line terminators, which [.] does not match. *)
Definition is_LineTerminator (c : Z) : bool :=
  bool_decide (c ∈ [0xA; 0xD; 0x2028; 0x2029]).

(** [(.*?);] read at the start of [s]: the units before the first [;],
    when no line terminator comes before it. *)
Fixpoint up_to_semicolon (s : jsstring) : option jsstring :=
  match s with
  | [] => None
  | c :: s' =>
      if bool_decide (c = 59) then Some []
      else if is_LineTerminator c then None
      else (c ::.) <$> up_to_semicolon s'
  end.

(** [header.match(/:(.*?);/)]: the group of the leftmost match; [None] is
    [null]. *)
Fixpoint match_type (header : jsstring) : option jsstring :=
  match header with
  | [] => None
  | c :: rest =>
      if bool_decide (c = 58) then
        match up_to_semicolon rest with
        | Some type => Some type
        | None => match_type rest
        end
      else match_type rest
  end.

(** [_calculateStats(input)]. The text of a [Blob] is a promise, which has
    no [trim]. *)
Definition _calculateStats (input : input) : completion stats :=
  match input with
  | Blob type => Throw (TypeError "text.trim is not a function")
  | String input =>
      if startsWith (js "data:") input then
        let parts := JS.split 44 input in
        let header := default [] (head parts) in
        let base64Data := parts !! 1%nat in
        type ←
          match match_type header with
          | Some type => Normal type
          | None =>
              Throw (TypeError "Cannot read properties of null (reading '1')")
          end;
        binaryData ← JS.atob (default (js "undefined") base64Data);
        Normal {| characters := length (binaryData : jsstring);
                  words := count_words binaryData;
                  lines := count_lines binaryData;
                  size := Blob_size binaryData;
                  type := type;
                  isBlob := false;
                  isDataURI := true |}
      else
        let text := input in
        Normal {| characters := length text;
                  words := count_words text;
                  lines := count_lines text;
                  size := Blob_size text;
                  type := js "text/plain";
                  isBlob := false;
                  isDataURI := false |}
  end.

End TughraLibrary.

(** * Definitions used in the proofs *)

(** A host for the examples: its calls take up to 65535 arguments. *)
Definition example_host : Host := {| max_arguments := 65535 |}.

(** The pieces [s.substring(i, i + n)] a loop [for (i = 0; i < s.length;
    i += n)] cuts a string into. *)
Definition chunks (n : nat) (s : list Z) : list jsstring :=
  (λ i, JS.substring s i (i + n)) <$> Tughra.loop_indices (length s) n.

(** The units of a binary numeral, ["0"] and ["1"]. *)
Definition binary_digit (c : Z) : Prop := c = 48 ∨ c = 49.

(** All binary numerals of [n] digits. *)
Fixpoint binary_strings (n : nat) : list jsstring :=
  match n with
  | O => [[]]
  | S n' => ((48 ::.) <$> binary_strings n') ++ ((49 ::.) <$> binary_strings n')
  end.

(** A chunk of [n] binary digits is read by [parseInt] as a value below
    [2^n] and written back by [toString(2).padStart(n, '0')]. *)
Definition chunk_ok (n : nat) (ch : list Z) : bool :=
  match JS.parseInt ch 2 with
  | Some v =>
      bool_decide (0 ≤ v < 2 ^ Z.of_nat n)
      && bool_decide (JS.padStart n 48 (JS.Number_toString 2 v) = ch)
  | None => false
  end.

(** A byte is written as eight binary digits which [parseInt] reads back. *)
Definition byte_ok (c : Z) : bool :=
  let digits := JS.padStart 8 48 (JS.Number_toString 2 c) in
  bool_decide (Forall binary_digit digits)
  && bool_decide (length digits = 8%nat)
  && bool_decide (JS.parseInt digits 2 = Some c).

(** The units [/[A-Za-z]/] matches. *)
Definition letters : list Z := seqZ 65 26 ++ seqZ 97 26.

(** A byte: an element of a [Uint8Array], a unit [btoa] accepts. *)
Definition byte (c : Z) : Prop := 0 ≤ c < 256.

(** The six-bit groups [btoa] writes for a sequence of bytes. *)
Fixpoint base64_sextets (bs : list Z) : list Z :=
  match bs with
  | [] => []
  | [a] => [Z.shiftr a 2; Z.shiftl (Z.land a 3) 4]
  | [a; b] =>
      [Z.shiftr a 2; Z.lor (Z.shiftl (Z.land a 3) 4) (Z.shiftr b 4);
       Z.shiftl (Z.land b 15) 2]
  | a :: b :: c :: r =>
      Z.shiftr a 2
      :: Z.lor (Z.shiftl (Z.land a 3) 4) (Z.shiftr b 4)
      :: Z.lor (Z.shiftl (Z.land b 15) 2) (Z.shiftr c 6)
      :: Z.land c 63
      :: base64_sextets r
  end.

(** A Unicode scalar value: a code point that is not a surrogate. *)
Definition scalar_value (cp : Z) : Prop :=
  0 ≤ cp ≤ 0x10FFFF ∧ ¬ (0xD800 ≤ cp ≤ 0xDFFF).

(** What the string iterator yields: one code unit, or a high surrogate
    followed by a low one. *)
Definition iterator_item (item : jsstring) : Prop :=
  (∃ c, item = [c] ∧ code_unit c)
  ∨ (∃ c d, item = [c; d] ∧ 0xD800 ≤ c ≤ 0xDBFF ∧ 0xDC00 ≤ d ≤ 0xDFFF).

(** Well-formed Unicode: the string has no lone surrogate. *)
Definition unicode (s : jsstring) : Prop :=
  Forall (λ item, JS.is_surrogate (JS.codePoint item) = false)
    (JS.String_iterator s).

(** The alphabets the base encoding round-trips with: distinct symbols,
    chunks of one to eight bits that address no more symbols than there
    are, and no surrogate among the symbols. *)
Definition codec_domain (alphabet : jsstring) : Prop :=
  NoDup alphabet
  ∧ (length alphabet = 2%nat ∨ (4 ≤ length alphabet ≤ 2980)%nat)
  ∧ Forall (λ c, JS.is_surrogate c = false) alphabet.

(** The texts on which a decryption cycle of the variant undoes an
    encryption cycle: 'Numeric' needs one unit at least, 'Base64' units
    that [btoa] accepts, 'vigenere' and 'xor' a text that [TextEncoder] and
    [TextDecoder] leave as it is, and 'xor' no more bytes of UTF-8 than a
    call takes arguments. *)
Definition cycle_law_domain {host : Host} (v : Tughra.variant)
    (text : jsstring) : Prop :=
  match v with
  | Tughra.ROT47 | Tughra.Atbash | Tughra.ReversedCaesar => False
  | Tughra.Numeric => text ≠ []
  | Tughra.Base64 => Forall byte text
  | Tughra.Vigenere => unicode text ∧ head text ≠ Some 0xFEFF
  | Tughra.Xor =>
      unicode text ∧ head text ≠ Some 0xFEFF
      ∧ Z.of_nat (length (JS.TextEncoder_encode text)) ≤ max_arguments
  | _ => True
  end.

(** Shifts and masks are rewritten to quotients and remainders, which
    [lia] then decides. *)
Create Rewrite HintDb bits.

Ltac bits_to_arith := autorewrite with bits.

Ltac div_mod_lia := Z.to_euclidean_division_equations; lia.

(** ** The library *)

(** The first group of the table that holds a code. *)
Definition group_of (charCode : Z) : option TughraLibrary.group :=
  snd <$> list_find (λ group,
            TughraLibrary.start group ≤ charCode
            ∧ charCode ≤ TughraLibrary.end_ group)
            (TughraLibrary.unicodeGroups TughraLibrary.constructor).

(** The characters [detectLanguage] counts for a group: those whose first
    code unit has the group as the first one of the table that holds it. *)
Definition counts_for (groupName : string) (char : jsstring) : bool :=
  bool_decide (TughraLibrary.name <$> (head char ≫= group_of) = Some groupName).

Definition occurrences (text : jsstring) (group : TughraLibrary.group) : Z :=
  Z.of_nat (length (filter (λ char, counts_for (TughraLibrary.name group) char)
                      (JS.String_iterator text))).

(** The last loop of [detectLanguage]. *)
Definition most_frequent (counts : list (string * Z)) : option string * Z :=
  foldl (λ '(detectedLanguage, maxCount) '(groupName, count),
    if bool_decide (count > maxCount) then (Some groupName, count)
    else (detectedLanguage, maxCount)) (None, 0) counts.

(** ** Letters *)

(** [d] may stand where [c] stood: a letter of the same case for a letter,
    the unit itself for any other unit. *)
Definition keeps_letter_class (c d : Z) : bool :=
  if Tughra.is_letter c
  then Tughra.is_letter d
       && bool_decide (Tughra.letter_base d = Tughra.letter_base c)
  else bool_decide (d = c).

(** * Properties *)

(** ** The host model on known values *)

Example TextEncoder_encode_known :
  JS.TextEncoder_encode [0x20AC; 0xD83D; 0xDE00; 0xD800; 65]
  = [0xE2; 0x82; 0xAC; 0xF0; 0x9F; 0x98; 0x80; 0xEF; 0xBF; 0xBD; 65].
Proof. vm_compute. reflexivity. Qed.

Example decodeURIComponent_escape_known :
  JS.decodeURIComponent_escape [0xE2; 0x82; 0xAC; 0xF0; 0x9F; 0x98; 0x80; 65]
  = Normal [0x20AC; 0xD83D; 0xDE00; 65]
  ∧ JS.decodeURIComponent_escape [0xC0; 0x80] = Throw URIError
  ∧ JS.decodeURIComponent_escape [0xED; 0xA0; 0x80] = Throw URIError.
Proof. vm_compute. done. Qed.

Example split_join_known :
  JS.split 45 (js "12-3--4-") = [js "12"; js "3"; []; js "4"; []]
  ∧ JS.join (js "-") [js "12"; js "3"; []; js "4"; []] = js "12-3--4-"
  ∧ JS.split 45 [] = [[]].
Proof. vm_compute. done. Qed.

Example btoa_known :
  JS.btoa (js "hello") = Normal (js "aGVsbG8=")
  ∧ JS.btoa (js "hi") = Normal (js "aGk=")
  ∧ JS.btoa (js "abc") = Normal (js "YWJj")
  ∧ JS.btoa [256] = Throw InvalidCharacterError.
Proof. vm_compute. done. Qed.

Example atob_known :
  JS.atob (js "aGVsbG8=") = Normal (js "hello")
  ∧ JS.atob (js "aGVsbG8") = Normal (js "hello")
  ∧ JS.atob (js " aGk= ") = Normal (js "hi")
  ∧ JS.atob (js "YQ==") = Normal (js "a")
  ∧ JS.atob (js "a") = Throw InvalidCharacterError
  ∧ JS.atob (js "aG=k") = Throw InvalidCharacterError
  ∧ JS.atob [] = Normal [].
Proof. vm_compute. done. Qed.

Example parseInt_known :
  JS.parseInt (js "0x1F") 0 = Some 31
  ∧ JS.parseInt (js " 42abc") 0 = Some 42
  ∧ JS.parseInt [] 0 = None
  ∧ JS.parseInt (js "101") 2 = Some 5
  ∧ JS.parseInt (js "12") 2 = Some 1
  ∧ JS.parseInt (js "-7") 0 = Some (-7)
  ∧ JS.parseInt (js "9007199254740993") 0 = Some 9007199254740992
  ∧ JS.parseInt (js "9007199254740995") 0 = Some 9007199254740996.
Proof. vm_compute. done. Qed.

Example TextDecoder_decode_known :
  JS.TextDecoder_decode [0xEF; 0xBB; 0xBF; 0x41] = js "A"
  ∧ JS.TextDecoder_decode [0xC3] = [0xFFFD]
  ∧ JS.TextDecoder_decode [0xE2; 0x82; 0x41] = [0xFFFD; 65]
  ∧ JS.TextDecoder_decode [0xF0; 0x9F; 0x98; 0x80] = [0xD83D; 0xDE00]
  ∧ JS.TextDecoder_decode [0xED; 0xA0; 0x80] = [0xFFFD; 0xFFFD; 0xFFFD].
Proof. vm_compute. done. Qed.

Example Number_toString_known :
  JS.Number_toString 2 171 = js "10101011"
  ∧ JS.Number_toString 2 0 = js "0"
  ∧ JS.Number_toString 10 65535 = js "65535"
  ∧ JS.Number_toString 10 1000 = js "1000"
  ∧ JS.Uint8Array_toString [97; 98; 100] = js "97,98,100".
Proof. vm_compute. done. Qed.

(** The scenario of the specification for ROT13; the key only has to pass
    the length check. *)
Example ROT13_Hello_World {host : Host} :
  (this ← Tughra.constructor "encrypt" [] "ROT13" (js "abcdefgh") false;
   Tughra.process this (js "Hello, World!") 1)
  = Normal (js "Uryyb, Jbeyq!")
  ∧ (this ← Tughra.constructor "encrypt" [] "ROT13" (js "abcdefgh") false;
     Tughra.process this (js "Uryyb, Jbeyq!") 1)
    = Normal (js "Hello, World!").
Proof. vm_compute. done. Qed.

(** ** Code units *)

Lemma fromCharCode_code_unit n : code_unit (JS.fromCharCode n).
Proof. apply Z.mod_pos_bound. lia. Qed.

Lemma fromCharCode_id c : code_unit c → JS.fromCharCode c = c.
Proof.
  unfold code_unit, JS.fromCharCode, JS.ToUint16. intros.
  by rewrite Z.mod_small.
Qed.

(** ** Cycles *)

Lemma for_loop_ext {A} (f g : A → completion A) n x :
  (∀ y, f y = g y) → for_loop n f x = for_loop n g x.
Proof.
  intros Hfg. revert x. induction n as [|n IH]; intros x; simpl; [done|].
  rewrite Hfg. destruct (g x); simpl; auto.
Qed.

(** The last cycle can be peeled off as well as the first. *)
Lemma for_loop_snoc {A} (f : A → completion A) n x :
  for_loop (S n) f x = for_loop n f x ≫= f.
Proof.
  revert x. induction n as [|n IH]; intros x.
  - simpl. by destruct (f x).
  - change (for_loop (S (S n)) f x) with (f x ≫= for_loop (S n) f).
    change (for_loop (S n) f x) with (f x ≫= for_loop n f).
    destruct (f x) as [y| |]; simpl; [|done..]. apply IH.
Qed.

(** If one cycle of [g] undoes one cycle of [f] on the texts satisfying
    [P], and [f] stays within [P], then [n] cycles undo [n] cycles. *)
Section inverse_cycles.
Context {A : Type} (P : A → Prop) (f g : A → completion A).
Hypothesis step : ∀ x, P x → ∃ y, f x = Normal y ∧ P y ∧ g y = Normal x.

Lemma for_loop_inverse n x :
  P x → ∃ y, for_loop n f x = Normal y ∧ P y ∧ for_loop n g y = Normal x.
Proof.
  revert x. induction n as [|n IH]; intros x Hx.
  - exists x. done.
  - destruct (IH x Hx) as (y & Hy & HPy & Hback).
    destruct (step y HPy) as (z & Hz & HPz & Hgz).
    exists z. split; [|split; [done|]].
    + rewrite for_loop_snoc, Hy. exact Hz.
    + simpl. rewrite Hgz. exact Hback.
Qed.
End inverse_cycles.

(** ** Construction *)

Lemma Set_from_first_occurrences {A} `{EqDecision A} (l : list A) :
  Set_from l = first_occurrences l.
Proof.
  unfold Set_from.
  cut (∀ acc, foldl (λ set x, if bool_decide (x ∈ set) then set else set ++ [x]) acc l
              = acc ++ filter (λ y, y ∉ acc) (first_occurrences l)).
  { intros ->. simpl. induction (first_occurrences l) as [|x k IH]; [done|].
    rewrite filter_cons_True by apply not_elem_of_nil. by f_equal. }
  induction l as [|x l IH]; intros acc; simpl.
  - by rewrite app_nil_r.
  - rewrite IH. case_bool_decide as Hx.
    + rewrite filter_cons_False by (by intros []). f_equal.
      rewrite list_filter_filter. apply list_filter_iff.
      intros y. simpl. split; [|by intros [? _]]. intros Hy. split; [done|]. by intros ->.
    + rewrite filter_cons_True by done. rewrite <- app_assoc. simpl. do 2 f_equal.
      rewrite list_filter_filter. apply list_filter_iff.
      intros y. rewrite not_elem_of_app, list_elem_of_singleton. tauto.
Qed.

Lemma first_occurrences_subseteq {A} `{EqDecision A} (l : list A) :
  first_occurrences l ⊆ l.
Proof.
  induction l as [|x l IH]; simpl; [done|].
  intros y. rewrite !elem_of_cons, list_elem_of_filter.
  intros [->|[_ Hy]]; [by left|right; by apply IH].
Qed.

Lemma first_occurrences_nil {A} `{EqDecision A} (l : list A) :
  first_occurrences l = [] → l = [].
Proof. by destruct l. Qed.

Lemma String_iterator_cons c d s :
  JS.String_iterator (c :: d :: s) =
  if JS.is_high_surrogate c && JS.is_low_surrogate d
  then [c; d] :: JS.String_iterator s
  else [c] :: JS.String_iterator (d :: s).
Proof. reflexivity. Qed.

Lemma String_iterator_nonempty s : Forall (λ item, item ≠ []) (JS.String_iterator s).
Proof.
  induction s as [s IH] using (induction_ltof1 _ length). unfold ltof in IH.
  destruct s as [|c [|d s]]; [by constructor|by repeat constructor|].
  rewrite String_iterator_cons.
  destruct (_ && _); constructor; try done; apply IH; simpl; lia.
Qed.

Lemma String_iterator_nil s : JS.String_iterator s = [] → s = [].
Proof. destruct s as [|c [|d s]]; simpl; try done. by destruct (_ && _). Qed.

Lemma join_nil parts : JS.join [] parts = concat parts.
Proof.
  induction parts as [|p [|q parts] IH]; simpl in *; [done| by rewrite app_nil_r |].
  by rewrite IH.
Qed.

Lemma mapM_items (items : list (list Z)) (e : exn) :
  Forall (λ item, item ≠ []) items →
  mapM (λ item, match JS.charCodeAt item 0 with
                | None => Throw e
                | Some _ => Normal item
                end) items = Normal items.
Proof.
  induction 1 as [|item items Hitem _ IH]; [done|].
  simpl. destruct item; [done|]. simpl. rewrite IH. done.
Qed.

(** The key a constructed instance uses for the default variant. *)
Lemma uniqueKeyOffsets_concat key :
  ∀ e, mapM (λ item, match JS.charCodeAt item 0 with
                | None => Throw e
                | Some _ => Normal item
                end) (Set_from (JS.String_iterator key))
   = Normal (first_occurrences (JS.String_iterator key)).
Proof.
  intros e. rewrite Set_from_first_occurrences. apply mapM_items.
  eapply Forall_forall. intros x Hx%first_occurrences_subseteq.
  revert x Hx. apply Forall_forall, String_iterator_nonempty.
Qed.

Lemma constructor_eq mode charset algorithm key ub :
  Tughra.constructor mode charset algorithm key ub =
  let uniqueKeyOffsets := concat (first_occurrences (JS.String_iterator key)) in
  if String.eqb algorithm "default" && bool_decide (length uniqueKeyOffsets = 0%nat)
  then Throw (Error "keyOffsets must contain at least one valid value.")
  else
    _ ← (if negb (String.eqb algorithm "default")
         then Tughra.checkKeyStrength key else Normal ());
    Normal (Tughra.Build_t uniqueKeyOffsets
      (if String.eqb mode "" then "encrypt" else mode)
      ub
      (match charset with [] => Tughra.default_baseCharset | _ => charset end)
      (Tughra.baseEncodeDecode (match charset with [] => Tughra.default_baseCharset | _ => charset end))
      (JS.TextEncoder_encode key)
      (if String.eqb algorithm "" then "default" else algorithm)
      (Object_fromEntries Tughra.substitution_entries)
      (Object_fromEntries ((λ kv, (kv.2, kv.1)) <$> Tughra.substitution_entries))
      5 8 26).
Proof.
  unfold Tughra.constructor. rewrite uniqueKeyOffsets_concat. simpl.
  rewrite join_nil. reflexivity.
Qed.

Lemma concat_first_occurrences_nonempty key :
  key ≠ [] → concat (first_occurrences (JS.String_iterator key)) ≠ [].
Proof.
  intros Hkey Hnil. destruct (JS.String_iterator key) as [|item items] eqn:E.
  { by apply String_iterator_nil in E. }
  pose proof (String_iterator_nonempty key) as Hne. rewrite E in Hne.
  apply Forall_cons_1 in Hne as [Hitem _]. simpl in Hnil.
  by destruct item.
Qed.

(** Every instance the constructor returns has a key for the default
    variant, and the Affine fields 5, 8, 26. *)
Lemma constructor_Normal mode charset algorithm key ub this :
  Tughra.constructor mode charset algorithm key ub = Normal this →
  Tughra.keyOffsets this = concat (first_occurrences (JS.String_iterator key))
  ∧ Tughra.keyOffsets this ≠ []
  ∧ Tughra.encryptionKey this = JS.TextEncoder_encode key
  ∧ Tughra.useBaseEncoding this = ub
  ∧ Tughra.baseLibrary this = Tughra.baseEncodeDecode (Tughra.baseCharset this)
  ∧ Tughra.baseCharset this ≠ []
  ∧ (algorithm ≠ "default"%string → (8 ≤ length key)%nat)
  ∧ Tughra.a this = 5 ∧ Tughra.b this = 8 ∧ Tughra.m this = 26.
Proof.
  rewrite constructor_eq. cbv zeta.
  destruct (String.eqb algorithm "default") eqn:Halg; simpl.
  - case_bool_decide as Hlen; [done|]. intros [= <-]. simpl.
    repeat split; try done.
    + intros Hnil. by rewrite Hnil in Hlen.
    + by destruct charset.
    + apply String.eqb_eq in Halg. done.
  - unfold Tughra.checkKeyStrength. case_bool_decide as Hlen; [done|].
    simpl. intros [= <-]. simpl. repeat split; try done.
    + apply concat_first_occurrences_nonempty. intros ->. simpl in Hlen. lia.
    + by destruct charset.
    + lia.
Qed.

(** ** The default variant *)

Section default_variant.
Variable this : Tughra.t.
Hypothesis key_nonempty : Tughra.keyOffsets this ≠ [].

Lemma keyOffsets_lookup i :
  is_Some (Tughra.keyOffsets this
             !! (i `mod` length (Tughra.keyOffsets this))%nat).
Proof.
  apply lookup_lt_is_Some, Nat.mod_upper_bound.
  destruct (Tughra.keyOffsets this); simpl; [done | lia].
Qed.

Lemma TughraEncrypt_wf text : wf_string (Tughra._TughraEncrypt this text).
Proof.
  apply Forall_lookup. intros i x. unfold Tughra._TughraEncrypt.
  rewrite list_lookup_imap_Some. intros (c & _ & ->).
  destruct (keyOffsets_lookup i) as [o Ho]. unfold JS.charCodeAt. rewrite Ho.
  apply fromCharCode_code_unit.
Qed.

Lemma TughraDecrypt_Encrypt text :
  wf_string text →
  Tughra._TughraDecrypt this (Tughra._TughraEncrypt this text) = text.
Proof.
  intros Hwf. apply list_eq. intros i.
  unfold Tughra._TughraDecrypt, Tughra._TughraEncrypt.
  rewrite !list_lookup_imap. destruct (text !! i) as [c|] eqn:Hc; [|done].
  simpl. f_equal. unfold JS.charCodeAt.
  destruct (keyOffsets_lookup i) as [o ->]. simpl.
  unfold JS.fromCharCode, JS.ToUint16.
  rewrite Zminus_mod_idemp_l. replace (c + o - o) with c by lia.
  apply Z.mod_small. eapply (Forall_lookup_1 _ _ _ _ Hwf Hc).
Qed.
End default_variant.

(** ** Dispatch *)

Lemma switch_Default_not_forced algorithm :
  Tughra.switch algorithm = Tughra.Default →
  String.eqb algorithm "xor" || String.eqb algorithm "ROT47"
  || String.eqb algorithm "ROT13" = false.
Proof.
  intros Hs.
  destruct (String.eqb_spec algorithm "xor") as [->|_]; [done|].
  destruct (String.eqb_spec algorithm "ROT47") as [->|_]; [done|].
  by destruct (String.eqb_spec algorithm "ROT13") as [->|_].
Qed.

Lemma processCycle_Default {host : Host} this text mode :
  Tughra.switch (Tughra.algorithm this) = Tughra.Default →
  Tughra._processCycle this text mode =
  Normal (if String.eqb mode "encrypt" then Tughra._TughraEncrypt this text
          else Tughra._TughraDecrypt this text).
Proof. intros Hs. unfold Tughra._processCycle. by rewrite Hs. Qed.

(** Two instances that agree on what the default variant reads are
    processed alike. *)
Lemma process_Default_ext {host : Host} (this1 this2 : Tughra.t) text n :
  Tughra.switch (Tughra.algorithm this1) = Tughra.Default →
  Tughra.switch (Tughra.algorithm this2) = Tughra.Default →
  Tughra.keyOffsets this1 = Tughra.keyOffsets this2 →
  Tughra.mode this1 = Tughra.mode this2 →
  Tughra.useBaseEncoding this1 = Tughra.useBaseEncoding this2 →
  Tughra.baseLibrary this1 = Tughra.baseLibrary this2 →
  Tughra.process this1 text n = Tughra.process this2 text n.
Proof.
  intros Hs1 Hs2 Hkey Hmode Hub Hlib.
  assert (Hfrom : ∀ s, Tughra.fromBase this1 s = Tughra.fromBase this2 s).
  { intros s. unfold Tughra.fromBase. by rewrite Hlib. }
  assert (Hto : ∀ s, Tughra.toBase this1 s = Tughra.toBase this2 s).
  { intros s. unfold Tughra.toBase. by rewrite Hlib. }
  assert (Hstep : ∀ mode r, Tughra._processCycle this1 r mode
                            = Tughra._processCycle this2 r mode).
  { intros mode r. rewrite !processCycle_Default by done.
    unfold Tughra._TughraEncrypt, Tughra._TughraDecrypt. by rewrite Hkey. }
  unfold Tughra.process.
  rewrite !switch_Default_not_forced by done. rewrite Hub, Hmode, Hfrom.
  destruct (if _ && _ then _ else _) as [text'| |]; simpl; [|done..].
  rewrite (for_loop_ext _ _ _ _ (Hstep _)).
  destruct (for_loop _ _ _) as [r| |]; simpl; [|done..].
  by rewrite Hto.
Qed.

(** ** Identifiers outside the [switch] *)

Lemma switch_unknown algorithm :
  algorithm ∉ (fst <$> Tughra.cases) → Tughra.switch algorithm = Tughra.Default.
Proof.
  intros Hnot. unfold Tughra.switch.
  destruct (list_find _ _) as [[i [name v]]|] eqn:Hfind; [|done].
  apply list_find_Some in Hfind as (Hi & Hname & _). simpl in Hname. subst name.
  destruct Hnot. apply list_elem_of_fmap. exists (algorithm, v). split; [done|].
  by eapply list_elem_of_lookup_2.
Qed.

(** C4, as stated, fails: with a key of eight units the identifier
    "nonexistent" constructs, and [process] answers with the default
    transform. *)
Lemma nonexistent_counterexample :
  ¬ (∃ e, Tughra.constructor "encrypt" [] "nonexistent" (js "abcdefgh") false = Throw e)
  ∧ (this ← Tughra.constructor "encrypt" [] "nonexistent" (js "abcdefgh") false;
     Tughra.process (host := example_host) this (js "A") 1) = Normal [65 + 97].
Proof. split; [by intros [e He]|reflexivity]. Qed.

(** C4, amended. An identifier that is neither a [case] of the [switch] nor
    'default' is only subject to the key-length check: construction throws
    the key-strength error for a key shorter than eight units, and
    otherwise succeeds with an instance whose [process] is that of the
    default variant under the same key. *)
Theorem unknown_variant_falls_back {host : Host} (mode : string) (charset key : list Z)
    (algorithm : string) (ub : bool) :
  algorithm ∉ (fst <$> Tughra.cases) → algorithm ≠ "default"%string →
  ((length key < 8)%nat →
     Tughra.constructor mode charset algorithm key ub
     = Throw (Error "Key must be at least 8 characters long."))
  ∧ ((8 ≤ length key)%nat →
     ∃ this, Tughra.constructor mode charset algorithm key ub = Normal this
       ∧ ∀ text n,
           Tughra.process this text n
           = (this' ← Tughra.constructor mode charset "default" key ub;
              Tughra.process this' text n)).
Proof.
  intros Hnot Hdef. rewrite !constructor_eq. cbv zeta.
  apply String.eqb_neq in Hdef. rewrite Hdef. simpl.
  unfold Tughra.checkKeyStrength. split; intros Hlen.
  - by rewrite bool_decide_eq_true_2.
  - rewrite bool_decide_eq_false_2 by lia. simpl. eexists. split; [done|].
    intros text n.
    rewrite bool_decide_eq_false_2; last first.
    { intros Hnil%nil_length_inv. revert Hnil.
      apply concat_first_occurrences_nonempty. intros ->. simpl in Hlen. lia. }
    simpl. apply process_Default_ext; try done. simpl.
    destruct (String.eqb_spec algorithm ""); [done|]. by apply switch_unknown.
Qed.

Lemma unknown_variant_falls_back_witness :
  ("nonexistent"%string ∉ fst <$> Tughra.cases)
  ∧ "nonexistent"%string ≠ "default"%string
  ∧ ∃ this, Tughra.constructor "encrypt" [] "nonexistent" (js "abcdefgh") false = Normal this
       ∧ ∀ text n,
           Tughra.process (host := example_host) this text n
           = (this' ← Tughra.constructor "encrypt" [] "default" (js "abcdefgh") false;
              Tughra.process (host := example_host) this' text n).
Proof.
  assert (H1 : "nonexistent"%string ∉ (fst <$> Tughra.cases)).
  { apply (bool_decide_unpack _). vm_compute. exact I. }
  assert (H2 : "nonexistent"%string ≠ "default"%string) by discriminate.
  split; [exact H1|]. split; [exact H2|].
  apply (unknown_variant_falls_back "encrypt" [] (js "abcdefgh") "nonexistent" false H1 H2).
  simpl. lia.
Defined.

(** ** Symbols outside the alphabet *)

Lemma indexOf_None s c : JS.indexOf s c = None ↔ c ∉ s.
Proof.
  induction s as [|x s IH]; simpl.
  - split; [intros _; apply not_elem_of_nil | done].
  - rewrite not_elem_of_cons. case_bool_decide as Hx.
    + split; [done | by intros [? _]].
    + rewrite fmap_None, IH. split; [done | by intros [_ ?]].
Qed.

Lemma indexOf_Some s c i :
  JS.indexOf s c = Some i → s !! i = Some c.
Proof.
  revert i. induction s as [|x s IH]; intros i; simpl; [done|].
  case_bool_decide as Hx; [by intros [= <-]; subst|].
  destruct (JS.indexOf s c) as [j|]; simpl; [|done]. intros [= <-]. by apply IH.
Qed.

(** In a loop that returns or throws one fixed exception at each element,
    an element that throws makes the loop throw. *)
Lemma mapM_Throw {A B} (f : A → completion B) (e : exn) l x :
  (∀ y, f y = Throw e ∨ ∃ z, f y = Normal z) →
  x ∈ l → f x = Throw e → mapM f l = Throw e.
Proof.
  intros Hf Hx Hfx. induction l as [|y l IH]; [by apply elem_of_nil in Hx|].
  apply elem_of_cons in Hx as [<-|Hx]; simpl.
  - by rewrite Hfx.
  - destruct (Hf y) as [-> | [z ->]]; [done|]. simpl. by rewrite IH.
Qed.

Lemma decode_invalid_symbol alphabet text c :
  c ∈ text → c ∉ alphabet →
  Tughra.decode (Tughra.baseEncodeDecode alphabet) text
  = Throw (Error "Invalid Base character").
Proof.
  intros Hc Hnot. simpl.
  erewrite mapM_Throw; [done| |exact Hc|].
  - intros y. destruct (JS.indexOf alphabet y); eauto.
  - apply indexOf_None in Hnot. by rewrite Hnot.
Qed.

(** C5, as stated, fails: in decrypt mode with base encoding, the text "G!"
    has the symbol "!" outside the default alphabet, and [process] returns a
    value. *)
Lemma invalid_symbol_counterexample :
  ¬ (∃ e, (this ← Tughra.constructor "decrypt" [] "default" (js "abc") true;
           Tughra.process (host := example_host) this (js "G!") 1) = Throw e)
  ∧ (this ← Tughra.constructor "decrypt" [] "default" (js "abc") true;
     Tughra.process (host := example_host) this (js "G!") 1) = Normal [65510; 65471]
  ∧ 33 ∈ js "G!" ∧ 33 ∉ Tughra.default_baseCharset.
Proof.
  split; [|split; [|split]].
  - intros [e He]. vm_compute in He. discriminate.
  - vm_compute. reflexivity.
  - apply (bool_decide_unpack _). vm_compute. exact I.
  - apply (bool_decide_unpack _). vm_compute. exact I.
Qed.

(** C5, amended. When a symbol of the text is absent from the alphabet,
    the codec's [decode] throws 'Invalid Base character', [fromBase]
    catches it and returns the text as it came, and [process] in decrypt
    mode with base encoding runs its cycles on the undecoded text and
    returns their outcome. *)
Theorem invalid_symbol_is_swallowed {host : Host} (this : Tughra.t) (text : list Z) (c : Z) (n : Z) :
  Tughra.baseLibrary this = Tughra.baseEncodeDecode (Tughra.baseCharset this) →
  Tughra.useBaseEncoding this = true →
  Tughra.mode this = "decrypt"%string →
  c ∈ text → c ∉ Tughra.baseCharset this →
  Tughra.decode (Tughra.baseLibrary this) text
  = Throw (Error "Invalid Base character")
  ∧ Tughra.fromBase this text = Normal text
  ∧ Tughra.process this text n
    = for_loop
        (Z.to_nat (if String.eqb (Tughra.algorithm this) "xor"
                      || String.eqb (Tughra.algorithm this) "ROT47"
                      || String.eqb (Tughra.algorithm this) "ROT13"
                   then 1 else n))
        (λ r, Tughra._processCycle this r "decrypt") text.
Proof.
  intros Hlib Hub Hmode Hc Hnot.
  assert (Hdecode : Tughra.decode (Tughra.baseLibrary this) text
                    = Throw (Error "Invalid Base character")).
  { rewrite Hlib. by eapply decode_invalid_symbol. }
  assert (Hfrom : Tughra.fromBase this text = Normal text).
  { unfold Tughra.fromBase. rewrite Hdecode. by destruct text. }
  split; [done|]. split; [done|].
  unfold Tughra.process. rewrite Hub, Hmode, Hfrom. simpl.
  by destruct (for_loop _ _ _).
Qed.

Lemma invalid_symbol_is_swallowed_witness :
  ∃ this,
    Tughra.constructor "decrypt" [] "default" (js "abc") true = Normal this
    ∧ Tughra.fromBase this (js "G!") = Normal (js "G!")
    ∧ Tughra.process (host := example_host) this (js "G!") 1 = Normal [65510; 65471].
Proof.
  eexists. split; [reflexivity|].
  lazymatch goal with
  | |- Tughra.fromBase ?this _ = _ ∧ _ =>
      assert (Hin : 33 ∈ js "G!")
        by (apply (bool_decide_unpack _); vm_compute; exact I);
      assert (Hout : 33 ∉ Tughra.baseCharset this)
        by (apply (bool_decide_unpack _); vm_compute; exact I);
      destruct (invalid_symbol_is_swallowed (host := example_host) this (js "G!") 33 1
                  eq_refl eq_refl eq_refl Hin Hout) as (_ & Hfrom & Hprocess)
  end.
  split; [exact Hfrom|]. rewrite Hprocess. reflexivity.
Defined.

(** ** Cycles that do not fail *)

Lemma for_loop_Normal {A} (f : A → completion A) (h : A → A) n x :
  (∀ y, f y = Normal (h y)) → for_loop n f x = Normal (Nat.iter n h x).
Proof.
  intros Hf. revert x. induction n as [|n IH]; intros x; [done|].
  rewrite for_loop_snoc, IH. simpl. apply Hf.
Qed.

(** ** Chunks *)

Lemma loop_indices_0 step : (0 < step)%nat → Tughra.loop_indices 0 step = [].
Proof.
  intros Hstep. unfold Tughra.loop_indices.
  replace ((0 + step - 1) `div` step)%nat with 0%nat; [done|].
  symmetry. apply Nat.div_small. lia.
Qed.

Lemma loop_indices_S n step :
  (0 < step)%nat → (0 < n)%nat →
  Tughra.loop_indices n step
  = 0%nat :: ((λ i, step + i)%nat <$> Tughra.loop_indices (n - step) step).
Proof.
  intros Hstep Hn. unfold Tughra.loop_indices.
  assert (((n + step - 1) `div` step = S ((n - step + step - 1) `div` step))%nat) as ->.
  { destruct (decide (n ≤ step)%nat) as [Hle|Hgt].
    - replace (n - step)%nat with 0%nat by lia.
      rewrite (Nat.div_small (0 + step - 1)) by lia.
      replace (n + step - 1)%nat with (1 * step + (n - 1))%nat by lia.
      rewrite Nat.div_add_l by lia. rewrite Nat.div_small by lia. done.
    - replace (n + step - 1)%nat with (1 * step + (n - step + step - 1))%nat by lia.
      rewrite Nat.div_add_l by lia. done. }
  rewrite <- cons_seq, <- fmap_S_seq. simpl. f_equal.
  rewrite <- !list_fmap_compose. apply list_fmap_ext. intros _ k _. simpl. lia.
Qed.

Lemma chunks_nil n : (0 < n)%nat → chunks n [] = [].
Proof. intros Hn. unfold chunks. simpl. by rewrite loop_indices_0. Qed.

Lemma chunks_cons n s :
  (0 < n)%nat → s ≠ [] → chunks n s = take n s :: chunks n (drop n s).
Proof.
  intros Hn Hs. unfold chunks. rewrite loop_indices_S; [|done|].
  2:{ destruct s; simpl; [done|lia]. }
  simpl. f_equal.
  - unfold JS.substring. rewrite drop_0. f_equal. lia.
  - rewrite length_drop, <- list_fmap_compose. apply list_fmap_ext.
    intros _ i _. simpl. unfold JS.substring. rewrite drop_drop. f_equal. lia.
Qed.

Lemma chunks_app n x s :
  (0 < n)%nat → length x = n → chunks n (x ++ s) = x :: chunks n s.
Proof.
  intros Hn Hx. rewrite chunks_cons; [|done|].
  2:{ destruct x; simpl in *; [lia|done]. }
  rewrite take_app_length' by done. rewrite drop_app_length' by done. done.
Qed.

Lemma chunks_short n s :
  s ≠ [] → (length s < n)%nat → chunks n s = [s].
Proof.
  intros Hs Hlen. rewrite chunks_cons by (done || lia).
  rewrite take_ge, drop_ge by lia. rewrite chunks_nil by lia. done.
Qed.

(** An induction principle that follows the chunks of a string. *)
Lemma chunks_ind n (P : list Z → list jsstring → Prop) :
  (0 < n)%nat →
  P [] [] →
  (∀ s, s ≠ [] → (length s < n)%nat → P s [s]) →
  (∀ x s, length x = n → P s (chunks n s) → P (x ++ s) (x :: chunks n s)) →
  ∀ s, P s (chunks n s).
Proof.
  intros Hn Hnil Hshort Hcons s.
  induction s as [s IH] using (induction_ltof1 _ length). unfold ltof in IH.
  destruct (decide (s = [])) as [->|Hs]; [by rewrite chunks_nil|].
  destruct (decide (length s < n)%nat) as [Hlt|Hge].
  - rewrite chunks_short by done. by apply Hshort.
  - rewrite <- (take_drop n s) at 1 2. 
    rewrite chunks_app by (done || rewrite length_take; lia).
    apply Hcons; [rewrite length_take; lia|].
    apply IH. rewrite length_drop. destruct s; simpl in *; [done|lia].
Qed.

Lemma padded_chunks_length n s :
  (0 < n)%nat → Forall (λ ch, length ch = n) (JS.padEnd n 48 <$> chunks n s).
Proof.
  intros Hn. apply (chunks_ind n (λ s cs, Forall (λ ch, length ch = n) (JS.padEnd n 48 <$> cs))); [done|..].
  - constructor.
  - intros s' _ Hlen. repeat constructor. unfold JS.padEnd.
    rewrite length_app, length_replicate. lia.
  - intros x s' Hx IH. rewrite fmap_cons. constructor; [|done].
    unfold JS.padEnd. rewrite length_app, length_replicate. lia.
Qed.

Lemma padded_chunks_binary n s :
  (0 < n)%nat → Forall binary_digit s →
  Forall (Forall binary_digit) (JS.padEnd n 48 <$> chunks n s).
Proof.
  intros Hn. apply (chunks_ind n (λ s cs, Forall binary_digit s →
    Forall (Forall binary_digit) (JS.padEnd n 48 <$> cs))); [done|..].
  - constructor.
  - intros s' _ Hlen Hs'. repeat constructor. unfold JS.padEnd.
    apply Forall_app. split; [done|]. apply Forall_replicate. by left.
  - intros x s' Hx IH [Hbx Hbs]%Forall_app. rewrite fmap_cons. constructor; [|auto].
    unfold JS.padEnd. apply Forall_app. split; [done|]. apply Forall_replicate. by left.
Qed.

Lemma padded_chunks_concat n s :
  (0 < n)%nat →
  ∃ k, (k < n)%nat ∧ concat (JS.padEnd n 48 <$> chunks n s) = s ++ replicate k 48.
Proof.
  intros Hn. apply (chunks_ind n (λ s cs, ∃ k, (k < n)%nat
    ∧ concat (JS.padEnd n 48 <$> cs) = s ++ replicate k 48)); [done|..].
  - exists 0%nat. done.
  - intros s' Hs' Hlen. exists (n - length s')%nat. split.
    + destruct s'; simpl in *; [done|lia].
    + simpl. by rewrite app_nil_r.
  - intros x s' Hx (k & Hk & IH). exists k. split; [done|].
    rewrite fmap_cons. simpl. rewrite IH. unfold JS.padEnd.
    rewrite Hx, Nat.sub_diag. simpl. by rewrite app_nil_r, app_assoc.
Qed.

(** ** Binary numerals of at most eight digits *)

Lemma elem_of_binary_strings s :
  Forall binary_digit s → s ∈ binary_strings (length s).
Proof.
  induction 1 as [|c s [->| ->] _ IH]; simpl.
  - apply list_elem_of_singleton. done.
  - apply elem_of_app. left. by apply list_elem_of_fmap_2.
  - apply elem_of_app. right. by apply list_elem_of_fmap_2.
Qed.

Lemma chunk_ok_binary_strings n :
  (1 ≤ n ≤ 8)%nat → Forall (λ ch, chunk_ok n ch = true) (binary_strings n).
Proof.
  intros Hn.
  do 9 (destruct n as [|n]; [try lia; apply (bool_decide_unpack _); by vm_compute|]).
  lia.
Qed.

Lemma binary_chunk n ch :
  (1 ≤ n ≤ 8)%nat → length ch = n → Forall binary_digit ch →
  ∃ v, JS.parseInt ch 2 = Some v ∧ 0 ≤ v < 2 ^ Z.of_nat n
       ∧ JS.padStart n 48 (JS.Number_toString 2 v) = ch.
Proof.
  intros Hn Hlen Hch. pose proof (chunk_ok_binary_strings n Hn) as Hall.
  apply elem_of_binary_strings in Hch. rewrite Hlen in Hch.
  eapply Forall_forall in Hall; [|exact Hch].
  unfold chunk_ok in Hall. destruct (JS.parseInt ch 2) as [v|]; [|done].
  apply andb_true_iff in Hall as [H1%bool_decide_eq_true H2%bool_decide_eq_true].
  by exists v.
Qed.

Lemma byte_ok_all : Forall (λ c, byte_ok c = true) (seqZ 0 256).
Proof. apply (bool_decide_unpack _). by vm_compute. Qed.

Lemma byte_digits c :
  0 ≤ c < 256 →
  Forall binary_digit (JS.padStart 8 48 (JS.Number_toString 2 c))
  ∧ length (JS.padStart 8 48 (JS.Number_toString 2 c)) = 8%nat
  ∧ JS.parseInt (JS.padStart 8 48 (JS.Number_toString 2 c)) 2 = Some c.
Proof.
  intros Hc. pose proof byte_ok_all as Hall.
  eapply Forall_forall in Hall; [|apply elem_of_seqZ; split; [|simpl]; apply Hc].
  unfold byte_ok in Hall. cbv zeta in Hall.
  apply andb_true_iff in Hall as [[H1%bool_decide_eq_true H2%bool_decide_eq_true]%andb_true_iff
     H3%bool_decide_eq_true]. done.
Qed.

(** ** The codec *)

Lemma length_filter_mono {A} (P Q : A → Prop) `{∀ x, Decision (P x)}
    `{∀ x, Decision (Q x)} (l : list A) :
  (∀ x, P x → Q x) → (length (filter P l) ≤ length (filter Q l))%nat.
Proof.
  intros HPQ. induction l as [|x l IH]; [done|].
  rewrite !filter_cons.
  destruct (decide (P x)) as [HP|HP]; destruct (decide (Q x)) as [HQ|HQ];
    simpl; try lia.
  destruct HQ. auto.
Qed.

Lemma ceil_log_mono b1 b2 :
  (b1 ≤ b2)%nat → (Tughra.ceil_log b1 ≤ Tughra.ceil_log b2)%nat.
Proof. intros Hb. apply length_filter_mono. intros x. lia. Qed.

Lemma ceil_log_between lo hi k b :
  Tughra.ceil_log lo = k → Tughra.ceil_log hi = k → (lo ≤ b ≤ hi)%nat →
  Tughra.ceil_log b = k.
Proof.
  intros Hlo Hhi [H1 H2]. apply ceil_log_mono in H1, H2. lia.
Qed.

(** The alphabets whose chunk size is between 1 and 8 bits and addresses
    no more symbols than there are. *)
Lemma ceil_log_addressable base :
  base = 2%nat ∨ (4 ≤ base ≤ 2980)%nat →
  (1 ≤ Tughra.ceil_log base ≤ 8)%nat
  ∧ 2 ^ Z.of_nat (Tughra.ceil_log base) ≤ Z.of_nat base.
Proof.
  intros [->|Hbase].
  { assert (Tughra.ceil_log 2 = 1%nat) as -> by reflexivity. lia. }
  destruct (decide (base ≤ 7)%nat);
    [rewrite (ceil_log_between 4 7 2 base) by (done || lia); lia|].
  destruct (decide (base ≤ 20)%nat);
    [rewrite (ceil_log_between 8 20 3 base) by (done || lia); lia|].
  destruct (decide (base ≤ 54)%nat);
    [rewrite (ceil_log_between 21 54 4 base) by (done || lia); lia|].
  destruct (decide (base ≤ 148)%nat);
    [rewrite (ceil_log_between 55 148 5 base) by (done || lia); lia|].
  destruct (decide (base ≤ 403)%nat);
    [rewrite (ceil_log_between 149 403 6 base) by (done || lia); lia|].
  destruct (decide (base ≤ 1096)%nat);
    [rewrite (ceil_log_between 404 1096 7 base) by (done || lia); lia|].
  rewrite (ceil_log_between 1097 2980 8 base) by (done || lia). lia.
Qed.

Lemma encode_eq alphabet text :
  (0 < Tughra.ceil_log (length alphabet))%nat →
  Tughra.encode (Tughra.baseEncodeDecode alphabet) text
  = Normal (ch ← JS.padEnd (Tughra.ceil_log (length alphabet)) 48
                   <$> chunks (Tughra.ceil_log (length alphabet))
                         (c ← text; JS.padStart 8 48 (JS.Number_toString 2 c));
            Tughra.alphabet_at alphabet (JS.parseInt ch 2)).
Proof.
  intros Hcs. simpl. destruct (Tughra.ceil_log (length alphabet)) as [|n] eqn:E; [lia|].
  unfold chunks. rewrite !list_fmap_bind. destruct (mbind _ text); reflexivity.
Qed.

Lemma decode_eq alphabet text :
  Tughra.decode (Tughra.baseEncodeDecode alphabet) text
  = (pieces ← mapM (λ c,
       match JS.indexOf alphabet c with
       | None => Throw (Error "Invalid Base character")
       | Some index =>
           Normal (JS.padStart (Tughra.ceil_log (length alphabet)) 48
                     (JS.Number_toString 2 (Z.of_nat index)))
       end) text;
     Normal (ch ← chunks 8 (concat pieces);
             if bool_decide (length ch = 8%nat)
             then [JS.fromCharCode_num (JS.parseInt ch 2)] else [])).
Proof.
  simpl. destruct (mapM _ text) as [pieces| |]; simpl; [|done..].
  unfold chunks. by rewrite list_fmap_bind.
Qed.

Lemma indexOf_lookup s i c :
  NoDup s → s !! i = Some c → JS.indexOf s c = Some i.
Proof.
  intros Hs. revert i. induction Hs as [|x s Hx Hs IH]; intros i; [done|].
  destruct i as [|i]; simpl.
  - intros [= ->]. by rewrite bool_decide_eq_true_2.
  - intros Hi. rewrite bool_decide_eq_false_2.
    + by rewrite (IH i Hi).
    + intros ->. apply Hx. by eapply list_elem_of_lookup_2.
Qed.

Section round_trip.
Variable alphabet : list Z.
Hypothesis alphabet_NoDup : NoDup alphabet.
Let n := Tughra.ceil_log (length alphabet).
Hypothesis chunk_size : (1 ≤ n ≤ 8)%nat.
Hypothesis addressable : 2 ^ Z.of_nat n ≤ Z.of_nat (length alphabet).

(** The symbols written for a list of padded chunks decode to the chunks. *)
Lemma decode_symbols (padded : list jsstring) :
  Forall (λ ch, length ch = n) padded →
  Forall (Forall binary_digit) padded →
  mapM (λ c,
    match JS.indexOf alphabet c with
    | None => Throw (Error "Invalid Base character")
    | Some index =>
        Normal (JS.padStart n 48 (JS.Number_toString 2 (Z.of_nat index)))
    end) (ch ← padded; Tughra.alphabet_at alphabet (JS.parseInt ch 2))
  = Normal padded.
Proof.
  induction padded as [|ch padded IH]; intros Hlen Hbin; [done|].
  apply Forall_cons_1 in Hlen as [Hlen1 Hlen]. apply Forall_cons_1 in Hbin as [Hbin1 Hbin].
  destruct (binary_chunk n ch chunk_size Hlen1 Hbin1) as (v & Hparse & Hv & Hpad).
  destruct (lookup_lt_is_Some_2 alphabet (Z.to_nat v)) as [c Hc]; [lia|].
  rewrite bind_cons. unfold Tughra.alphabet_at at 1. rewrite Hparse. simpl.
  rewrite bool_decide_eq_true_2 by lia. rewrite Hc. simpl.
  rewrite (indexOf_lookup _ _ _ alphabet_NoDup Hc). simpl.
  rewrite Z2Nat.id by lia. rewrite Hpad.
  rewrite (IH Hlen Hbin). done.
Qed.

Lemma decode_bytes (bytes pad : jsstring) :
  Forall (λ c, 0 ≤ c < 256) bytes → (length pad < 8)%nat →
  (ch ← chunks 8 ((c ← bytes; JS.padStart 8 48 (JS.Number_toString 2 c)) ++ pad);
   if bool_decide (length ch = 8%nat)
   then [JS.fromCharCode_num (JS.parseInt ch 2)] else []) = bytes.
Proof.
  intros Hbytes Hpad. induction Hbytes as [|c bytes Hc _ IH].
  - simpl. destruct (decide (pad = [])) as [->|Hne]; [by rewrite chunks_nil by lia|].
    rewrite chunks_short by done. simpl.
    rewrite bool_decide_eq_false_2 by lia. done.
  - destruct (byte_digits c Hc) as (_ & Hlen & Hparse).
    rewrite bind_cons, <- app_assoc, chunks_app by (done || lia).
    rewrite bind_cons, bool_decide_eq_true_2 by done. rewrite Hparse, IH. simpl.
    f_equal. apply fromCharCode_id. unfold code_unit. lia.
Qed.

Lemma encode_decode (bytes : jsstring) :
  Forall (λ c, 0 ≤ c < 256) bytes →
  ∃ symbols,
    Tughra.encode (Tughra.baseEncodeDecode alphabet) bytes = Normal symbols
    ∧ Tughra.decode (Tughra.baseEncodeDecode alphabet) symbols = Normal bytes.
Proof.
  intros Hbytes. eexists. split; [apply encode_eq; fold n; lia|].
  rewrite decode_eq. fold n.
  set (binary := c ← bytes; JS.padStart 8 48 (JS.Number_toString 2 c)).
  assert (Hbin : Forall binary_digit binary).
  { apply Forall_bind. eapply Forall_impl; [exact Hbytes|].
    intros c Hc. by destruct (byte_digits c Hc) as (? & _ & _). }
  rewrite decode_symbols.
  - simpl. destruct (padded_chunks_concat n binary) as (k & Hk & ->); [lia|].
    f_equal. apply decode_bytes; [done|]. rewrite length_replicate. lia.
  - apply padded_chunks_length. lia.
  - apply padded_chunks_binary; [lia | done].
Qed.
End round_trip.

(** Chunks of nine bits: eight bytes are padded with eight bits, which
    decode to a ninth byte. *)
Example BaseCodec_nine_bit_chunks :
  Tughra.ceil_log 2981 = 9%nat
  ∧ (symbols ← Tughra.encode (Tughra.baseEncodeDecode (seqZ 0 2981))
                 [1; 2; 3; 4; 5; 6; 7; 8];
     Tughra.decode (Tughra.baseEncodeDecode (seqZ 0 2981)) symbols)
    = Normal [1; 2; 3; 4; 5; 6; 7; 8; 0].
Proof. split; by vm_compute. Qed.

(** C2, as stated, fails: the chunk size is the ceiling of the natural
    logarithm of the alphabet size, so the hexadecimal alphabet has chunks
    of three bits and the byte 0xAB is written with three symbols; and an
    alphabet of three distinct symbols does not round-trip. *)
Lemma hexadecimal_counterexample :
  Tughra.encode (Tughra.baseEncodeDecode (js "0123456789abcdef")) [0xAB]
  = Normal (js "526")
  ∧ length (js "526") ≠ 2%nat
  ∧ NoDup (js "abc")
  ∧ Tughra.encode (Tughra.baseEncodeDecode (js "abc")) [0xAB]
    = Normal (js "cccundefined")
  ∧ Tughra.decode (Tughra.baseEncodeDecode (js "abc")) (js "cccundefined")
    = Throw (Error "Invalid Base character").
Proof.
  split; [by vm_compute|]. split; [by vm_compute|].
  split; [apply (bool_decide_unpack _); by vm_compute|].
  split; by vm_compute.
Qed.

(** C2, amended. For an alphabet of distinct symbols whose size is 2 or
    from 4 to 2980, [decode(encode(bytes))] is [bytes] for every sequence
    of bytes; with the 16-symbol hexadecimal alphabet the byte 0xAB is
    written with the three symbols "526", which decode to 0xAB. *)
Theorem BaseCodec_round_trip (alphabet bytes : jsstring) :
  NoDup alphabet →
  length alphabet = 2%nat ∨ (4 ≤ length alphabet ≤ 2980)%nat →
  Forall (λ c, 0 ≤ c < 256) bytes →
  (∃ symbols,
     Tughra.encode (Tughra.baseEncodeDecode alphabet) bytes = Normal symbols
     ∧ Tughra.decode (Tughra.baseEncodeDecode alphabet) symbols = Normal bytes)
  ∧ Tughra.encode (Tughra.baseEncodeDecode (js "0123456789abcdef")) [0xAB]
    = Normal (js "526")
  ∧ Tughra.decode (Tughra.baseEncodeDecode (js "0123456789abcdef")) (js "526")
    = Normal [0xAB].
Proof.
  intros Hnodup [Hsize Haddr]%ceil_log_addressable Hbytes. split.
  - by apply encode_decode.
  - split; by vm_compute.
Qed.

Lemma BaseCodec_round_trip_witness :
  NoDup Tughra.default_baseCharset
  ∧ ∃ symbols,
     Tughra.encode (Tughra.baseEncodeDecode Tughra.default_baseCharset) (js "Tughra") = Normal symbols
     ∧ Tughra.decode (Tughra.baseEncodeDecode Tughra.default_baseCharset) symbols = Normal (js "Tughra").
Proof.
  assert (Hnodup : NoDup Tughra.default_baseCharset)
    by (apply (bool_decide_unpack _); by vm_compute).
  split; [exact Hnodup|].
  apply (BaseCodec_round_trip Tughra.default_baseCharset (js "Tughra") Hnodup).
  - right. change (length Tughra.default_baseCharset) with 65%nat. lia.
  - apply (bool_decide_unpack _). by vm_compute.
Defined.

(** ** Variants that act unit by unit *)

Lemma replace_inverse re f g text :
  (∀ c, re c = true → re (f c) = true ∧ g (f c) = c) →
  Tughra.replace re g (Tughra.replace re f text) = text.
Proof.
  intros Hfg. unfold Tughra.replace. rewrite <- list_fmap_compose.
  rewrite <- (list_fmap_id text) at 2. apply list_fmap_ext. intros _ c _. simpl.
  destruct (re c) eqn:Hc; [|by rewrite Hc].
  destruct (Hfg c Hc) as [-> ->]. done.
Qed.

Lemma replace_wf re f text :
  (∀ c, code_unit (f c)) → wf_string text → wf_string (Tughra.replace re f text).
Proof.
  intros Hf Hwf. apply Forall_fmap. eapply Forall_impl; [exact Hwf|].
  intros c Hc. simpl. by destruct (re c).
Qed.

Lemma is_letter_letters c : Tughra.is_letter c = true → c ∈ letters.
Proof.
  unfold Tughra.is_letter, letters. intros [H|H]%orb_true_iff;
    apply bool_decide_eq_true in H; apply elem_of_app; [left|right];
    apply elem_of_seqZ; lia.
Qed.

(** For the letters, an inverse is established by running it on all 52. *)
Lemma replace_letters_inverse f g text :
  forallb (λ c, Tughra.is_letter (f c) && bool_decide (g (f c) = c)) letters
  = true →
  Tughra.replace Tughra.is_letter g (Tughra.replace Tughra.is_letter f text)
  = text.
Proof.
  intros Hall. apply replace_inverse. intros c Hc%is_letter_letters.
  rewrite forallb_forall in Hall. apply list_elem_of_In, Hall in Hc.
  apply andb_true_iff in Hc as [? ?%bool_decide_eq_true]. done.
Qed.

Lemma ROT13_involution text :
  Tughra._encryptROT13 (Tughra._encryptROT13 text) = text.
Proof. apply replace_letters_inverse. by vm_compute. Qed.

Lemma ROT18_inverse text :
  Tughra._decryptROT18 (Tughra._encryptROT18 text) = text.
Proof. apply replace_letters_inverse. by vm_compute. Qed.

Lemma ROT25_inverse text :
  Tughra._decryptROT25 (Tughra._encryptROT25 text) = text.
Proof. apply replace_letters_inverse. by vm_compute. Qed.

Lemma ROT30_inverse text :
  Tughra._decryptROT30 (Tughra._encryptROT30 text) = text.
Proof. apply replace_letters_inverse. by vm_compute. Qed.

Lemma Atbash_involution text :
  Tughra._encryptAtbash (Tughra._encryptAtbash text) = text.
Proof. apply replace_letters_inverse. by vm_compute. Qed.

Lemma ROT47_involution text :
  Tughra._encryptROT47 (Tughra._encryptROT47 text) = text.
Proof.
  apply replace_inverse. intros c Hc%bool_decide_eq_true.
  assert (Hin : c ∈ seqZ 33 94) by (apply elem_of_seqZ; lia).
  clear Hc. revert c Hin. apply Forall_forall. apply (bool_decide_unpack _). by vm_compute.
Qed.

Lemma Affine_inverse this text :
  Tughra.a this = 5 → Tughra.b this = 8 →
  Tughra._decryptAffine this (Tughra._encryptAffine this text) = text.
Proof.
  intros Ha Hb. unfold Tughra._decryptAffine, Tughra._encryptAffine.
  rewrite Ha, Hb. apply replace_letters_inverse. by vm_compute.
Qed.

Lemma AffinePro_inverse this text :
  Tughra.a this = 5 → Tughra.b this = 8 → Tughra.m this = 26 →
  Tughra._decryptAffinePro this (Tughra._encryptAffinePro this text)
  = Normal text.
Proof.
  intros Ha Hb Hm. unfold Tughra._decryptAffinePro, Tughra._encryptAffinePro.
  rewrite Ha, Hb, Hm. change (Tughra._modInverse 5 26) with (Some 21). f_equal.
  apply replace_letters_inverse. by vm_compute.
Qed.

(** ** Shifts and exclusive or on code units *)

Lemma shift_inverse (k : Z) text :
  wf_string text →
  (λ char, JS.fromCharCode (char - k)) <$> ((λ char, JS.fromCharCode (char + k)) <$> text)
  = text.
Proof.
  intros Hwf. rewrite <- list_fmap_compose. rewrite <- (list_fmap_id text) at 2.
  apply Forall_fmap_ext. eapply Forall_impl; [exact Hwf|]. intros c Hc. simpl.
  unfold JS.fromCharCode, JS.ToUint16. rewrite Zminus_mod_idemp_l.
  replace (c + k - k) with c by lia. by apply Z.mod_small.
Qed.

Lemma shift_wf (k : Z) text :
  wf_string ((λ char, JS.fromCharCode (char + k)) <$> text).
Proof.
  apply Forall_fmap, Forall_true. intros c. apply fromCharCode_code_unit.
Qed.

Lemma lxor_mod_involution c k :
  code_unit c →
  JS.fromCharCode (Z.lxor (JS.fromCharCode (Z.lxor c k)) k) = c.
Proof.
  intros Hc. unfold JS.fromCharCode, JS.ToUint16.
  change 65536 with (2 ^ 16). rewrite <- !Z.land_ones by lia.
  rewrite <- (Z.mod_small c (2 ^ 16)) at 2 by exact Hc.
  rewrite <- Z.land_ones by lia.
  apply Z.bits_inj'. intros i Hi.
  rewrite !Z.land_spec, !Z.lxor_spec, Z.land_spec, Z.lxor_spec.
  destruct (Z.testbit c i), (Z.testbit k i), (Z.testbit (Z.ones 16) i); done.
Qed.

Lemma XORPro_involution key text :
  wf_string text →
  Tughra._encryptXORPro (Tughra._encryptXORPro text key) key = text.
Proof.
  intros Hwf. apply list_eq. intros i. unfold Tughra._encryptXORPro.
  rewrite !list_lookup_imap. destruct (text !! i) as [c|] eqn:Hc; [|done].
  simpl. f_equal. apply lxor_mod_involution.
  by eapply (Forall_lookup_1 _ _ _ _ Hwf).
Qed.

Lemma XORPro_wf key text : wf_string (Tughra._encryptXORPro text key).
Proof.
  apply Forall_lookup. intros i x. unfold Tughra._encryptXORPro.
  rewrite list_lookup_imap_Some. intros (c & _ & ->). apply fromCharCode_code_unit.
Qed.


(** ** The substitution table *)

Lemma Object_fromEntries_lookup_None entries c :
  c ∉ entries.*1 → Object_fromEntries entries !! c = None.
Proof.
  unfold Object_fromEntries. generalize (∅ : gmap Z Z) (lookup_empty (M:=gmap Z) (A:=Z) c).
  induction entries as [|[k v] entries IH]; intros acc Hacc Hc; [done|].
  simpl in *. apply not_elem_of_cons in Hc as [Hk Hc].
  apply IH; [|done]. by rewrite lookup_insert_ne.
Qed.

Lemma substitution_keys_letters (entries : list (Z * Z)) c :
  forallb Tughra.is_letter entries.*1 = true →
  Tughra.is_letter c = false → Object_fromEntries entries !! c = None.
Proof.
  intros Hall Hc. apply Object_fromEntries_lookup_None. intros Hin.
  rewrite forallb_forall in Hall. apply list_elem_of_In, Hall in Hin. congruence.
Qed.

Lemma substitution_tables c :
  default (default c (Object_fromEntries Tughra.substitution_entries !! c))
    (Object_fromEntries ((λ kv, (kv.2, kv.1)) <$> Tughra.substitution_entries)
       !! default c (Object_fromEntries Tughra.substitution_entries !! c))
  = c.
Proof.
  destruct (Tughra.is_letter c) eqn:Hc.
  - apply is_letter_letters in Hc.
    assert (Hall : forallb (λ c,
      bool_decide (default (default c (Object_fromEntries Tughra.substitution_entries !! c))
        (Object_fromEntries ((λ kv, (kv.2, kv.1)) <$> Tughra.substitution_entries)
           !! default c (Object_fromEntries Tughra.substitution_entries !! c)) = c))
      letters = true) by (by vm_compute).
    rewrite forallb_forall in Hall. apply list_elem_of_In, Hall in Hc.
    by apply bool_decide_eq_true in Hc.
  - rewrite !(substitution_keys_letters _ c) by (done || by vm_compute). done.
Qed.

Lemma Substitution_inverse this text :
  Tughra.substitutionKey this = Object_fromEntries Tughra.substitution_entries →
  Tughra.reverseSubstitutionKey this
  = Object_fromEntries ((λ kv, (kv.2, kv.1)) <$> Tughra.substitution_entries) →
  Tughra._decryptSubstitution this (Tughra._encryptSubstitution this text) = text.
Proof.
  intros Hfwd Hrev. unfold Tughra._decryptSubstitution, Tughra._encryptSubstitution.
  rewrite Hfwd, Hrev, <- list_fmap_compose. rewrite <- (list_fmap_id text) at 2.
  apply list_fmap_ext. intros _ c _. apply substitution_tables.
Qed.

Lemma Object_fromEntries_lookup_Some entries k v :
  Object_fromEntries entries !! k = Some v → (k, v) ∈ entries.
Proof.
  unfold Object_fromEntries.
  cut (∀ acc : gmap Z Z,
         foldl (λ o kv, <[kv.1:=kv.2]> o) acc entries !! k = Some v →
         (k, v) ∈ entries ∨ acc !! k = Some v).
  { intros H Hk. by destruct (H ∅ Hk) as [?|?]. }
  induction entries as [|[k' v'] entries IH]; intros acc Hk; [by right|].
  simpl in Hk. apply IH in Hk as [Hin|Hk]; [left; by right|].
  destruct (decide (k' = k)) as [->|Hne].
  - rewrite lookup_insert_eq in Hk. injection Hk as ->. left. by left.
  - rewrite lookup_insert_ne in Hk by done. by right.
Qed.

Lemma substitution_wf (entries : list (Z * Z)) text :
  forallb (λ kv : Z * Z, bool_decide (code_unit kv.2)) entries = true →
  wf_string text →
  wf_string ((λ char, default char (Object_fromEntries entries !! char)) <$> text).
Proof.
  intros Hall Hwf. apply Forall_fmap. eapply Forall_impl; [exact Hwf|].
  intros c Hc. simpl. destruct (_ !! c) as [v|] eqn:Hv; [|done]. simpl.
  apply Object_fromEntries_lookup_Some in Hv.
  rewrite forallb_forall in Hall. apply list_elem_of_In, Hall in Hv.
  by apply bool_decide_eq_true in Hv.
Qed.

(** ** Decimal numerals *)

Lemma digits_of_spec (R : Z) fuel n acc :
  2 ≤ R ≤ 10 → 0 ≤ n < R ^ (Z.of_nat fuel + 1) →
  ∃ ds, JS.digits_of fuel R n acc = ((λ d, 48 + d) <$> ds) ++ acc
        ∧ ds ≠ [] ∧ Forall (λ d, 0 ≤ d < R) ds
        ∧ foldl (λ v d, v * R + d) 0 ds = n.
Proof.
  intros HR. revert n acc.
  assert (Hlast : ∀ n acc, 0 ≤ n < R →
    ∃ ds, JS.digit_char (n `mod` R) :: acc = ((λ d, 48 + d) <$> ds) ++ acc
          ∧ ds ≠ [] ∧ Forall (λ d, 0 ≤ d < R) ds
          ∧ foldl (λ v d, v * R + d) 0 ds = n).
  { intros n acc Hn. exists [n]. rewrite Z.mod_small by done.
    unfold JS.digit_char. rewrite bool_decide_eq_true_2 by lia.
    split; [done|]. split; [done|]. split; [by apply Forall_singleton | simpl; lia]. }
  induction fuel as [|fuel IH]; intros n acc Hn.
  - simpl. apply Hlast. replace (R ^ (Z.of_nat 0 + 1)) with R in Hn by lia. done.
  - simpl. case_bool_decide as Hlt; [apply Hlast; lia|].
    destruct (IH (n `div` R) (JS.digit_char (n `mod` R) :: acc))
      as (ds & Hds & Hne & Hrange & Hval).
    { split; [apply Z.div_pos; lia|].
      apply Z.div_lt_upper_bound; [lia|].
      replace (Z.of_nat (S fuel) + 1) with (Z.succ (Z.of_nat fuel + 1)) in Hn by lia.
      rewrite Z.pow_succ_r in Hn by lia. lia. }
    exists (ds ++ [n `mod` R]). rewrite Hds.
    assert (Hmod : 0 ≤ n `mod` R < R) by (apply Z.mod_pos_bound; lia).
    split; [|split; [|split]].
    + rewrite fmap_app, <- app_assoc. simpl. do 2 f_equal.
      unfold JS.digit_char. by rewrite bool_decide_eq_true_2 by lia.
    + by destruct ds.
    + apply Forall_app. split; [done|]. by apply Forall_singleton.
    + rewrite foldl_app. simpl. rewrite Hval.
      rewrite (Z.div_mod n R) at 3 by lia. lia.
Qed.

Lemma digits_prefix_digits ds :
  Forall (λ d, 0 ≤ d < 10) ds → JS.digits_prefix 10 ((λ d, 48 + d) <$> ds) = ds.
Proof.
  induction 1 as [|d ds Hd _ IH]; [done|].
  rewrite fmap_cons. cbn [JS.digits_prefix].
  unfold JS.digit_value. rewrite bool_decide_eq_true_2 by lia.
  rewrite bool_decide_eq_true_2 by lia. rewrite IH. f_equal. lia.
Qed.

Lemma foldl_digits_nonneg (R a : Z) ds :
  0 ≤ R → 0 ≤ a → Forall (λ d, 0 ≤ d < R) ds →
  0 ≤ foldl (λ v d, v * R + d) a ds.
Proof.
  intros HR Ha Hds. revert a Ha.
  induction Hds as [|d ds Hd _ IH]; intros a Ha; [done|]. simpl. apply IH. nia.
Qed.

Lemma digit_cases (P : Z → Prop) d :
  0 ≤ d < 10 →
  P 0 → P 1 → P 2 → P 3 → P 4 → P 5 → P 6 → P 7 → P 8 → P 9 → P d.
Proof.
  intros Hd. intros.
  assert (d = 0 ∨ d = 1 ∨ d = 2 ∨ d = 3 ∨ d = 4 ∨ d = 5 ∨ d = 6 ∨ d = 7
          ∨ d = 8 ∨ d = 9) as Hcases by lia.
  repeat destruct Hcases as [->|Hcases]; try done. by subst.
Qed.

Lemma digit_head d s :
  0 ≤ d < 10 →
  JS.skip_white_space ((48 + d) :: s) = (48 + d) :: s
  ∧ JS.sign_of ((48 + d) :: s) = 1
  ∧ JS.strip_sign ((48 + d) :: s) = (48 + d) :: s.
Proof. intros Hd. pattern d. by apply digit_cases. Qed.

Lemma digit_no_prefix d ds :
  0 ≤ d < 10 → Forall (λ d, 0 ≤ d < 10) ds →
  JS.strip_prefix true 10 ((λ d, 48 + d) <$> d :: ds)
  = (10, (λ d, 48 + d) <$> d :: ds).
Proof.
  intros Hd Hds. destruct ds as [|d' ds].
  - pattern d. by apply digit_cases.
  - apply Forall_cons_1 in Hds as [Hd' _].
    assert (Hx : bool_decide (48 + d' = 120 ∨ 48 + d' = 88) = false)
      by (apply bool_decide_eq_false_2; lia).
    rewrite !fmap_cons. pattern d. apply digit_cases; [done|..];
      unfold JS.strip_prefix; try done. by rewrite Hx.
Qed.

Lemma parseInt_digits ds :
  ds ≠ [] → Forall (λ d, 0 ≤ d < 10) ds →
  foldl (λ v d, v * 10 + d) 0 ds < 2 ^ 53 →
  JS.parseInt ((λ d, 48 + d) <$> ds) 0 = Some (foldl (λ v d, v * 10 + d) 0 ds).
Proof.
  intros Hne Hds Hval.
  pose proof (digits_prefix_digits ds Hds) as Hprefix.
  destruct ds as [|d ds]; [done|]. clear Hne.
  assert (Hfold : 0 ≤ foldl (λ v d, v * 10 + d) 0 (d :: ds)).
  { by apply foldl_digits_nonneg. }
  assert (Hdouble : JS.to_double (foldl (λ v d, v * 10 + d) 0 (d :: ds))
                    = Some (foldl (λ v d, v * 10 + d) 0 (d :: ds))).
  { unfold JS.to_double. rewrite bool_decide_eq_true_2; [done|].
    destruct (decide (foldl (λ v d, v * 10 + d) 0 (d :: ds) = 0)) as [->|Hnz]; [done|].
    assert (Z.log2 (foldl (λ v d, v * 10 + d) 0 (d :: ds)) < 53); [|lia].
    apply Z.log2_lt_pow2; lia. }
  pose proof (digit_no_prefix d ds) as Hnp.
  apply Forall_cons_1 in Hds as [Hd Hds].
  specialize (Hnp Hd Hds).
  unfold JS.parseInt. rewrite fmap_cons in *.
  destruct (digit_head d ((λ d, 48 + d) <$> ds) Hd) as (-> & -> & ->).
  change (bool_decide (0 ≠ 0) && bool_decide (0 < 2 ∨ 36 < 0)) with false.
  cbv iota zeta.
  change (bool_decide (0 = 0 ∨ 0 = 16)) with true.
  change (bool_decide (0 = 0)) with true. cbv iota.
  rewrite Hnp, Hprefix, Hdouble. simpl. f_equal. by destruct (foldl _ _ _).
Qed.

Lemma parseInt_Number_toString c :
  0 ≤ c < 2 ^ 53 →
  ∃ ds, JS.Number_toString 10 c = (λ d, 48 + d) <$> ds
        ∧ ds ≠ [] ∧ Forall (λ d, 0 ≤ d < 10) ds
        ∧ JS.parseInt (JS.Number_toString 10 c) 0 = Some c.
Proof.
  intros Hc. unfold JS.Number_toString. rewrite bool_decide_eq_false_2 by lia.
  destruct (digits_of_spec 10 (Z.to_nat (Z.log2 c)) c []) as (ds & Hds & Hne & Hrange & Hval);
    [lia| |].
  { split; [lia|]. rewrite Z2Nat.id by apply Z.log2_nonneg.
    destruct (decide (c = 0)) as [->|Hnz]; [done|].
    eapply Z.lt_le_trans; [apply Z.log2_spec; lia|].
    rewrite <- Z.add_1_r. apply Z.pow_le_mono_l. lia. }
  rewrite app_nil_r in Hds. exists ds. rewrite Hds.
  split; [done|]. split; [done|]. split; [done|].
  rewrite parseInt_digits by (done || lia). by rewrite Hval.
Qed.

(** ** The Numeric variant *)

Lemma split_no_separator c s : c ∉ s → JS.split c s = [s].
Proof.
  induction s as [|x s IH]; [done|]. intros [Hx Hs]%not_elem_of_cons. simpl.
  rewrite bool_decide_eq_false_2 by done. by rewrite IH.
Qed.

Lemma split_app c p s : c ∉ p → JS.split c (p ++ c :: s) = p :: JS.split c s.
Proof.
  induction p as [|x p IH]; simpl.
  - intros _. by rewrite bool_decide_eq_true_2.
  - intros [Hx Hp]%not_elem_of_cons.
    rewrite bool_decide_eq_false_2 by done. by rewrite IH.
Qed.

Lemma split_join c parts :
  parts ≠ [] → Forall (λ p, c ∉ p) parts → JS.split c (JS.join [c] parts) = parts.
Proof.
  intros Hne Hparts. induction Hparts as [|p parts Hp Hparts IH]; [done|].
  destruct parts as [|q parts]; simpl.
  - by apply split_no_separator.
  - rewrite split_app by done. f_equal. by apply IH.
Qed.

Lemma Number_toString_decimal c :
  code_unit c →
(45 ∉ JS.Number_toString 10 c)
  ∧ JS.Number_toString 10 c ≠ []
  ∧ wf_string (JS.Number_toString 10 c)
  ∧ JS.fromCharCode_num (JS.parseInt (JS.Number_toString 10 c) 0) = c.
Proof.
  intros Hc. destruct (parseInt_Number_toString c) as (ds & -> & Hne & Hds & ->).
  { unfold code_unit in Hc. lia. }
  split; [|split; [|split]].
  - intros (d & Heq & Hd)%list_elem_of_fmap.
    eapply Forall_forall in Hds; [|exact Hd]. simpl in *. lia.
  - by destruct ds.
  - apply Forall_fmap. eapply Forall_impl; [exact Hds|].
    intros d Hd. unfold code_unit, compose. cbv beta in *. lia.
  - simpl. by apply fromCharCode_id.
Qed.

Lemma Numeric_inverse text :
  text ≠ [] → wf_string text →
  Tughra._decryptNumeric (Tughra._encryptNumeric text) = text.
Proof.
  intros Hne Hwf. unfold Tughra._decryptNumeric, Tughra._encryptNumeric.
  change (js "-") with [45]. rewrite split_join.
  - rewrite <- list_fmap_compose. rewrite <- (list_fmap_id text) at 2.
    apply Forall_fmap_ext. eapply Forall_impl; [exact Hwf|].
    intros c Hc. by apply Number_toString_decimal.
  - by destruct text.
  - apply Forall_fmap. eapply Forall_impl; [exact Hwf|].
    intros c Hc. by apply Number_toString_decimal.
Qed.

Lemma join_wf sep parts :
  wf_string sep → Forall wf_string parts → wf_string (JS.join sep parts).
Proof.
  intros Hsep Hparts. induction Hparts as [|p parts Hp _ IH]; [constructor|].
  destruct parts as [|q parts]; [done|].
  change (wf_string (p ++ sep ++ JS.join sep (q :: parts))).
  by repeat (apply Forall_app; split).
Qed.

Lemma Numeric_encrypt_domain text :
  text ≠ [] → wf_string text →
  Tughra._encryptNumeric text ≠ [] ∧ wf_string (Tughra._encryptNumeric text).
Proof.
  intros Hne Hwf. split.
  - destruct text as [|c text]; [done|].
    apply Forall_cons_1 in Hwf as [Hc Hwf].
    destruct (Number_toString_decimal c Hc) as (_ & Hnil & _).
    unfold Tughra._encryptNumeric. rewrite fmap_cons.
    destruct (JS.Number_toString 10 c) as [|x s]; [done|].
    by destruct (JS.Number_toString 10 <$> text).
  - apply join_wf; [apply (bool_decide_unpack _); by vm_compute|].
    apply Forall_fmap. eapply Forall_impl; [exact Hwf|].
    intros c Hc. by apply Number_toString_decimal.
Qed.

(** ** Bit operations as arithmetic *)

Lemma lor_shiftl_add hi lo k :
  0 ≤ k → 0 ≤ lo < 2 ^ k → Z.lor (Z.shiftl hi k) lo = hi * 2 ^ k + lo.
Proof.
  intros Hk Hlo. rewrite <- Z.shiftl_mul_pow2 by done.
  assert (Hdisjoint : Z.land (Z.shiftl hi k) lo = 0).
  { apply Z.bits_inj'. intros i Hi. rewrite Z.land_spec, Z.bits_0.
    destruct (decide (i < k)).
    - by rewrite Z.shiftl_spec_low.
    - rewrite <- (Z.mod_small lo (2 ^ k)) by done.
      rewrite Z.mod_pow2_bits_high by lia. apply andb_false_r. }
  rewrite <- Z.lxor_lor by done. symmetry. by apply Z.add_nocarry_lxor.
Qed.

(** [p] is a power of two, given by its exponent. *)
Lemma lor_mul_add (k x lo p : Z) :
  0 ≤ k → p = 2 ^ k → 0 ≤ lo < p → Z.lor (x * p) lo = x * p + lo.
Proof.
  intros Hk -> Hlo. rewrite <- lor_shiftl_add by done.
  by rewrite Z.shiftl_mul_pow2.
Qed.

Lemma shiftr_div (k a p : Z) : 0 ≤ k → p = 2 ^ k → Z.shiftr a k = a `div` p.
Proof. intros Hk ->. by apply Z.shiftr_div_pow2. Qed.

Lemma shiftl_mul (k a p : Z) : 0 ≤ k → p = 2 ^ k → Z.shiftl a k = a * p.
Proof. intros Hk ->. by apply Z.shiftl_mul_pow2. Qed.

Lemma land_mod (k a m p : Z) :
  0 ≤ k → p = 2 ^ k → m = p - 1 → Z.land a m = a `mod` p.
Proof.
  intros Hk -> ->. rewrite <- Z.land_ones by done.
  by rewrite Z.ones_equiv, <- Z.sub_1_r.
Qed.

(** The shifts and masks of the codecs, as quotients and remainders. *)
Lemma shiftr_2 a : Z.shiftr a 2 = a `div` 4.
Proof. by apply (shiftr_div 2). Qed.
Lemma shiftr_4 a : Z.shiftr a 4 = a `div` 16.
Proof. by apply (shiftr_div 4). Qed.
Lemma shiftr_6 a : Z.shiftr a 6 = a `div` 64.
Proof. by apply (shiftr_div 6). Qed.
Lemma shiftr_10 a : Z.shiftr a 10 = a `div` 1024.
Proof. by apply (shiftr_div 10). Qed.
Lemma shiftr_12 a : Z.shiftr a 12 = a `div` 4096.
Proof. by apply (shiftr_div 12). Qed.
Lemma shiftr_18 a : Z.shiftr a 18 = a `div` 262144.
Proof. by apply (shiftr_div 18). Qed.
Lemma shiftl_2 a : Z.shiftl a 2 = a * 4.
Proof. by apply (shiftl_mul 2). Qed.
Lemma shiftl_4 a : Z.shiftl a 4 = a * 16.
Proof. by apply (shiftl_mul 4). Qed.
Lemma shiftl_6 a : Z.shiftl a 6 = a * 64.
Proof. by apply (shiftl_mul 6). Qed.
Lemma shiftl_12 a : Z.shiftl a 12 = a * 4096.
Proof. by apply (shiftl_mul 12). Qed.
Lemma shiftl_18 a : Z.shiftl a 18 = a * 262144.
Proof. by apply (shiftl_mul 18). Qed.
Lemma land_3 a : Z.land a 3 = a `mod` 4.
Proof. by apply (land_mod 2). Qed.
Lemma land_7 a : Z.land a 7 = a `mod` 8.
Proof. by apply (land_mod 3). Qed.
Lemma land_15 a : Z.land a 15 = a `mod` 16.
Proof. by apply (land_mod 4). Qed.
Lemma land_31 a : Z.land a 31 = a `mod` 32.
Proof. by apply (land_mod 5). Qed.
Lemma land_63 a : Z.land a 63 = a `mod` 64.
Proof. by apply (land_mod 6). Qed.
Lemma land_1023 a : Z.land a 1023 = a `mod` 1024.
Proof. by apply (land_mod 10). Qed.

#[local] Hint Rewrite shiftr_2 shiftr_4 shiftr_6 shiftr_10 shiftr_12 shiftr_18
  shiftl_2 shiftl_4 shiftl_6 shiftl_12 shiftl_18
  land_3 land_7 land_15 land_31 land_63 land_1023 : bits.

(** ** Base64 *)

Lemma list_ind3 {A} (P : list A → Prop) :
  P [] → (∀ a, P [a]) → (∀ a b, P [a; b]) →
  (∀ a b c r, P r → P (a :: b :: c :: r)) → ∀ l, P l.
Proof.
  intros H0 H1 H2 H3 l.
  induction l as [l IH] using (induction_ltof1 _ length). unfold ltof in IH.
  destruct l as [|a [|b [|c r]]]; auto. apply H3, IH. simpl. lia.
Qed.

Lemma filter_Forall_id {A} (P : A → Prop) `{∀ x, Decision (P x)} (l : list A) :
  Forall P l → filter P l = l.
Proof.
  induction 1 as [|x l Hx _ IH]; [done|].
  by rewrite filter_cons_True, IH.
Qed.

Lemma base64_encode_sextets bs :
  ∃ k, (k ≤ 2)%nat
    ∧ JS.base64_encode bs = (JS.base64_symbol <$> base64_sextets bs) ++ replicate k 61
    ∧ ((length (base64_sextets bs) + k) `mod` 4 = 0)%nat
    ∧ (k = 0%nat ∨ base64_sextets bs ≠ []).
Proof.
  induction bs as [|a|a b|a b c r IH] using list_ind3.
  - exists 0%nat. split; [lia|]. split; [done|]. split; [done|]. by left.
  - exists 2%nat. split; [lia|]. split; [done|]. split; [done|]. by right.
  - exists 1%nat. split; [lia|]. split; [done|]. split; [done|]. by right.
  - destruct IH as (k & Hk & Henc & Hlen & Hne). exists k.
    split; [done|]. split; [|split].
    + change (JS.base64_encode (a :: b :: c :: r)) with
        (JS.base64_symbol (Z.shiftr a 2)
         :: JS.base64_symbol (Z.lor (Z.shiftl (Z.land a 3) 4) (Z.shiftr b 4))
         :: JS.base64_symbol (Z.lor (Z.shiftl (Z.land b 15) 2) (Z.shiftr c 6))
         :: JS.base64_symbol (Z.land c 63) :: JS.base64_encode r).
      by rewrite Henc.
    + change (length (base64_sextets (a :: b :: c :: r)))
        with (4 + length (base64_sextets r))%nat.
      rewrite <- Nat.add_assoc, <- (Nat.mul_1_l 4) at 1.
      by rewrite Nat.add_comm, Nat.Div0.mod_add.
    + by right.
Qed.

Lemma base64_sextets_range bs :
  Forall byte bs → Forall (λ v, 0 ≤ v < 64) (base64_sextets bs).
Proof.
  unfold byte.
  induction bs as [|a|a b|a b c r IH] using list_ind3; intros Hbs.
  - constructor.
  - apply Forall_cons_1 in Hbs as [Ha _]. simpl. bits_to_arith.
    repeat (constructor; [div_mod_lia|]). constructor.
  - apply Forall_cons_1 in Hbs as [Ha [Hb _]%Forall_cons_1]. simpl. bits_to_arith.
    rewrite (lor_mul_add 4 _ (b `div` 16)) by (done || div_mod_lia).
    repeat (constructor; [div_mod_lia|]). constructor.
  - apply Forall_cons_1 in Hbs as [Ha [Hb [Hc Hr]%Forall_cons_1]%Forall_cons_1].
    change (base64_sextets (a :: b :: c :: r)) with
      (Z.shiftr a 2
       :: Z.lor (Z.shiftl (Z.land a 3) 4) (Z.shiftr b 4)
       :: Z.lor (Z.shiftl (Z.land b 15) 2) (Z.shiftr c 6)
       :: Z.land c 63 :: base64_sextets r).
    bits_to_arith.
    rewrite (lor_mul_add 4 _ (b `div` 16)) by (done || div_mod_lia).
    rewrite (lor_mul_add 2 _ (c `div` 64)) by (done || div_mod_lia).
    repeat (constructor; [div_mod_lia|]). by apply IH.
Qed.

Lemma base64_decode_sextets bs :
  Forall byte bs → JS.base64_decode (base64_sextets bs) = bs.
Proof.
  unfold byte.
  induction bs as [|a|a b|a b c r IH] using list_ind3; intros Hbs.
  - done.
  - apply Forall_cons_1 in Hbs as [Ha _]. simpl. bits_to_arith.
    rewrite (lor_mul_add 2) by (done || div_mod_lia).
    f_equal. div_mod_lia.
  - apply Forall_cons_1 in Hbs as [Ha [Hb _]%Forall_cons_1]. simpl. bits_to_arith.
    rewrite (lor_mul_add 4 _ (b `div` 16)) by (done || div_mod_lia).
    rewrite (lor_mul_add 2) by (done || div_mod_lia).
    rewrite (lor_mul_add 4) by (done || div_mod_lia).
    f_equal; [div_mod_lia|]. f_equal. div_mod_lia.
  - apply Forall_cons_1 in Hbs as [Ha [Hb [Hc Hr]%Forall_cons_1]%Forall_cons_1].
    change (JS.base64_decode (base64_sextets (a :: b :: c :: r))) with
      (Z.lor (Z.shiftl (Z.shiftr a 2) 2)
         (Z.shiftr (Z.lor (Z.shiftl (Z.land a 3) 4) (Z.shiftr b 4)) 4)
       :: Z.lor (Z.shiftl (Z.land (Z.lor (Z.shiftl (Z.land a 3) 4) (Z.shiftr b 4)) 15) 4)
            (Z.shiftr (Z.lor (Z.shiftl (Z.land b 15) 2) (Z.shiftr c 6)) 2)
       :: Z.lor (Z.shiftl (Z.land (Z.lor (Z.shiftl (Z.land b 15) 2) (Z.shiftr c 6)) 3) 6)
            (Z.land c 63)
       :: JS.base64_decode (base64_sextets r)).
    rewrite IH by done. bits_to_arith.
    rewrite (lor_mul_add 4 _ (b `div` 16)) by (done || div_mod_lia).
    rewrite (lor_mul_add 2 _ (c `div` 64)) by (done || div_mod_lia).
    rewrite (lor_mul_add 2) by (done || div_mod_lia).
    rewrite (lor_mul_add 4) by (done || div_mod_lia).
    rewrite (lor_mul_add 6) by (done || div_mod_lia).
    f_equal; [div_mod_lia|]. f_equal; [div_mod_lia|]. f_equal. div_mod_lia.
Qed.

Lemma base64_symbol_all :
  forallb (λ v,
    bool_decide (JS.is_ascii_whitespace (JS.base64_symbol v) = false)
    && bool_decide (JS.base64_symbol v ≠ 61)
    && bool_decide (JS.indexOf JS.base64_alphabet (JS.base64_symbol v)
                    = Some (Z.to_nat v))
    && bool_decide (byte (JS.base64_symbol v))) (seqZ 0 64) = true.
Proof. by vm_compute. Qed.

Lemma base64_symbol_facts v :
  0 ≤ v < 64 →
  JS.is_ascii_whitespace (JS.base64_symbol v) = false
  ∧ JS.base64_symbol v ≠ 61
  ∧ JS.indexOf JS.base64_alphabet (JS.base64_symbol v) = Some (Z.to_nat v)
  ∧ byte (JS.base64_symbol v).
Proof.
  intros Hv. pose proof base64_symbol_all as Hall.
  rewrite forallb_forall in Hall. specialize (Hall v).
  rewrite <- list_elem_of_In, elem_of_seqZ in Hall. specialize (Hall ltac:(lia)).
  apply andb_true_iff in Hall as [Hall H4%bool_decide_eq_true].
  apply andb_true_iff in Hall as [Hall H3%bool_decide_eq_true].
  apply andb_true_iff in Hall as [H1%bool_decide_eq_true H2%bool_decide_eq_true].
  done.
Qed.

Lemma strip_padding_app symbols k :
  (k ≤ 2)%nat → k = 0%nat ∨ symbols ≠ [] → Forall (λ c, c ≠ 61) symbols →
  JS.strip_padding (symbols ++ replicate k 61) = symbols.
Proof.
  intros Hk Hne Hsym. unfold JS.strip_padding.
  rewrite reverse_app, reverse_replicate.
  assert (Hrev : Forall (λ c, c ≠ 61) (reverse symbols)).
  { by apply Forall_reverse. }
  assert (Hhead : symbols ≠ [] → ∃ y r, reverse symbols = y :: r ∧ y ≠ 61).
  { intros Hs. destruct (reverse symbols) as [|y r] eqn:E.
    - apply (f_equal reverse) in E. rewrite reverse_involutive in E. done.
    - exists y, r. split; [done|]. by apply Forall_cons_1 in Hrev as [? _]. }
  destruct k as [|[|[|k]]]; [| | |lia]; simpl.
  - rewrite app_nil_r. destruct (reverse symbols) as [|x r] eqn:E; [done|].
    apply Forall_cons_1 in Hrev as [Hx _]. by rewrite bool_decide_eq_false_2.
  - destruct Hne as [|Hne]; [done|]. destruct (Hhead Hne) as (y & r & E & Hy).
    rewrite E, bool_decide_eq_false_2 by done.
    by rewrite <- E, reverse_involutive.
  - by rewrite reverse_involutive.
Qed.

Lemma mapM_indexOf_symbols sextets :
  Forall (λ v, 0 ≤ v < 64) sextets →
  mapM (JS.indexOf JS.base64_alphabet) (JS.base64_symbol <$> sextets)
  = Some (Z.to_nat <$> sextets).
Proof.
  intros Hrange. apply mapM_Some, Forall2_fmap, Forall_Forall2_diag.
  eapply Forall_impl; [exact Hrange|]. intros v Hv.
  by destruct (base64_symbol_facts v Hv) as (_ & _ & ? & _).
Qed.

Lemma atob_btoa s :
  Forall byte s →
  ∃ e, JS.btoa s = Normal e ∧ Forall byte e ∧ JS.atob e = Normal s.
Proof.
  intros Hs. exists (JS.base64_encode s).
  pose proof (base64_sextets_range s Hs) as Hrange.
  destruct (base64_encode_sextets s) as (k & Hk & Henc & Hlen & Hne).
  assert (Hfacts : Forall (λ c, JS.is_ascii_whitespace c = false ∧ c ≠ 61 ∧ byte c)
                     (JS.base64_symbol <$> base64_sextets s)).
  { apply Forall_fmap. eapply Forall_impl; [exact Hrange|].
    intros v Hv. simpl. by destruct (base64_symbol_facts v Hv) as (? & ? & _ & ?). }
  split; [|split].
  - unfold JS.btoa. rewrite (proj2 (forallb_forall _ _)); [done|].
    intros c Hc%list_elem_of_In. eapply Forall_forall in Hs; [|exact Hc].
    apply bool_decide_eq_true. unfold byte in Hs. lia.
  - rewrite Henc. apply Forall_app. split.
    + eapply Forall_impl; [exact Hfacts|]. by intros c (_ & _ & ?).
    + apply Forall_replicate. unfold byte. lia.
  - unfold JS.atob. rewrite filter_Forall_id; last first.
    { rewrite Henc. apply Forall_app. split.
      - eapply Forall_impl; [exact Hfacts|]. by intros c (? & _ & _).
      - by apply Forall_replicate. }
    assert (Hlen' : (length (JS.base64_encode s) `mod` 4 = 0)%nat).
    { by rewrite Henc, length_app, length_fmap, length_replicate. }
    rewrite Hlen'. rewrite (bool_decide_eq_true_2 (0 = 0)%nat) by done.
    rewrite Henc, strip_padding_app; [|done|..].
    + rewrite bool_decide_eq_false_2; last first.
      { rewrite length_fmap. intros Hmod.
        rewrite <- Nat.Div0.add_mod_idemp_l, Hmod in Hlen.
        destruct k as [|[|[|k]]]; [done..|lia]. }
      rewrite mapM_indexOf_symbols by done.
      rewrite <- list_fmap_compose.
      rewrite (Forall_fmap_ext_1 (Z.of_nat ∘ Z.to_nat) id).
      * by rewrite list_fmap_id, base64_decode_sextets.
      * eapply Forall_impl; [exact Hrange|]. intros v Hv.
        unfold compose, id. cbv beta in *. lia.
    + destruct Hne as [?|Hne]; [by left|right].
      by destruct (base64_sextets s).
    + eapply Forall_impl; [exact Hfacts|]. by intros c (_ & ? & _).
Qed.

(** ** UTF-8 *)

Lemma lor_const (k hi c lo p : Z) :
  0 ≤ k → p = 2 ^ k → c = hi * p → 0 ≤ lo < p → Z.lor c lo = c + lo.
Proof. intros Hk Hp -> Hlo. by apply (lor_mul_add k). Qed.

Lemma utf8_bytes_arith cp :
  0 ≤ cp ≤ 0x10FFFF →
  JS.utf8_bytes cp =
  if bool_decide (cp < 0x80) then [cp]
  else if bool_decide (cp < 0x800) then [192 + cp `div` 64; 128 + cp `mod` 64]
  else if bool_decide (cp < 0x10000) then
    [224 + cp `div` 4096; 128 + (cp `div` 64) `mod` 64; 128 + cp `mod` 64]
  else
    [240 + cp `div` 262144; 128 + (cp `div` 4096) `mod` 64;
     128 + (cp `div` 64) `mod` 64; 128 + cp `mod` 64].
Proof.
  intros Hcp. unfold JS.utf8_bytes. bits_to_arith.
  rewrite !(lor_const 6 2 128 _ 64) by (done || div_mod_lia).
  repeat case_bool_decide; try done.
  - by rewrite (lor_const 6 3 192 _ 64) by (done || div_mod_lia).
  - by rewrite (lor_const 4 14 224 _ 16) by (done || div_mod_lia).
  - by rewrite (lor_const 3 30 240 _ 8) by (done || div_mod_lia).
Qed.

Lemma utf8_bytes_byte cp :
  0 ≤ cp ≤ 0x10FFFF → Forall byte (JS.utf8_bytes cp).
Proof.
  intros Hcp. rewrite utf8_bytes_arith by done. unfold byte.
  repeat case_bool_decide; repeat (constructor; [div_mod_lia|]); constructor.
Qed.

Lemma utf8_lead_1 b :
  0 ≤ b ≤ 0x7F → JS.utf8_lead b = (JS.utf8_decoder_initial, [b]).
Proof. intros Hb. unfold JS.utf8_lead. by rewrite bool_decide_eq_true_2. Qed.

Lemma utf8_lead_2 b :
  0xC2 ≤ b ≤ 0xDF →
  JS.utf8_lead b = (JS.Utf8Decoder (b `mod` 32) 1 0x80 0xBF, []).
Proof.
  intros Hb. unfold JS.utf8_lead. bits_to_arith.
  rewrite bool_decide_eq_false_2 by lia. by rewrite bool_decide_eq_true_2.
Qed.

Lemma utf8_lead_3 b :
  0xE0 ≤ b ≤ 0xEF →
  JS.utf8_lead b
  = (JS.Utf8Decoder (b `mod` 16) 2
       (if bool_decide (b = 0xE0) then 0xA0 else 0x80)
       (if bool_decide (b = 0xED) then 0x9F else 0xBF), []).
Proof.
  intros Hb. unfold JS.utf8_lead. bits_to_arith.
  rewrite !(bool_decide_eq_false_2 (_ ≤ b ≤ _)) by lia.
  by rewrite bool_decide_eq_true_2.
Qed.

Lemma utf8_lead_4 b :
  0xF0 ≤ b ≤ 0xF4 →
  JS.utf8_lead b
  = (JS.Utf8Decoder (b `mod` 8) 3
       (if bool_decide (b = 0xF0) then 0x90 else 0x80)
       (if bool_decide (b = 0xF4) then 0x8F else 0xBF), []).
Proof.
  intros Hb. unfold JS.utf8_lead. bits_to_arith.
  rewrite !(bool_decide_eq_false_2 (_ ≤ b ≤ _)) by lia.
  by rewrite bool_decide_eq_true_2.
Qed.

(** A continuation byte within the allowed range. *)
Lemma utf8_step_continue cp n lower upper b :
  lower ≤ b ≤ upper →
  JS.utf8_step (JS.Utf8Decoder cp (S n) lower upper) b
  = match n with
    | O => (JS.utf8_decoder_initial, [cp * 64 + b `mod` 64])
    | S _ => (JS.Utf8Decoder (cp * 64 + b `mod` 64) n 0x80 0xBF, [])
    end.
Proof.
  intros Hb. unfold JS.utf8_step. simpl. rewrite bool_decide_eq_true_2 by done.
  bits_to_arith. rewrite (lor_mul_add 6) by (done || div_mod_lia). done.
Qed.

Lemma utf8_run_cons st b bs :
  JS.utf8_run st (b :: bs)
  = (JS.utf8_step st b).2 ++ JS.utf8_run (JS.utf8_step st b).1 bs.
Proof. simpl. by destruct (JS.utf8_step st b). Qed.

Lemma utf8_run_scalar cp rest :
  scalar_value cp →
  JS.utf8_run JS.utf8_decoder_initial (JS.utf8_bytes cp ++ rest)
  = cp :: JS.utf8_run JS.utf8_decoder_initial rest.
Proof.
  intros [Hcp Hsur]. rewrite utf8_bytes_arith by done.
  repeat case_bool_decide; cbn [app]; rewrite utf8_run_cons;
    change (JS.utf8_step JS.utf8_decoder_initial ?b) with (JS.utf8_lead b).
  - by rewrite utf8_lead_1 by lia.
  - rewrite utf8_lead_2 by div_mod_lia. cbn [fst snd app].
    rewrite utf8_run_cons, utf8_step_continue by div_mod_lia. cbn [fst snd app].
    f_equal. div_mod_lia.
  - rewrite utf8_lead_3 by div_mod_lia. cbn [fst snd app].
    rewrite utf8_run_cons, utf8_step_continue
      by (repeat case_bool_decide; div_mod_lia).
    cbn [fst snd app].
    rewrite utf8_run_cons, utf8_step_continue by div_mod_lia. cbn [fst snd app].
    f_equal. div_mod_lia.
  - rewrite utf8_lead_4 by div_mod_lia. cbn [fst snd app].
    rewrite utf8_run_cons, utf8_step_continue
      by (repeat case_bool_decide; div_mod_lia).
    cbn [fst snd app].
    rewrite utf8_run_cons, utf8_step_continue by div_mod_lia. cbn [fst snd app].
    rewrite utf8_run_cons, utf8_step_continue by div_mod_lia. cbn [fst snd app].
    f_equal. div_mod_lia.
Qed.

Lemma scalar_from_scalar least cp :
  scalar_value cp → least ≤ cp → JS.scalar_from least cp = Some cp.
Proof.
  intros [Hcp Hsur] Hleast. unfold JS.scalar_from, JS.is_surrogate.
  rewrite bool_decide_eq_true_2 by lia. by rewrite bool_decide_eq_false_2.
Qed.

Lemma utf8_decode_strict_scalar cp rest :
  scalar_value cp →
  JS.utf8_decode_strict (JS.utf8_bytes cp ++ rest)
  = (cp ::.) <$> JS.utf8_decode_strict rest.
Proof.
  intros Hscalar. pose proof Hscalar as [Hcp Hsur].
  rewrite utf8_bytes_arith by done.
  repeat case_bool_decide; cbn [app JS.utf8_decode_strict].
  - by rewrite bool_decide_eq_true_2 by lia.
  - rewrite (bool_decide_eq_false_2 (0 ≤ _ < 128)) by div_mod_lia.
    rewrite (bool_decide_eq_true_2 (192 ≤ _ < 224)) by div_mod_lia.
    unfold JS.is_continuation. rewrite !(bool_decide_eq_true_2 (128 ≤ _ ≤ 191)) by div_mod_lia; cbn [andb].
    bits_to_arith. rewrite (lor_mul_add 6 _ _ 64) by (done || div_mod_lia).
    replace (_ * 64 + _) with cp by div_mod_lia.
    by rewrite scalar_from_scalar by (done || lia).
  - rewrite (bool_decide_eq_false_2 (0 ≤ _ < 128)) by div_mod_lia.
    rewrite (bool_decide_eq_false_2 (192 ≤ _ < 224)) by div_mod_lia.
    rewrite (bool_decide_eq_true_2 (224 ≤ _ < 240)) by div_mod_lia.
    unfold JS.is_continuation. rewrite !(bool_decide_eq_true_2 (128 ≤ _ ≤ 191)) by div_mod_lia; cbn [andb].
    bits_to_arith. rewrite (lor_mul_add 6 _ _ 64) by (done || div_mod_lia).
    rewrite (lor_mul_add 12 _ _ 4096) by (done || div_mod_lia).
    replace (_ * 4096 + _) with cp by div_mod_lia.
    by rewrite scalar_from_scalar by (done || lia).
  - rewrite (bool_decide_eq_false_2 (0 ≤ _ < 128)) by div_mod_lia.
    rewrite (bool_decide_eq_false_2 (192 ≤ _ < 224)) by div_mod_lia.
    rewrite (bool_decide_eq_false_2 (224 ≤ _ < 240)) by div_mod_lia.
    rewrite (bool_decide_eq_true_2 (240 ≤ _ < 248)) by div_mod_lia.
    unfold JS.is_continuation. rewrite !(bool_decide_eq_true_2 (128 ≤ _ ≤ 191)) by div_mod_lia; cbn [andb].
    bits_to_arith. rewrite (lor_mul_add 6 _ _ 64) by (done || div_mod_lia).
    rewrite (lor_mul_add 12 _ _ 4096) by (done || div_mod_lia).
    rewrite (lor_mul_add 18 _ _ 262144) by (done || div_mod_lia).
    replace (_ * 262144 + _) with cp by div_mod_lia.
    by rewrite scalar_from_scalar by (done || lia).
Qed.

(** ** UTF-16 *)

Lemma String_iterator_items s :
  wf_string s → Forall iterator_item (JS.String_iterator s).
Proof.
  induction s as [s IH] using (induction_ltof1 _ length). unfold ltof in IH.
  intros Hwf. destruct s as [|c [|d s]]; [by constructor| |].
  - apply Forall_cons_1 in Hwf as [Hc _]. apply Forall_singleton. left. eauto.
  - apply Forall_cons_1 in Hwf as [Hc Hwf]. rewrite String_iterator_cons.
    destruct (_ && _) eqn:Hpair; constructor.
    + apply andb_true_iff in Hpair as [Hhigh Hlow].
      apply bool_decide_eq_true in Hhigh, Hlow. right. eauto 6.
    + apply IH; [simpl; lia|]. by apply Forall_cons_1 in Hwf as [_ ?].
    + left. eauto.
    + apply IH; [simpl; lia | done].
Qed.

Lemma concat_String_iterator s : concat (JS.String_iterator s) = s.
Proof.
  induction s as [s IH] using (induction_ltof1 _ length). unfold ltof in IH.
  destruct s as [|c [|d s]]; [done..|]. rewrite String_iterator_cons.
  destruct (_ && _); cbn [concat app]; rewrite IH by (simpl; lia); done.
Qed.

Lemma iterator_item_codePoint item :
  iterator_item item →
  0 ≤ JS.codePoint item ≤ 0x10FFFF
  ∧ JS.utf16_units (JS.codePoint item) = item
  ∧ (head item = Some (JS.codePoint item) ∨ 0x10000 ≤ JS.codePoint item)
  ∧ (JS.is_surrogate (JS.codePoint item) = true →
     ∃ u, item = [u] ∧ JS.is_surrogate u = true).
Proof.
  intros [(c & -> & Hc)|(c & d & -> & Hc & Hd)]; unfold JS.utf16_units; simpl.
  - unfold code_unit in Hc. rewrite bool_decide_eq_true_2 by lia.
    split; [lia|]. split; [done|]. split; [by left|]. eauto.
  - rewrite bool_decide_eq_false_2 by lia. bits_to_arith.
    split; [lia|]. split; [|split; [right; lia|]].
    + f_equal; [|f_equal]; div_mod_lia.
    + unfold JS.is_surrogate. intros H%bool_decide_eq_true. lia.
Qed.

Lemma iterator_item_scalar item :
  iterator_item item → JS.is_surrogate (JS.codePoint item) = false →
  scalar_value (JS.codePoint item).
Proof.
  intros Hitem Hsur.
  destruct (iterator_item_codePoint item Hitem) as (Hcp & _). split; [done|].
  unfold JS.is_surrogate in Hsur. by apply bool_decide_eq_false in Hsur.
Qed.

Lemma code_points_units s :
  wf_string s → (JS.codePoint <$> JS.String_iterator s) ≫= JS.utf16_units = s.
Proof.
  intros Hwf%String_iterator_items. rewrite <- (concat_String_iterator s) at 2.
  induction Hwf as [|item items Hitem _ IH]; [done|].
  rewrite fmap_cons, bind_cons, IH. simpl.
  by destruct (iterator_item_codePoint item Hitem) as (_ & -> & _).
Qed.

Lemma code_points_scalar s :
  wf_string s → unicode s →
  Forall scalar_value (JS.codePoint <$> JS.String_iterator s).
Proof.
  intros Hwf%String_iterator_items Hs. apply Forall_fmap.
  unfold unicode in Hs. induction Hwf as [|item items Hitem _ IH]; [done|].
  apply Forall_cons_1 in Hs as [Hsur Hs].
  constructor; [by apply iterator_item_scalar | by apply IH].
Qed.

Lemma unicode_existsb s :
  unicode s ↔
  existsb JS.is_surrogate (JS.codePoint <$> JS.String_iterator s) = false.
Proof.
  unfold unicode. induction (JS.String_iterator s) as [|item items IH]; [done|].
  rewrite Forall_cons, fmap_cons. simpl. rewrite orb_false_iff. by rewrite IH.
Qed.

(** A string that is not well-formed Unicode holds a surrogate. *)
Lemma lone_surrogate s :
  wf_string s → ¬ unicode s → ∃ u, u ∈ s ∧ JS.is_surrogate u = true.
Proof.
  intros Hwf%String_iterator_items Hs. unfold unicode in Hs.
  rewrite <- (concat_String_iterator s).
  induction Hwf as [|item items Hitem _ IH]; [by destruct Hs|].
  destruct (JS.is_surrogate (JS.codePoint item)) eqn:Hsur.
  - destruct (iterator_item_codePoint item Hitem) as (_ & _ & _ & Hlone).
    destruct (Hlone Hsur) as (u & -> & Hu). exists u. split; [|done].
    simpl. by left.
  - destruct IH as (u & Hu & Hsu).
    + intros Hitems. apply Hs. by constructor.
    + exists u. split; [|done]. simpl. apply elem_of_app. by right.
Qed.

(** ** UTF-8 and back *)

Lemma TextEncoder_encode_byte s :
  wf_string s → Forall byte (JS.TextEncoder_encode s).
Proof.
  intros Hwf%String_iterator_items. unfold JS.TextEncoder_encode.
  apply Forall_bind. eapply Forall_impl; [exact Hwf|]. intros item Hitem.
  cbv zeta. apply utf8_bytes_byte.
  destruct (iterator_item_codePoint item Hitem) as (Hcp & _).
  destruct (JS.is_surrogate _); lia.
Qed.

Lemma TextEncoder_encode_unicode s :
  unicode s →
  JS.TextEncoder_encode s
  = (JS.codePoint <$> JS.String_iterator s) ≫= JS.utf8_bytes.
Proof.
  unfold unicode, JS.TextEncoder_encode.
  induction 1 as [|item items Hitem _ IH]; [done|].
  rewrite fmap_cons, !bind_cons, IH. cbv zeta. by rewrite Hitem.
Qed.

Lemma utf8_run_code_points cps :
  Forall scalar_value cps →
  JS.utf8_run JS.utf8_decoder_initial (cps ≫= JS.utf8_bytes) = cps.
Proof.
  induction 1 as [|cp cps Hcp _ IH]; [done|].
  by rewrite bind_cons, utf8_run_scalar, IH.
Qed.

Lemma utf8_decode_strict_code_points cps :
  Forall scalar_value cps →
  JS.utf8_decode_strict (cps ≫= JS.utf8_bytes) = Some cps.
Proof.
  induction 1 as [|cp cps Hcp _ IH]; [done|].
  by rewrite bind_cons, utf8_decode_strict_scalar, IH.
Qed.

Lemma TextDecoder_TextEncoder s :
  wf_string s → unicode s → head s ≠ Some 0xFEFF →
  JS.TextDecoder_decode (JS.TextEncoder_encode s) = s.
Proof.
  intros Hwf Hs Hbom. rewrite TextEncoder_encode_unicode by done.
  unfold JS.TextDecoder_decode.
  rewrite utf8_run_code_points by (by apply code_points_scalar).
  pose proof (code_points_units s Hwf) as Hunits.
  pose proof (String_iterator_items s Hwf) as Hitems.
  rewrite <- (concat_String_iterator s) in Hbom.
  destruct (JS.String_iterator s) as [|item items]; [done|].
  apply Forall_cons_1 in Hitems as [Hitem _].
  rewrite fmap_cons in *. cbv zeta. rewrite bool_decide_eq_false_2; [done|].
  intros Hcp.
  destruct (iterator_item_codePoint item Hitem) as (_ & _ & [Hhead|?] & _);
    [|lia].
  apply Hbom. rewrite <- Hcp, <- Hhead. by destruct item.
Qed.

Lemma decodeURIComponent_encodeURIComponent s :
  wf_string s → unicode s →
  ∃ bytes,
    JS.unescape_encodeURIComponent s = Normal bytes
    ∧ Forall byte bytes
    ∧ JS.decodeURIComponent_escape bytes = Normal s.
Proof.
  intros Hwf Hs. exists (JS.TextEncoder_encode s).
  split; [|split; [by apply TextEncoder_encode_byte|]].
  - unfold JS.unescape_encodeURIComponent. cbv zeta.
    apply unicode_existsb in Hs as Hex. rewrite Hex.
    by rewrite TextEncoder_encode_unicode.
  - rewrite TextEncoder_encode_unicode by done.
    unfold JS.decodeURIComponent_escape.
    rewrite utf8_decode_strict_code_points by (by apply code_points_scalar).
    by rewrite code_points_units.
Qed.

Lemma encodeURIComponent_lone_surrogate s :
  ¬ unicode s → JS.unescape_encodeURIComponent s = Throw URIError.
Proof.
  rewrite unicode_existsb. unfold JS.unescape_encodeURIComponent. cbv zeta.
  by destruct (existsb _ _).
Qed.

Lemma TextEncoder_encode_nonempty s : s ≠ [] → JS.TextEncoder_encode s ≠ [].
Proof.
  intros Hne Hnil. unfold JS.TextEncoder_encode in Hnil.
  destruct (JS.String_iterator s) as [|item items] eqn:Hitems.
  { by apply String_iterator_nil in Hitems. }
  rewrite bind_cons in Hnil. apply app_eq_nil in Hnil as [Hnil _].
  cbv zeta in Hnil. unfold JS.utf8_bytes in Hnil.
  repeat case_bool_decide; done.
Qed.

(** Bytes are well-formed Unicode and do not start with a byte order
    mark. *)
Lemma byte_unicode s :
  Forall byte s → wf_string s ∧ unicode s ∧ head s ≠ Some 0xFEFF.
Proof.
  intros Hs. assert (Hwf : wf_string s).
  { eapply Forall_impl; [exact Hs|]. unfold byte, code_unit. intros; lia. }
  split; [done|]. split.
  - destruct (decide (unicode s)) as [|Hn]; [done|].
    destruct (lone_surrogate s Hwf Hn) as (u & Hu & Hsur).
    rewrite Forall_forall in Hs. apply Hs in Hu. unfold byte in Hu.
    unfold JS.is_surrogate in Hsur. apply bool_decide_eq_true in Hsur. lia.
  - destruct Hs as [|c s Hc _]; [done|]. simpl. intros [= ->]. unfold byte in Hc. lia.
Qed.

(** ** Variants that write Base64 *)

Lemma lxor_byte_involution b k :
  byte b → Z.lxor (Z.lxor b k `mod` 256) k `mod` 256 = b.
Proof.
  intros Hb. change 256 with (2 ^ 8). rewrite <- !Z.land_ones by lia.
  rewrite <- (Z.mod_small b (2 ^ 8)) at 2 by exact Hb.
  rewrite <- Z.land_ones by lia.
  apply Z.bits_inj'. intros i Hi.
  rewrite !Z.land_spec, !Z.lxor_spec, Z.land_spec, Z.lxor_spec.
  destruct (Z.testbit b i), (Z.testbit k i), (Z.testbit (Z.ones 8) i); done.
Qed.

Lemma base64ToArrayBuffer_bytes e s :
  Forall byte s → JS.atob e = Normal s →
  Tughra._base64ToArrayBuffer e = Normal s.
Proof.
  intros Hs He. unfold Tughra._base64ToArrayBuffer. rewrite He. simpl. f_equal.
  rewrite <- (list_fmap_id s) at 2. apply Forall_fmap_ext.
  eapply Forall_impl; [exact Hs|]. intros c Hc. by apply Z.mod_small.
Qed.

Lemma Vigenere_inverse this text :
  Forall byte (Tughra.encryptionKey this) → Tughra.encryptionKey this ≠ [] →
  wf_string text → unicode text → head text ≠ Some 0xFEFF →
  ∃ e, Tughra._vigenereEncrypt this text = Normal e
       ∧ Forall byte e
       ∧ Tughra._vigenereDecrypt this e = Normal text.
Proof.
  intros Hkey Hne Hwf Hs Hbom.
  unfold Tughra._vigenereEncrypt, Tughra._vigenereDecrypt,
    Tughra._arrayBufferToBase64. cbv zeta.
  set (key := Tughra.encryptionKey this) in *.
  set (encryptedBytes := imap _ (JS.TextEncoder_encode text)).
  pose proof (TextEncoder_encode_byte text Hwf) as Hbytes.
  assert (Hk : ∀ i, ∃ k, key !! (i `mod` length key)%nat = Some k ∧ byte k).
  { intros i. destruct (lookup_lt_is_Some_2 key (i `mod` length key)%nat) as [k Hk].
    - apply Nat.mod_upper_bound. by destruct key.
    - exists k. split; [done|]. by eapply (Forall_lookup_1 _ _ _ _ Hkey). }
  assert (Henc : Forall byte encryptedBytes).
  { apply Forall_lookup. intros i x. unfold encryptedBytes.
    rewrite list_lookup_imap_Some. intros (b & Hb & ->).
    destruct (Hk i) as (k & -> & Hkb).
    apply (Forall_lookup_1 _ _ _ _ Hbytes) in Hb. unfold byte in *.
    div_mod_lia. }
  destruct (atob_btoa encryptedBytes Henc) as (e & He & Hbe & Hback).
  exists e. split; [done|]. split; [done|].
  rewrite (base64ToArrayBuffer_bytes e encryptedBytes) by done. simpl. f_equal.
  trans (JS.TextDecoder_decode (JS.TextEncoder_encode text));
    [|by apply TextDecoder_TextEncoder].
  f_equal.
  apply list_eq. intros i. unfold encryptedBytes. rewrite !list_lookup_imap.
  destruct (JS.TextEncoder_encode text !! i) as [b|] eqn:Hb; [|done].
  simpl. f_equal. destruct (Hk i) as (k & -> & Hkb).
  apply (Forall_lookup_1 _ _ _ _ Hbytes) in Hb. unfold byte in *.
  div_mod_lia.
Qed.

(** The bytes of [_xorEncrypt] go through one call of
    [String.fromCharCode], which leaves them as they are when the engine
    takes so many arguments and throws otherwise. *)
Lemma xorEncrypt_spread {host : Host} this text :
  wf_string text →
  ∃ encryptedBytes,
    length encryptedBytes = length (JS.TextEncoder_encode text)
    ∧ Forall byte encryptedBytes
    ∧ encryptedBytes
      = imap (λ i byte,
          Z.lxor byte
            (default 0
               (JS.TextEncoder_encode
                  (JS.Uint8Array_toString (Tughra.encryptionKey this))
                !! (i `mod` length
                      (JS.TextEncoder_encode
                         (JS.Uint8Array_toString
                            (Tughra.encryptionKey this))))%nat))
          `mod` 256) (JS.TextEncoder_encode text)
    ∧ Tughra._xorEncrypt this text
      = if bool_decide
             (Z.of_nat (length (JS.TextEncoder_encode text)) ≤ max_arguments)
        then JS.btoa encryptedBytes else Throw RangeError.
Proof.
  intros Hwf. unfold Tughra._xorEncrypt. cbv zeta.
  set (encryptedBytes := imap _ (JS.TextEncoder_encode text)).
  assert (Henc : Forall byte encryptedBytes).
  { apply Forall_lookup. intros i x. unfold encryptedBytes.
    rewrite list_lookup_imap_Some. intros (b & Hb & ->).
    unfold byte. by apply Z.mod_pos_bound. }
  exists encryptedBytes. split; [apply length_imap|]. split; [done|].
  split; [done|].
  assert (Hlen : length encryptedBytes = length (JS.TextEncoder_encode text))
    by apply length_imap.
  assert (JS.fromCharCode <$> encryptedBytes = encryptedBytes) as Hid.
  { rewrite <- (list_fmap_id encryptedBytes) at 2. apply Forall_fmap_ext.
    eapply Forall_impl; [exact Henc|]. intros c Hc. simpl.
    apply fromCharCode_id. unfold byte, code_unit in *. lia. }
  unfold JS.fromCharCode_spread. rewrite Hlen, Hid.
  by case_bool_decide.
Qed.

Lemma Xor_inverse {host : Host} this text :
  wf_string text → unicode text → head text ≠ Some 0xFEFF →
  Z.of_nat (length (JS.TextEncoder_encode text)) ≤ max_arguments →
  ∃ e, Tughra._xorEncrypt this text = Normal e
       ∧ Forall byte e
       ∧ Tughra._xorDecrypt this e = Normal text.
Proof.
  intros Hwf Hs Hbom Hlen.
  destruct (xorEncrypt_spread this text Hwf)
    as (encryptedBytes & _ & Henc & Hbytes' & ->).
  rewrite bool_decide_eq_true_2 by done.
  unfold Tughra._xorDecrypt. cbv zeta.
  pose proof (TextEncoder_encode_byte text Hwf) as Hbytes.
  destruct (atob_btoa encryptedBytes Henc) as (e & He & Hbe & Hback).
  exists e. split; [done|]. split; [done|]. rewrite Hback. simpl. f_equal.
  trans (JS.TextDecoder_decode (JS.TextEncoder_encode text));
    [|by apply TextDecoder_TextEncoder].
  f_equal.
  apply list_eq. intros i. rewrite Hbytes'.
  rewrite list_lookup_fmap, !list_lookup_imap.
  destruct (JS.TextEncoder_encode text !! i) as [b|] eqn:Hb; [|done].
  simpl. f_equal. apply lxor_byte_involution.
  by apply (Forall_lookup_1 _ _ _ _ Hbytes) in Hb.
Qed.

(** ** The base encoding around the cycles *)

Lemma bind_Normal {A B} (f : A → completion B) (x : A) : Normal x ≫= f = f x.
Proof. reflexivity. Qed.

Lemma mapM_Normal_or_Throw {A B} (f : A → completion B) (l : list A) :
  (∀ x, f x ≠ Diverge) → mapM f l ≠ Diverge.
Proof.
  intros Hf. induction l as [|x l IH]; [done|]. simpl.
  specialize (Hf x). destruct (f x); [|done..]. simpl.
  by destruct (mapM f l).
Qed.

(** [fromBase] always returns: what the codec throws is caught. *)
Lemma fromBase_returns this alphabet text :
  Tughra.baseLibrary this = Tughra.baseEncodeDecode alphabet →
  ∃ decoded, Tughra.fromBase this text = Normal decoded.
Proof.
  intros Hlib. unfold Tughra.fromBase. destruct text as [|c text]; [by eexists|].
  rewrite Hlib, decode_eq.
  pose proof (mapM_Normal_or_Throw (λ c,
    match JS.indexOf alphabet c with
    | None => Throw (Error "Invalid Base character")
    | Some index =>
        Normal (JS.padStart (Tughra.ceil_log (length alphabet)) 48
                  (JS.Number_toString 2 (Z.of_nat index)))
    end) (c :: text)) as Hpieces.
  destruct (mapM _ (c :: text)) as [pieces|e|]; simpl.
  - unfold JS.decodeURIComponent_escape.
    destruct (JS.utf8_decode_strict _); simpl; by eexists.
  - by eexists.
  - destruct Hpieces; [|done]. intros x. by destruct (JS.indexOf alphabet x).
Qed.

(** [toBase] always returns too: what [encodeURIComponent] or the codec
    throws is caught. *)
Lemma toBase_returns this alphabet text :
  Tughra.baseLibrary this = Tughra.baseEncodeDecode alphabet →
  ∃ encoded, Tughra.toBase this text = Normal encoded.
Proof.
  intros Hlib. unfold Tughra.toBase. destruct text as [|c text]; [by eexists|].
  rewrite Hlib. destruct (JS.unescape_encodeURIComponent (c :: text))
    as [bytes|e|] eqn:Hbytes; cbn [mbind completion_bind try_catch].
  - destruct (Tughra.encode (Tughra.baseEncodeDecode alphabet) bytes)
      as [symbols|e|] eqn:Hencode; [by eexists..|].
    cbn [Tughra.encode Tughra.baseEncodeDecode] in Hencode.
    destruct (Tughra.ceil_log (length alphabet)), (mbind _ bytes); done.
  - by eexists.
  - unfold JS.unescape_encodeURIComponent in Hbytes.
    by destruct (existsb _ _).
Qed.

(** With an alphabet of one symbol the chunks have no bits: [encode]
    throws, [toBase] catches, and the ciphertext comes back unencoded. *)
Example one_symbol_alphabet {host : Host} :
  Tughra.encode (Tughra.baseEncodeDecode (js "x")) (js "A") = Throw RangeError
  ∧ (this ← Tughra.constructor "encrypt" (js "x") "default" (js "abc") true;
     Tughra.process this (js "A") 1) = Normal [65 + 97].
Proof. split; reflexivity. Qed.

Lemma fromBase_toBase (enc dec : Tughra.t) alphabet text :
  Tughra.baseLibrary enc = Tughra.baseEncodeDecode alphabet →
  Tughra.baseLibrary dec = Tughra.baseEncodeDecode alphabet →
  codec_domain alphabet → wf_string text →
  ∃ symbols, Tughra.toBase enc text = Normal symbols
             ∧ Tughra.fromBase dec symbols = Normal text.
Proof.
  intros Henc Hdec (Hnodup & [Hsize Haddr]%ceil_log_addressable & Halpha) Hwf.
  destruct (decide (text = [])) as [->|Hne]; [by exists []|].
  unfold Tughra.toBase, Tughra.fromBase. rewrite Henc, Hdec.
  destruct text as [|u text']; [done|]. set (text := u :: text') in *.
  destruct (decide (unicode text)) as [Hs|Hs].
  - destruct (decodeURIComponent_encodeURIComponent text Hwf Hs)
      as (bytes & -> & Hbytes & Hback).
    destruct (encode_decode alphabet Hnodup Hsize Haddr bytes Hbytes)
      as (symbols & Hsym & Hdecode).
    exists symbols. rewrite bind_Normal, Hsym. split; [done|].
    destruct symbols as [|c symbols'].
    { injection Hdecode as <-. by vm_compute in Hback. }
    rewrite Hdecode, bind_Normal. by rewrite Hback.
  - exists text. rewrite encodeURIComponent_lone_surrogate by done.
    split; [done|].
    destruct (lone_surrogate text Hwf Hs) as (s & Hin & Hsur).
    rewrite (decode_invalid_symbol alphabet text s); [done..|].
    intros Hs'. rewrite Forall_forall in Halpha. apply Halpha in Hs'. congruence.
Qed.

(** ** One cycle and its inverse *)

Lemma constructor_inv mode charset algorithm key ub this :
  Tughra.constructor mode charset algorithm key ub = Normal this →
  this = Tughra.Build_t
    (concat (first_occurrences (JS.String_iterator key)))
    (if String.eqb mode "" then "encrypt" else mode)
    ub
    (match charset with [] => Tughra.default_baseCharset | _ => charset end)
    (Tughra.baseEncodeDecode
       (match charset with [] => Tughra.default_baseCharset | _ => charset end))
    (JS.TextEncoder_encode key)
    (if String.eqb algorithm "" then "default" else algorithm)
    (Object_fromEntries Tughra.substitution_entries)
    (Object_fromEntries ((λ kv, (kv.2, kv.1)) <$> Tughra.substitution_entries))
    5 8 26.
Proof.
  rewrite constructor_eq. cbv zeta. destruct (_ && _); [done|].
  destruct (negb _); [|by intros [= <-]].
  unfold Tughra.checkKeyStrength. case_bool_decide; [done|]. by intros [= <-].
Qed.

Lemma switch_empty algorithm :
  Tughra.switch (if String.eqb algorithm "" then "default" else algorithm)
  = Tughra.switch algorithm.
Proof. by destruct (String.eqb_spec algorithm "") as [->|]. Qed.

Lemma process_encrypt {host : Host} this text n :
  Tughra.mode this = "encrypt"%string →
  Tughra.process this text n
  = (resultText ←
       for_loop
         (Z.to_nat (if String.eqb (Tughra.algorithm this) "xor"
                       || String.eqb (Tughra.algorithm this) "ROT47"
                       || String.eqb (Tughra.algorithm this) "ROT13"
                    then 1 else n))
         (λ r, Tughra._processCycle this r "encrypt") text;
     if Tughra.useBaseEncoding this then Tughra.toBase this resultText
     else Normal resultText).
Proof.
  intros Hmode. unfold Tughra.process. rewrite Hmode.
  change (String.eqb "encrypt" "decrypt") with false.
  change (String.eqb "encrypt" "encrypt") with true.
  by rewrite andb_false_r, andb_true_r.
Qed.

Lemma process_decrypt {host : Host} this text n :
  Tughra.mode this = "decrypt"%string →
  Tughra.process this text n
  = (text ← (if Tughra.useBaseEncoding this then Tughra.fromBase this text
             else Normal text);
     for_loop
       (Z.to_nat (if String.eqb (Tughra.algorithm this) "xor"
                     || String.eqb (Tughra.algorithm this) "ROT47"
                     || String.eqb (Tughra.algorithm this) "ROT13"
                  then 1 else n))
       (λ r, Tughra._processCycle this r "decrypt") text).
Proof.
  intros Hmode. unfold Tughra.process. rewrite Hmode.
  change (String.eqb "decrypt" "decrypt") with true.
  change (String.eqb "decrypt" "encrypt") with false.
  rewrite andb_false_r, andb_true_r.
  destruct (if Tughra.useBaseEncoding this then _ else _) as [t| |];
    [|done..].
  rewrite !bind_Normal. by destruct (for_loop _ _ _).
Qed.

Lemma process_cycles_only {host : Host} this text n :
  Tughra.useBaseEncoding this = false →
  Tughra.process this text n
  = for_loop
      (Z.to_nat (if String.eqb (Tughra.algorithm this) "xor"
                    || String.eqb (Tughra.algorithm this) "ROT47"
                    || String.eqb (Tughra.algorithm this) "ROT13"
                 then 1 else n))
      (λ r, Tughra._processCycle this r (Tughra.mode this)) text.
Proof.
  intros Hub. unfold Tughra.process. rewrite Hub. simpl.
  by destruct (for_loop _ _ _).
Qed.

Lemma switch_Xor algorithm :
  Tughra.switch algorithm = Tughra.Xor → algorithm = "xor"%string.
Proof.
  unfold Tughra.switch.
  destruct (list_find _ Tughra.cases) as [[i [name v]]|] eqn:Hfind; [|done].
  intros ->. apply list_find_Some in Hfind as (Hi & Hname & _).
  simpl in Hname. subst name.
  do 19 (destruct i as [|i]; [by injection Hi|]). done.
Qed.

Section cycle.
Context {host : Host}.
Variable this : Tughra.t.
Hypothesis key_nonempty : Tughra.keyOffsets this ≠ [].
Hypothesis key_bytes : Forall byte (Tughra.encryptionKey this).
Hypothesis key_strength :
  Tughra.switch (Tughra.algorithm this) = Tughra.Vigenere →
  Tughra.encryptionKey this ≠ [].
Hypothesis table :
  Tughra.substitutionKey this = Object_fromEntries Tughra.substitution_entries.
Hypothesis reverse_table :
  Tughra.reverseSubstitutionKey this
  = Object_fromEntries ((λ kv, (kv.2, kv.1)) <$> Tughra.substitution_entries).
Hypothesis affine_a : Tughra.a this = 5.
Hypothesis affine_b : Tughra.b this = 8.
Hypothesis affine_m : Tughra.m this = 26.

(** One cycle of encryption and one of decryption; what 'xor' writes may
    be longer than the text, and it runs one cycle only. *)
Lemma cycle_step x :
  wf_string x ∧ cycle_law_domain (Tughra.switch (Tughra.algorithm this)) x →
  ∃ y, Tughra._processCycle this x "encrypt" = Normal y
       ∧ (wf_string y
          ∧ (Tughra.algorithm this ≠ "xor"%string →
             cycle_law_domain (Tughra.switch (Tughra.algorithm this)) y))
       ∧ Tughra._processCycle this y "decrypt" = Normal x.
Proof.
  intros [Hwf Hdom]. unfold Tughra._processCycle.
  change (String.eqb "encrypt" "encrypt") with true.
  change (String.eqb "decrypt" "encrypt") with false.
  destruct (Tughra.switch (Tughra.algorithm this)) eqn:Hv; simpl in Hdom;
    try done; cbv beta iota zeta.
  - eexists. split; [reflexivity|]. split; [split; [apply shift_wf|done]|].
    f_equal. by apply shift_inverse.
  - destruct Hdom as [Hs Hbom].
    destruct (Vigenere_inverse this x) as (e & He & Hbe & Hback);
      [done | by apply key_strength | done..|].
    destruct (byte_unicode e Hbe) as (? & ? & ?). by exists e.
  - destruct Hdom as (Hs & Hbom & Hlen).
    destruct (Xor_inverse this x) as (e & He & Hbe & Hback); [done..|].
    destruct (byte_unicode e Hbe) as (? & ? & ?). exists e.
    split; [done|]. split; [|done]. split; [done|].
    intros Hne. by apply switch_Xor in Hv.
  - eexists. split; [reflexivity|]. split; [split; [|done]|].
    + unfold Tughra._encryptSubstitution. rewrite table.
      apply substitution_wf; [by vm_compute | done].
    + f_equal. by apply Substitution_inverse.
  - destruct (atob_btoa x Hdom) as (e & He & Hbe & Hback).
    destruct (byte_unicode e Hbe) as (? & _). by exists e.
  - eexists. split; [reflexivity|]. split; [split; [apply shift_wf|done]|].
    f_equal. by apply shift_inverse.
  - eexists. split; [reflexivity|]. split; [split; [|done]|].
    + by apply replace_wf; [intros; apply fromCharCode_code_unit|].
    + f_equal. by apply Affine_inverse.
  - eexists. split; [reflexivity|]. split; [split; [apply shift_wf|done]|].
    f_equal. by apply shift_inverse.
  - destruct (Numeric_encrypt_domain x Hdom Hwf) as [Hne Hwf'].
    eexists. split; [reflexivity|]. split; [done|].
    f_equal. by apply Numeric_inverse.
  - eexists. split; [reflexivity|]. split; [split; [|done]|].
    + by apply replace_wf; [intros; apply fromCharCode_code_unit|].
    + f_equal. apply ROT13_involution.
  - eexists. split; [reflexivity|]. split; [split; [|done]|].
    + by apply replace_wf; [intros; apply fromCharCode_code_unit|].
    + f_equal. apply ROT18_inverse.
  - eexists. split; [reflexivity|]. split; [split; [|done]|].
    + by apply replace_wf; [intros; apply fromCharCode_code_unit|].
    + f_equal. apply ROT25_inverse.
  - eexists. split; [reflexivity|]. split; [split; [|done]|].
    + by apply replace_wf; [intros; apply fromCharCode_code_unit|].
    + f_equal. apply ROT30_inverse.
  - eexists. split; [reflexivity|]. split; [split; [apply XORPro_wf|done]|].
    f_equal. by apply XORPro_involution.
  - eexists. split; [reflexivity|]. split; [split; [|done]|].
    + apply (replace_wf Tughra.is_letter); [|done]. intros c.
      destruct (rem_num _ _); [apply fromCharCode_code_unit | done].
    + by apply AffinePro_inverse.
  - eexists. split; [reflexivity|]. split; [split; [|done]|].
    + unfold Tughra._encryptSubstitutionPro. rewrite table.
      apply substitution_wf; [by vm_compute | done].
    + f_equal. by apply Substitution_inverse.
  - eexists. split; [reflexivity|]. split; [split; [|done]|].
    + by apply TughraEncrypt_wf.
    + f_equal. by apply TughraDecrypt_Encrypt.
Qed.
End cycle.

(** The default alphabet is one the base encoding round-trips with. *)
Lemma default_baseCharset_codec_domain : codec_domain Tughra.default_baseCharset.
Proof.
  split; [|split].
  - apply (bool_decide_unpack _). by vm_compute.
  - right. change (length Tughra.default_baseCharset) with 65%nat. lia.
  - apply (bool_decide_unpack _). by vm_compute.
Qed.

(** Outside these texts and alphabets the cycle is lost: [TextDecoder]
    drops a leading U+FEFF and [TextEncoder] writes U+FFFD for a lone
    surrogate, so 'vigenere' and 'xor' do not give them back; and when the
    alphabet holds surrogates, a ciphertext that is a lone surrogate is
    left unencoded by [toBase] and then decoded by [fromBase]. *)
Example cycle_law_conditions :
  (enc ← Tughra.constructor "encrypt" [] "vigenere" (js "abcdefgh") false;
   dec ← Tughra.constructor "decrypt" [] "vigenere" (js "abcdefgh") false;
   ciphertext ← Tughra.process (host := example_host) enc [0xFEFF; 65] 1;
   Tughra.process (host := example_host) dec ciphertext 1) = Normal [65]
  ∧ (enc ← Tughra.constructor "encrypt" [] "xor" (js "abcdefgh") false;
     dec ← Tughra.constructor "decrypt" [] "xor" (js "abcdefgh") false;
     ciphertext ← Tughra.process (host := example_host) enc [0xD800; 65] 1;
     Tughra.process (host := example_host) dec ciphertext 1) = Normal [0xFFFD; 65]
  ∧ (enc ← Tughra.constructor "encrypt" [0xD800; 0xD801; 0xD802; 0xD803]
              "default" (js "abcdefgh") true;
     dec ← Tughra.constructor "decrypt" [0xD800; 0xD801; 0xD802; 0xD803]
              "default" (js "abcdefgh") true;
     ciphertext ← Tughra.process (host := example_host) enc [0xD7A0] 1;
     Tughra.process (host := example_host) dec ciphertext 1) = Normal [].
Proof. repeat split; by vm_compute. Qed.

(** C1, amended. For a configuration the constructor accepts and a key
    and a text of UTF-16 code units, [n] cycles of decryption undo [n]
    cycles of encryption, [process(process(t, n, encrypt), n, decrypt) == t],
    for the default variant (and any identifier the [switch] does not
    know), 'caesar', 'ASCII', 'Unicode Shift', 'ROT13', 'ROT18', 'ROT25',
    'ROT30', 'Affine', 'Affine Pro', 'Substitution', 'Substitution Pro' and
    'XOR Pro' on every text; for 'Numeric' on every text that is not empty;
    for 'Base64' on every text whose units are below 256; for 'vigenere'
    and 'xor' on every text without a lone surrogate that does not start
    with U+FEFF, which for 'xor' has no more bytes in UTF-8 than a call
    takes arguments on the host. With base encoding on, the same holds
    when the alphabet has distinct symbols, none of them a surrogate, and
    its size is 2 or from 4 to 2980. *)
Theorem cycle_law {host : Host} (charset key text : jsstring)
    (algorithm : string) (useBaseEncoding : bool) (n : Z)
    (enc dec : Tughra.t) :
  Tughra.constructor "encrypt" charset algorithm key useBaseEncoding
  = Normal enc →
  Tughra.constructor "decrypt" charset algorithm key useBaseEncoding
  = Normal dec →
  wf_string key →
  wf_string text →
  cycle_law_domain (Tughra.switch algorithm) text →
  (useBaseEncoding = true → codec_domain (Tughra.baseCharset enc)) →
  ∃ ciphertext,
    Tughra.process enc text n = Normal ciphertext
    ∧ Tughra.process dec ciphertext n = Normal text.
Proof.
  intros Henc Hdec Hkeywf Hwf Hdom Hcodec.
  destruct (constructor_Normal _ _ _ _ _ _ Henc)
    as (_ & Hkey & _ & _ & _ & _ & Hstrength & _).
  apply constructor_inv in Henc, Hdec. simpl in Henc, Hdec.
  assert (Hstep : ∀ r, Tughra._processCycle dec r "decrypt"
                       = Tughra._processCycle enc r "decrypt") by (by subst).
  assert (Hcycle : ∀ x,
    wf_string x ∧ cycle_law_domain (Tughra.switch (Tughra.algorithm enc)) x →
    ∃ y, Tughra._processCycle enc x "encrypt" = Normal y
         ∧ (wf_string y
            ∧ (Tughra.algorithm enc ≠ "xor"%string →
               cycle_law_domain (Tughra.switch (Tughra.algorithm enc)) y))
         ∧ Tughra._processCycle enc y "decrypt" = Normal x).
  { apply cycle_step; [done | | | by subst..].
    + subst enc. by apply TextEncoder_encode_byte.
    + subst enc. simpl. rewrite switch_empty. intros Hv.
      apply TextEncoder_encode_nonempty. intros ->.
      assert (algorithm ≠ "default"%string) as Hne by (by intros ->).
      apply Hstrength in Hne. simpl in Hne. lia. }
  assert (Hstart : wf_string text
    ∧ cycle_law_domain (Tughra.switch (Tughra.algorithm enc)) text).
  { split; [done|]. subst enc. simpl. by rewrite switch_empty. }
  assert (∃ y,
    for_loop
      (Z.to_nat (if String.eqb (Tughra.algorithm enc) "xor"
                    || String.eqb (Tughra.algorithm enc) "ROT47"
                    || String.eqb (Tughra.algorithm enc) "ROT13" then 1 else n))
      (λ r, Tughra._processCycle enc r "encrypt") text = Normal y
    ∧ wf_string y
    ∧ for_loop
        (Z.to_nat (if String.eqb (Tughra.algorithm enc) "xor"
                      || String.eqb (Tughra.algorithm enc) "ROT47"
                      || String.eqb (Tughra.algorithm enc) "ROT13" then 1 else n))
        (λ r, Tughra._processCycle enc r "decrypt") y = Normal text)
    as (y & Hy & Hywf & Hback).
  { destruct (String.eqb_spec (Tughra.algorithm enc) "xor") as [Hxor|Hxor].
    - destruct (Hcycle text Hstart) as (y & Hy & [Hywf _] & Hback).
      exists y.
      change (Z.to_nat (if true || _ || _ then 1 else n)) with 1%nat.
      cbn [for_loop]. by rewrite Hy, Hback.
    - destruct (for_loop_inverse
        (λ x, wf_string x
              ∧ cycle_law_domain (Tughra.switch (Tughra.algorithm enc)) x)
        (λ r, Tughra._processCycle enc r "encrypt")
        (λ r, Tughra._processCycle enc r "decrypt")) with (n := Z.to_nat
          (if false || String.eqb (Tughra.algorithm enc) "ROT47"
              || String.eqb (Tughra.algorithm enc) "ROT13" then 1 else n))
          (x := text) as (y & Hy & [Hywf _] & Hback); [|done|by exists y].
      intros x Hx. destruct (Hcycle x Hx) as (z & Hz & [Hzwf Hzdom] & Hzback).
      exists z. split; [done|]. split; [|done]. split; [done | by apply Hzdom]. }
  assert (Tughra.mode enc = "encrypt"%string) as Hmode_enc by (by subst).
  assert (Tughra.mode dec = "decrypt"%string) as Hmode_dec by (by subst).
  assert (Tughra.algorithm dec = Tughra.algorithm enc) as Halg by (by subst).
  assert (Tughra.useBaseEncoding enc = useBaseEncoding) as Hub_enc
    by (by subst).
  assert (Tughra.useBaseEncoding dec = useBaseEncoding) as Hub_dec
    by (by subst).
  rewrite <- (for_loop_ext _ _ _ _ Hstep) in Hback.
  destruct useBaseEncoding.
  - destruct (fromBase_toBase enc dec (Tughra.baseCharset enc) y)
      as (symbols & Hto & Hfrom); [by subst | by subst | by apply Hcodec | done |].
    exists symbols. rewrite process_encrypt, process_decrypt by done.
    rewrite Hub_enc, Hub_dec, Halg, Hy, bind_Normal, Hfrom, bind_Normal.
    done.
  - exists y. rewrite process_encrypt, process_decrypt by done.
    rewrite Hub_enc, Hub_dec, Halg, Hy, !bind_Normal. done.
Qed.

(** C1, as stated, fails: the 'Base64' variant passes the text to [btoa],
    which throws on a unit above 255, so a text with the euro sign has no
    ciphertext to decrypt; and the 'Numeric' variant turns the empty text
    into the empty text, which it decrypts to the one unit 0. *)
Lemma cycle_law_counterexample :
  ¬ (∃ ciphertext,
       (this ← Tughra.constructor "encrypt" [] "Base64" (js "abcdefgh") false;
        Tughra.process (host := example_host) this [0x20AC] 1) = Normal ciphertext
       ∧ (this ← Tughra.constructor "decrypt" [] "Base64" (js "abcdefgh") false;
          Tughra.process (host := example_host) this ciphertext 1) = Normal [0x20AC])
  ∧ (this ← Tughra.constructor "encrypt" [] "Numeric" (js "abcdefgh") false;
     Tughra.process (host := example_host) this [] 1) = Normal []
  ∧ (this ← Tughra.constructor "decrypt" [] "Numeric" (js "abcdefgh") false;
     Tughra.process (host := example_host) this [] 1) = Normal [0].
Proof.
  split; [|split; by vm_compute].
  intros (ciphertext & Henc & _). vm_compute in Henc. discriminate.
Qed.

(** 'xor' with base encoding on; the 13 bytes of the text are within what
    the host of the examples takes. *)
Lemma cycle_law_witness :
  ∃ enc dec,
    Tughra.constructor "encrypt" [] "xor" (js "abcdefgh") true = Normal enc
    ∧ Tughra.constructor "decrypt" [] "xor" (js "abcdefgh") true = Normal dec
    ∧ Z.of_nat (length (JS.TextEncoder_encode (js "Hello, World!")))
      ≤ max_arguments (Host := example_host)
    ∧ ∃ ciphertext,
        Tughra.process (host := example_host) enc (js "Hello, World!") 3
        = Normal ciphertext
        ∧ Tughra.process (host := example_host) dec ciphertext 3
          = Normal (js "Hello, World!").
Proof.
  eexists _, _. split; [reflexivity|]. split; [reflexivity|].
  assert (Hlen : Z.of_nat (length (JS.TextEncoder_encode (js "Hello, World!")))
                 ≤ max_arguments (Host := example_host)) by (by vm_compute).
  split; [exact Hlen|].
  eapply (cycle_law (host := example_host) [] (js "abcdefgh")
            (js "Hello, World!") "xor" true 3);
    [reflexivity | reflexivity | | | | intros _].
  - apply (bool_decide_unpack _). by vm_compute.
  - apply (bool_decide_unpack _). by vm_compute.
  - split; [|split; [done | exact Hlen]].
    apply (bool_decide_unpack _). by vm_compute.
  - exact default_baseCharset_codec_domain.
Defined.

(** ** Involutions *)

(** C3, as stated, fails: the substitution table is not its own inverse
    (two encryptions send "a" to "j", and decryption sends "a" to "k" where
    encryption sends it to "q"), and the 'xor' variant writes its
    ciphertext in Base64, so a second encryption does not undo the
    first. *)
Lemma involution_counterexample :
  (this ← Tughra.constructor "encrypt" [] "Substitution" (js "abcdefgh") false;
   Tughra.process (host := example_host) this (js "a") 2) = Normal (js "j")
  ∧ (this ← Tughra.constructor "encrypt" [] "Substitution" (js "abcdefgh") false;
     Tughra.process (host := example_host) this (js "a") 1) = Normal (js "q")
  ∧ (this ← Tughra.constructor "decrypt" [] "Substitution" (js "abcdefgh") false;
     Tughra.process (host := example_host) this (js "a") 1) = Normal (js "k")
  ∧ (this ← Tughra.constructor "encrypt" [] "xor" (js "abcdefgh") false;
     once ← Tughra._xorEncrypt (host := example_host) this (js "Hi");
     Tughra._xorEncrypt (host := example_host) this once) = Normal (js "WmEYBA==").
Proof. repeat split; by vm_compute. Qed.

(** C3, amended. On every instance the constructor returns and every
    string of code units: ROT13 decrypts by encrypting and two encryptions
    are the identity; so does 'XOR Pro' under any key; the ROT47 and Atbash
    encryptions are involutions; the substitution variants decrypt what
    they encrypt, through the reversed table; and the 'xor' variant
    decrypts what it encrypts when the text has no lone surrogate, does
    not start with U+FEFF and has no more bytes in UTF-8 than a call takes
    arguments. *)
Theorem involutive_variants {host : Host} (mode algorithm : string)
    (charset key text xorKey : jsstring) (ub : bool) (this : Tughra.t) :
  Tughra.constructor mode charset algorithm key ub = Normal this →
  wf_string text →
  (Tughra._decryptROT13 text = Tughra._encryptROT13 text
   ∧ Tughra._encryptROT13 (Tughra._encryptROT13 text) = text)
  ∧ (Tughra._decryptXORPro text xorKey = Tughra._encryptXORPro text xorKey
     ∧ Tughra._encryptXORPro (Tughra._encryptXORPro text xorKey) xorKey = text)
  ∧ Tughra._encryptROT47 (Tughra._encryptROT47 text) = text
  ∧ Tughra._encryptAtbash (Tughra._encryptAtbash text) = text
  ∧ Tughra._decryptSubstitution this (Tughra._encryptSubstitution this text)
    = text
  ∧ Tughra._decryptSubstitutionPro this
      (Tughra._encryptSubstitutionPro this text) = text
  ∧ (unicode text → head text ≠ Some 0xFEFF →
     Z.of_nat (length (JS.TextEncoder_encode text)) ≤ max_arguments →
     ∃ ciphertext,
       Tughra._xorEncrypt this text = Normal ciphertext
       ∧ Tughra._xorDecrypt this ciphertext = Normal text).
Proof.
  intros Hthis%constructor_inv Hwf.
  split; [split; [done | apply ROT13_involution]|].
  split; [split; [done | by apply XORPro_involution]|].
  split; [apply ROT47_involution|]. split; [apply Atbash_involution|].
  split; [apply Substitution_inverse; by subst|].
  split; [apply Substitution_inverse; by subst|].
  intros Hs Hbom Hlen.
  destruct (Xor_inverse this text Hwf Hs Hbom Hlen) as (e & He & _ & Hback).
  eauto.
Qed.

Lemma involutive_variants_witness :
  ∃ this,
    Tughra.constructor "encrypt" [] "ROT13" (js "abcdefgh") false = Normal this
    ∧ Tughra._encryptROT13 (Tughra._encryptROT13 (js "Hello, World!"))
      = js "Hello, World!"
    ∧ Tughra._encryptROT47 (Tughra._encryptROT47 (js "Hello, World!"))
      = js "Hello, World!".
Proof.
  eexists. split; [reflexivity|].
  assert (Hwf : wf_string (js "Hello, World!"))
    by (apply (bool_decide_unpack _); by vm_compute).
  destruct (involutive_variants (host := example_host) "encrypt" "ROT13" [] (js "abcdefgh")
              (js "Hello, World!") (js "key") false _ eq_refl Hwf)
    as ([_ H13] & _ & H47 & _).
  split; [exact H13 | exact H47].
Defined.

(** C8. With the default variant, key "abc", text "A" and one cycle,
    encryption returns the single unit 65 + 97, and decryption with the same
    key and cycle count gives "A" back; the base alphabet plays no part. *)
Theorem default_abc_A {host : Host} (charset : jsstring) :
  (this ← Tughra.constructor "encrypt" charset "default" (js "abc") false;
   Tughra.process this (js "A") 1) = Normal [65 + 97]
  ∧ (this ← Tughra.constructor "decrypt" charset "default" (js "abc") false;
     Tughra.process this [65 + 97] 1) = Normal (js "A").
Proof. split; reflexivity. Qed.

(** C10. The default variant works modulo 2^16 on code units: unit [i] of
    the ciphertext is [(c + offset) mod 65536] and decryption gives
    [(c - offset) mod 65536], where [offset] is the key unit at
    [i mod key length]; the ciphertext is again a string of code units, and
    decrypting it restores every string of code units. *)
Theorem Tughra_arithmetic_mod_65536 (this : Tughra.t) (text : jsstring) :
  Tughra.keyOffsets this ≠ [] → wf_string text →
  (∀ i c, text !! i = Some c →
     ∃ offset,
       Tughra.keyOffsets this !! (i `mod` length (Tughra.keyOffsets this))%nat
         = Some offset
       ∧ Tughra._TughraEncrypt this text !! i = Some ((c + offset) `mod` 65536)
       ∧ Tughra._TughraDecrypt this text !! i = Some ((c - offset) `mod` 65536))
  ∧ wf_string (Tughra._TughraEncrypt this text)
  ∧ Tughra._TughraDecrypt this (Tughra._TughraEncrypt this text) = text.
Proof.
  intros Hkey Hwf. split; [|split].
  - intros i c Hc. destruct (keyOffsets_lookup this Hkey i) as [o Ho].
    exists o. split; [done|].
    unfold Tughra._TughraEncrypt, Tughra._TughraDecrypt, JS.charCodeAt.
    rewrite !list_lookup_imap, Hc, Ho. done.
  - by apply TughraEncrypt_wf.
  - by apply TughraDecrypt_Encrypt.
Qed.

(** The unit 65535 under the key "abc" wraps around to 96. *)
Lemma Tughra_arithmetic_mod_65536_witness :
  ∃ this,
    Tughra.constructor "encrypt" [] "default" (js "abc") false = Normal this
    ∧ Tughra.keyOffsets this ≠ []
    ∧ wf_string [65535; 0]
    ∧ Tughra._TughraEncrypt this [65535; 0] = [96; 98]
    ∧ Tughra._TughraDecrypt this (Tughra._TughraEncrypt this [65535; 0])
      = [65535; 0].
Proof.
  eexists. split; [reflexivity|].
  assert (Hwf : wf_string [65535; 0])
    by (repeat constructor; unfold code_unit; lia).
  split; [discriminate|]. split; [exact Hwf|]. split; [reflexivity|].
  eapply Tughra_arithmetic_mod_65536; [discriminate | exact Hwf].
Defined.

(** ** The cycles of 'xor', 'ROT47' and 'ROT13' *)

(** C7. For the identifiers 'xor', 'ROT47' and 'ROT13', [process] ignores
    the cycle count it is given and calls [_processCycle] exactly once,
    after [fromBase] and before [toBase] where these apply, whatever the
    mode and whatever the outcome; so every count gives what the count 1
    gives. *)
Theorem forced_single_cycle {host : Host} (this : Tughra.t) (text : jsstring)
    (n : Z) :
  Tughra.algorithm this = "xor"%string
  ∨ Tughra.algorithm this = "ROT47"%string
  ∨ Tughra.algorithm this = "ROT13"%string →
  Tughra.process this text n
  = (text ← (if Tughra.useBaseEncoding this
                && String.eqb (Tughra.mode this) "decrypt"
             then Tughra.fromBase this text else Normal text);
     resultText ← Tughra._processCycle this text (Tughra.mode this);
     if Tughra.useBaseEncoding this && String.eqb (Tughra.mode this) "encrypt"
     then Tughra.toBase this resultText else Normal resultText)
  ∧ Tughra.process this text n = Tughra.process this text 1.
Proof.
  intros H. unfold Tughra.process.
  assert (Z.to_nat
            (if String.eqb (Tughra.algorithm this) "xor"
                || String.eqb (Tughra.algorithm this) "ROT47"
                || String.eqb (Tughra.algorithm this) "ROT13"
             then 1 else n) = 1%nat) as ->
    by (destruct H as [-> | [-> | ->]]; reflexivity).
  assert (Z.to_nat
            (if String.eqb (Tughra.algorithm this) "xor"
                || String.eqb (Tughra.algorithm this) "ROT47"
                || String.eqb (Tughra.algorithm this) "ROT13"
             then 1 else 1) = 1%nat) as ->
    by (by destruct (_ || _)).
  split; [|reflexivity].
  destruct (if Tughra.useBaseEncoding this
               && String.eqb (Tughra.mode this) "decrypt"
            then Tughra.fromBase this text else Normal text)
    as [decoded| |]; [|done..].
  rewrite !bind_Normal. cbn [for_loop].
  by destruct (Tughra._processCycle this decoded (Tughra.mode this)).
Qed.

(** Asked for two cycles of 'ROT13', [process] runs one: two would give
    the text back. *)
Lemma forced_single_cycle_witness :
  ∃ this,
    Tughra.constructor "decrypt" [] "ROT13" (js "abcdefgh") false = Normal this
    ∧ Tughra._processCycle (host := example_host) this (js "Hello") "decrypt"
      = Normal (js "Uryyb")
    ∧ Tughra.process (host := example_host) this (js "Hello") 2
      = Normal (js "Uryyb").
Proof.
  eexists. split; [reflexivity|]. split; [reflexivity|].
  lazymatch goal with
  | |- Tughra.process ?this _ _ = _ =>
      destruct (forced_single_cycle (host := example_host) this (js "Hello") 2)
        as [-> _]; [right; right|]; reflexivity
  end.
Defined.

(** ** The modular inverse on an instance *)

(** C6, as stated, fails: an instance given [a = 4] and [m = 26] encrypts
    under 'Affine Pro' and decrypts under 'Affine' without any failure. *)
Lemma modInverse_counterexample :
  ∃ enc dec,
    Tughra.constructor "encrypt" [] "Affine Pro" (js "abcdefgh") false
    = Normal enc
    ∧ Tughra.constructor "decrypt" [] "Affine" (js "abcdefgh") false
      = Normal dec
    ∧ Tughra.a (Tughra.assign_a_m enc 4 26) = 4
    ∧ Tughra.m (Tughra.assign_a_m enc 4 26) = 26
    ∧ Tughra.process (host := example_host) (Tughra.assign_a_m enc 4 26)
        (js "Hi") 1
      = Normal (js "Ko")
    ∧ Tughra.process (host := example_host) (Tughra.assign_a_m dec 4 26)
        (js "Ko") 1
      = Normal (js "Aa").
Proof.
  eexists _, _. split; [reflexivity|]. split; [reflexivity|].
  vm_compute. done.
Qed.

(** C6, amended. [_modInverse(4, 26)] is [null] and [_modInverse(5, 26)]
    is 21. The constructor always sets [a = 5] and [m = 26] and checks no
    inverse. On an instance given [a = 4] and [m = 26], it is the call of
    [_decryptAffinePro] that throws: [process] under 'Affine Pro' throws
    once a cycle runs in a mode other than 'encrypt' and returns in encrypt
    mode, and under 'Affine' it returns in every mode; with or without
    base encoding. *)
Theorem modInverse_checked_on_decrypt {host : Host} (mode algorithm : string)
    (charset key text : jsstring) (ub : bool) (n : Z) (this : Tughra.t) :
  Tughra.constructor mode charset algorithm key ub = Normal this →
  Tughra._modInverse 4 26 = None
  ∧ Tughra._modInverse 5 26 = Some 21
  ∧ (Tughra.a this = 5 ∧ Tughra.m this = 26)
  ∧ Tughra._decryptAffinePro (Tughra.assign_a_m this 4 26) text
    = Throw (Error "No modular inverse exists for the given key 'a'")
  ∧ (algorithm = "Affine Pro"%string →
     (Tughra.mode this = "encrypt"%string →
      ∃ r, Tughra.process (Tughra.assign_a_m this 4 26) text n = Normal r)
     ∧ (Tughra.mode this ≠ "encrypt"%string → 1 ≤ n →
        Tughra.process (Tughra.assign_a_m this 4 26) text n
        = Throw (Error "No modular inverse exists for the given key 'a'")))
  ∧ (algorithm = "Affine"%string →
     ∃ r, Tughra.process (Tughra.assign_a_m this 4 26) text n = Normal r).
Proof.
  intros Hthis.
  destruct (constructor_Normal _ _ _ _ _ _ Hthis)
    as (_ & _ & _ & _ & Hlib & _ & _ & Ha & _ & Hm).
  apply constructor_inv in Hthis.
  assert (H4 : Tughra._modInverse 4 26 = None) by (vm_compute; reflexivity).
  split; [exact H4|]. split; [vm_compute; reflexivity|]. split; [done|].
  set (this' := Tughra.assign_a_m this 4 26).
  assert (Hdec : ∀ s, Tughra._decryptAffinePro this' s
            = Throw (Error "No modular inverse exists for the given key 'a'")).
  { intros s. unfold Tughra._decryptAffinePro.
    change (Tughra.a this') with 4. change (Tughra.m this') with 26.
    by rewrite H4. }
  split; [apply Hdec|].
  assert (Hfrom : ∃ decoded,
    (if Tughra.useBaseEncoding this'
        && String.eqb (Tughra.mode this') "decrypt"
     then Tughra.fromBase this' text else Normal text) = Normal decoded).
  { destruct (Tughra.useBaseEncoding this'
              && String.eqb (Tughra.mode this') "decrypt"); [|by eexists].
    by apply (fromBase_returns _ (Tughra.baseCharset this)). }
  assert (Hto : ∀ r, ∃ encoded,
    (if Tughra.useBaseEncoding this'
        && String.eqb (Tughra.mode this') "encrypt"
     then Tughra.toBase this' r else Normal r) = Normal encoded).
  { intros r.
    destruct (Tughra.useBaseEncoding this'
              && String.eqb (Tughra.mode this') "encrypt"); [|by eexists].
    by apply (toBase_returns _ (Tughra.baseCharset this)). }
  destruct Hfrom as [decoded Hfrom].
  split.
  - intros ->.
    assert (Tughra.algorithm this' = "Affine Pro"%string) as Halg
      by (by subst this).
    unfold Tughra.process. rewrite Hfrom, bind_Normal, Halg.
    change (String.eqb "Affine Pro" "xor" || String.eqb "Affine Pro" "ROT47"
            || String.eqb "Affine Pro" "ROT13") with false. cbv iota.
    split.
    + intros Hmode.
      rewrite (for_loop_Normal _ (Tughra._encryptAffinePro this')).
      * rewrite bind_Normal. apply Hto.
      * intros y. unfold Tughra._processCycle. rewrite Halg.
        change (Tughra.mode this') with (Tughra.mode this). by rewrite Hmode.
    + intros Hmode Hn.
      assert (Hstep : ∀ r, Tughra._processCycle this' r (Tughra.mode this')
                = Throw (Error "No modular inverse exists for the given key 'a'")).
      { intros r. rewrite <- (Hdec r). unfold Tughra._processCycle.
        rewrite Halg. change (Tughra.mode this') with (Tughra.mode this).
        apply String.eqb_neq in Hmode. by rewrite Hmode. }
      destruct (Z.to_nat n) as [|k] eqn:Hk; [lia|]. cbn [for_loop].
      by rewrite Hstep.
  - intros ->.
    assert (Tughra.algorithm this' = "Affine"%string) as Halg
      by (by subst this).
    unfold Tughra.process. rewrite Hfrom, bind_Normal, Halg.
    change (String.eqb "Affine" "xor" || String.eqb "Affine" "ROT47"
            || String.eqb "Affine" "ROT13") with false. cbv iota.
    rewrite (for_loop_Normal _
      (λ r, if String.eqb (Tughra.mode this') "encrypt"
            then Tughra._encryptAffine this' r
            else Tughra._decryptAffine this' r)).
    + rewrite bind_Normal. apply Hto.
    + intros y. unfold Tughra._processCycle. by rewrite Halg.
Qed.

(** With base encoding on, the text "Ko" is first read through the
    alphabet; the decryption of what comes out then throws. *)
Lemma modInverse_checked_on_decrypt_witness :
  ∃ this,
    Tughra.constructor "decrypt" [] "Affine Pro" (js "abcdefgh") true
    = Normal this
    ∧ Tughra.process (host := example_host) (Tughra.assign_a_m this 4 26)
        (js "Ko") 1
      = Throw (Error "No modular inverse exists for the given key 'a'").
Proof.
  eexists. split; [reflexivity|].
  lazymatch goal with
  | |- Tughra.process (Tughra.assign_a_m ?this _ _) _ _ = _ =>
      destruct (modInverse_checked_on_decrypt (host := example_host)
                  "decrypt" "Affine Pro" [] (js "abcdefgh") (js "Ko") true 1
                  this eq_refl) as (_ & _ & _ & _ & H & _)
  end.
  apply H; [reflexivity | discriminate | lia].
Defined.

(** ** Keys with repeated characters *)

(** The default variant always returns: its cycles do not fail, and what
    the base encoding throws is caught. *)
Lemma process_Default_returns {host : Host} this alphabet text n :
  Tughra.switch (Tughra.algorithm this) = Tughra.Default →
  Tughra.baseLibrary this = Tughra.baseEncodeDecode alphabet →
  ∃ output, Tughra.process this text n = Normal output.
Proof.
  intros Hv Hlib. unfold Tughra.process.
  assert (∃ decoded,
    (if Tughra.useBaseEncoding this
        && String.eqb (Tughra.mode this) "decrypt"
     then Tughra.fromBase this text else Normal text) = Normal decoded)
    as [decoded ->].
  { destruct (Tughra.useBaseEncoding this
              && String.eqb (Tughra.mode this) "decrypt"); [|by eexists].
    by apply (fromBase_returns _ alphabet). }
  rewrite bind_Normal.
  rewrite (for_loop_Normal _
    (λ r, if String.eqb (Tughra.mode this) "encrypt"
          then Tughra._TughraEncrypt this r else Tughra._TughraDecrypt this r))
    by (intros y; by apply processCycle_Default).
  rewrite bind_Normal.
  destruct (Tughra.useBaseEncoding this
            && String.eqb (Tughra.mode this) "encrypt"); [|by eexists].
  by apply (toBase_returns _ alphabet).
Qed.

(** C9. The default variant reads the key with its duplicate characters
    removed, the first occurrence kept and the order preserved. Two keys
    that collapse to the same sequence are both refused when they are
    empty; otherwise both are accepted, both instances hold the collapsed
    key, and [process] returns the same output on both, for every text,
    mode, alphabet and cycle count. It is the collapsed key that is
    applied: without base encoding, one cycle adds to the unit at position
    [i] (or subtracts from it, when the mode is not 'encrypt') the unit of
    the collapsed key at [i mod its length]. *)
Theorem default_key_collapses {host : Host} (mode : string)
    (charset key1 key2 text : jsstring) (ub : bool) (n : Z) :
  first_occurrences (JS.String_iterator key1)
  = first_occurrences (JS.String_iterator key2) →
  match key1 with
  | [] =>
      Tughra.constructor mode charset "default" key1 ub
      = Throw (Error "keyOffsets must contain at least one valid value.")
      ∧ Tughra.constructor mode charset "default" key2 ub
        = Throw (Error "keyOffsets must contain at least one valid value.")
  | _ :: _ =>
      let collapsed := concat (first_occurrences (JS.String_iterator key1)) in
      ∃ this1 this2 output,
        Tughra.constructor mode charset "default" key1 ub = Normal this1
        ∧ Tughra.constructor mode charset "default" key2 ub = Normal this2
        ∧ collapsed ≠ []
        ∧ Tughra.keyOffsets this1 = collapsed
        ∧ Tughra.keyOffsets this2 = collapsed
        ∧ Tughra.process this1 text n = Normal output
        ∧ Tughra.process this2 text n = Normal output
        ∧ (ub = false →
           Tughra.process this1 text 1
           = Normal (imap (λ i c,
               (c + (if String.eqb (Tughra.mode this1) "encrypt"
                     then 1 else -1)
                    * default 0 (collapsed !! (i `mod` length collapsed)%nat))
               `mod` 65536) text))
  end.
Proof.
  intros Hkeys.
  assert (Hconstructor : ∀ key,
    first_occurrences (JS.String_iterator key)
    = first_occurrences (JS.String_iterator key1) →
    Tughra.constructor mode charset "default" key ub
    = if bool_decide
           (length (concat (first_occurrences (JS.String_iterator key1)))
            = 0%nat)
      then Throw (Error "keyOffsets must contain at least one valid value.")
      else Normal (Tughra.Build_t
        (concat (first_occurrences (JS.String_iterator key1)))
        (if String.eqb mode "" then "encrypt" else mode)
        ub
        (match charset with [] => Tughra.default_baseCharset | _ => charset end)
        (Tughra.baseEncodeDecode
           (match charset with
            | [] => Tughra.default_baseCharset | _ => charset end))
        (JS.TextEncoder_encode key)
        "default"
        (Object_fromEntries Tughra.substitution_entries)
        (Object_fromEntries
           ((λ kv, (kv.2, kv.1)) <$> Tughra.substitution_entries))
        5 8 26)).
  { intros key Hkey. rewrite constructor_eq. cbv zeta. rewrite Hkey. simpl.
    by case_bool_decide. }
  rewrite (Hconstructor key1 eq_refl), (Hconstructor key2 (eq_sym Hkeys)).
  destruct key1 as [|c key1']; [done|]. set (key1 := c :: key1') in *.
  cbv zeta. set (collapsed := concat _) in *.
  assert (Hne : collapsed ≠ [])
    by (by apply concat_first_occurrences_nonempty).
  rewrite bool_decide_eq_false_2 by (by destruct collapsed).
  eexists _, _.
  match goal with
  | |- ∃ output, Normal ?this1 = _ ∧ Normal ?this2 = _ ∧ _ =>
      destruct (process_Default_returns this1
                  (match charset with
                   | [] => Tughra.default_baseCharset | _ => charset end)
                  text n eq_refl eq_refl) as [output Houtput];
      exists output;
      assert (Hsame : Tughra.process this2 text n = Tughra.process this1 text n)
        by (by apply process_Default_ext)
  end.
  split; [done|]. split; [done|]. split; [done|]. split; [done|].
  split; [done|]. split; [done|]. split; [by rewrite Hsame|].
  intros ->. rewrite process_cycles_only by done.
  match goal with
  | |- for_loop ?k _ _ = _ => change k with 1%nat
  end.
  cbn [for_loop].
  rewrite processCycle_Default by done. rewrite bind_Normal. f_equal.
  cbn [Tughra.mode].
  unfold Tughra._TughraEncrypt, Tughra._TughraDecrypt.
  cbn [Tughra.keyOffsets].
  destruct (String.eqb _ "encrypt"); apply imap_ext; intros i x _;
    unfold JS.charCodeAt;
    (destruct (lookup_lt_is_Some_2 collapsed (i `mod` length collapsed)%nat)
       as [o ->];
     [apply Nat.mod_upper_bound; by destruct collapsed|]);
    simpl; unfold JS.fromCharCode, JS.ToUint16; f_equal; lia.
Qed.

(** The keys "aab" and "ab": both instances hold "ab", and "Tughra" gets
    the same ciphertext under both, the one that the key "ab" gives unit
    by unit. *)
Lemma default_key_collapses_witness :
  first_occurrences (JS.String_iterator (js "aab"))
  = first_occurrences (JS.String_iterator (js "ab"))
  ∧ ∃ this1 this2 output,
      Tughra.constructor "encrypt" [] "default" (js "aab") true = Normal this1
      ∧ Tughra.constructor "encrypt" [] "default" (js "ab") true = Normal this2
      ∧ Tughra.keyOffsets this1 = js "ab"
      ∧ Tughra.keyOffsets this2 = js "ab"
      ∧ Tughra.process (host := example_host) this1 (js "Tughra") 3
        = Normal output
      ∧ Tughra.process (host := example_host) this2 (js "Tughra") 3
        = Normal output.
Proof.
  split; [reflexivity|].
  destruct (default_key_collapses (host := example_host) "encrypt" []
              (js "aab") (js "ab") (js "Tughra") true 3 eq_refl)
    as (this1 & this2 & output & H1 & H2 & _ & Hkey1 & Hkey2 & Hout1 & Hout2 & _).
  exists this1, this2, output. done.
Defined.

(** The collapsed key at work: under "aab" as under "ab", "AAA" becomes
    the units 65 + 97, 65 + 98, 65 + 97, where the key "aab" taken as it
    is would give 65 + 97 twice. *)
Example default_key_collapses_known :
  (this ← Tughra.constructor "encrypt" [] "default" (js "aab") false;
   Tughra.process (host := example_host) this (js "AAA") 1)
  = Normal [65 + 97; 65 + 98; 65 + 97]
  ∧ (this ← Tughra.constructor "encrypt" [] "default" (js "ab") false;
     Tughra.process (host := example_host) this (js "AAA") 1)
    = Normal [65 + 97; 65 + 98; 65 + 97].
Proof. split; reflexivity. Qed.

(** * Further properties of the class *)

(** ** Construction and [setAlgorithm] *)

(** X1. The constructor has two ways to fail and no other: with the
    algorithm 'default' it throws on the empty key only; with any other
    algorithm, the omitted one included, it throws when the key has fewer
    than 8 code units. The error of the character check is never thrown. *)
Theorem constructor_outcome (mode algorithm : string)
    (charset key : jsstring) (ub : bool) :
  match Tughra.constructor mode charset algorithm key ub with
  | Normal this =>
      if String.eqb algorithm "default" then key ≠ []
      else (8 ≤ length key)%nat
  | Throw e =>
      if String.eqb algorithm "default"
      then key = []
           ∧ e = Error "keyOffsets must contain at least one valid value."
      else (length key < 8)%nat
           ∧ e = Error "Key must be at least 8 characters long."
  | Diverge => False
  end.
Proof.
  rewrite constructor_eq. cbv zeta.
  destruct (String.eqb algorithm "default") eqn:Halg; simpl.
  - case_bool_decide as Hlen.
    + split; [|done]. destruct (decide (key = [])) as [|Hkey]; [done|].
      apply concat_first_occurrences_nonempty in Hkey.
      by apply length_zero_iff_nil in Hlen.
    + intros ->. by apply Hlen.
  - unfold Tughra.checkKeyStrength. case_bool_decide as Hlen; simpl; [done|].
    lia.
Qed.

(** X2. [setAlgorithm] assigns the field and checks nothing. After
    [setAlgorithm(a)], [process] gives what it gives on an instance
    constructed with [a] and the same other arguments, whenever the
    constructor accepts them. *)
Theorem setAlgorithm_as_constructed {host : Host} (mode algorithm1 algorithm2 : string)
    (charset key text : jsstring) (ub : bool) (n : Z) (this1 this2 : Tughra.t) :
  Tughra.constructor mode charset algorithm1 key ub = Normal this1 →
  Tughra.constructor mode charset algorithm2 key ub = Normal this2 →
  Tughra.process (Tughra.setAlgorithm this1 algorithm2) text n
  = Tughra.process this2 text n.
Proof.
  intros H1%constructor_inv H2%constructor_inv.
  destruct (String.eqb_spec algorithm2 "") as [->|Hne].
  - apply process_Default_ext; by subst.
  - f_equal. subst. unfold Tughra.setAlgorithm. simpl. done.
Qed.

Lemma setAlgorithm_as_constructed_witness :
  ∃ this1 this2,
    Tughra.constructor "encrypt" [] "default" (js "abcdefgh") true
    = Normal this1
    ∧ Tughra.constructor "encrypt" [] "Numeric" (js "abcdefgh") true
      = Normal this2
    ∧ Tughra.process (host := example_host) (Tughra.setAlgorithm this1 "Numeric") (js "Hi") 2
      = Tughra.process (host := example_host) this2 (js "Hi") 2.
Proof.
  eexists _, _. split; [reflexivity|]. split; [reflexivity|].
  by apply (setAlgorithm_as_constructed "encrypt" "default" "Numeric" []
              (js "abcdefgh") (js "Hi") true 2).
Defined.

(** ** The modular inverse in general *)

(** X3. For integral [a] and [m] whose products stay exact, [_modInverse]
    returns a value exactly when [a] is positive, [m] is above 1 and the
    two are coprime; the value is then the least [x] in [1, m) with
    [a * x ≡ 1 (mod m)]. A negative [a] has no inverse for it, whatever
    [m]: the remainder of a negative product is never 1. *)
Theorem modInverse_coprime (a m : Z) :
  Z.abs a * m < 2 ^ 53 →
  (is_Some (Tughra._modInverse a m) ↔ 0 < a ∧ 1 < m ∧ Z.gcd a m = 1)
  ∧ (∀ x, Tughra._modInverse a m = Some x →
       1 ≤ x < m ∧ (a * x) `mod` m = 1
       ∧ ∀ y, 1 ≤ y < x → (a * y) `mod` m ≠ 1).
Proof.
  intros _. unfold Tughra._modInverse.
  assert (Hfound : ∀ x, 1 ≤ x < m → Z.rem (a * x) m = 1 →
                        0 < a ∧ (a * x) `mod` m = 1 ∧ Z.gcd a m = 1).
  { intros x Hx Hrem.
    assert (0 < a) as Ha.
    { destruct (decide (0 < a)) as [|Hn]; [done|].
      assert (a * x ≤ 0) as Hneg by nia.
      pose proof (Z.rem_nonpos (a * x) m) as Hsign. lia. }
    assert ((a * x) `mod` m = 1) as Hmod
      by (rewrite <- Z.rem_mod_nonneg by nia; done).
    split; [done|]. split; [done|].
    pose proof (Z.gcd_divide_l a m) as [u Hu].
    pose proof (Z.gcd_divide_r a m) as [v Hv].
    pose proof (Z.gcd_nonneg a m) as Hg.
    pose proof (Z.div_mod (a * x) m ltac:(lia)) as Hdiv.
    rewrite Hmod in Hdiv.
    assert (Z.gcd a m * (u * x - v * ((a * x) `div` m)) = 1) as Hone by nia.
    apply Z.eq_mul_1 in Hone. lia. }
  split.
  - split.
    + intros [x Hx]. apply fmap_Some in Hx as ([i y] & Hfind & ->).
      apply list_find_Some in Hfind as (Hi & Hrem & _).
      apply lookup_seqZ in Hi as [-> Hi]. simpl in *.
      destruct (Hfound (1 + Z.of_nat i)) as (? & _ & ?); [lia | done |].
      repeat split; [done | lia | done].
    + intros (Ha & Hm & Hgcd).
      destruct (Z.gcd_bezout a m 1 Hgcd) as (u & v & Huv).
      assert ((a * (u `mod` m)) `mod` m = 1) as Hinv.
      { rewrite Z.mul_mod_idemp_r by lia.
        replace (a * u) with (1 + (- v) * m) by lia.
        rewrite Z.mod_add by lia. apply Z.mod_small. lia. }
      pose proof (Z.mod_pos_bound u m ltac:(lia)) as Hrange.
      assert (u `mod` m ≠ 0) as Hnz.
      { intros H0. rewrite H0, Z.mul_0_r, Z.mod_0_l in Hinv by lia. done. }
      destruct (list_find_elem_of (λ x, Z.rem (a * x) m = 1) (seqZ 1 (m - 1))
                  (u `mod` m)) as [[i x] Hx].
      * apply elem_of_seqZ. lia.
      * rewrite Z.rem_mod_nonneg by nia. done.
      * rewrite Hx. by eexists.
  - intros x Hx. apply fmap_Some in Hx as ([i y] & Hfind & ->).
    apply list_find_Some in Hfind as (Hi & Hrem & Hleast).
    apply lookup_seqZ in Hi as [-> Hi]. simpl in *.
    destruct (Hfound (1 + Z.of_nat i)) as (Ha & Hmod & _); [lia | done |].
    split; [lia|]. split; [done|]. intros y Hy Hy'.
    apply (Hleast (Z.to_nat (y - 1)) y).
    + apply lookup_seqZ. lia.
    + lia.
    + rewrite Z.rem_mod_nonneg by nia. done.
Qed.

Lemma modInverse_coprime_witness :
  Tughra._modInverse 5 26 = Some 21
  ∧ (5 * 21) `mod` 26 = 1
  ∧ ¬ is_Some (Tughra._modInverse (-5) 26).
Proof.
  assert (Z.abs 5 * 26 < 2 ^ 53) as H1 by (by vm_compute).
  assert (Z.abs (-5) * 26 < 2 ^ 53) as H2 by (by vm_compute).
  split; [reflexivity|]. split.
  - by destruct (modInverse_coprime 5 26 H1) as [_ Hx];
      destruct (Hx 21 eq_refl) as (_ & ? & _).
  - destruct (modInverse_coprime (-5) 26 H2) as [[Hsome _] _].
    intros H. apply Hsome in H. lia.
Defined.

(** ** Decryption that always fails *)

(** X4. In decrypt mode the variants 'ROT47' and 'Atbash' cannot be used:
    their decryption calls a method the class does not have, so [process]
    throws a [TypeError] for every text, with or without base encoding;
    for 'ROT47', whose cycle count is forced to 1, this is so for every
    cycle count, for 'Atbash' as soon as one cycle runs. *)
Theorem decrypt_ROT47_Atbash_throws {host : Host} (charset key text : jsstring)
    (algorithm : string) (ub : bool) (n : Z) (this : Tughra.t) :
  Tughra.constructor "decrypt" charset algorithm key ub = Normal this →
  (algorithm = "ROT47"%string →
   Tughra.process this text n
   = Throw (TypeError "this.encryptROT47 is not a function"))
  ∧ (algorithm = "Atbash"%string → 0 < n →
     Tughra.process this text n
     = Throw (TypeError "this.encryptAtbash is not a function")).
Proof.
  intros Hthis.
  destruct (constructor_Normal _ _ _ _ _ _ Hthis)
    as (_ & _ & _ & _ & Hlib & _).
  apply constructor_inv in Hthis. simpl in Hthis.
  assert (Tughra.mode this = "decrypt"%string) as Hmode by (by subst).
  rewrite process_decrypt by done.
  assert (∃ decoded,
    (if Tughra.useBaseEncoding this then Tughra.fromBase this text
     else Normal text) = Normal decoded) as [decoded ->].
  { destruct (Tughra.useBaseEncoding this); [|by eexists].
    by apply (fromBase_returns _ (Tughra.baseCharset this)). }
  rewrite bind_Normal. split.
  - intros ->. by subst this.
  - intros -> Hn. subst this. simpl.
    destruct (Z.to_nat n) as [|k] eqn:Hk; [lia|]. done.
Qed.

Lemma decrypt_ROT47_Atbash_throws_witness :
  ∃ this,
    Tughra.constructor "decrypt" [] "Atbash" (js "abcdefgh") true = Normal this
    ∧ Tughra.process (host := example_host) this (js "Svool") 1
      = Throw (TypeError "this.encryptAtbash is not a function").
Proof.
  eexists. split; [reflexivity|].
  destruct (decrypt_ROT47_Atbash_throws (host := example_host) [] (js "abcdefgh") (js "Svool")
              "Atbash" true 1 _ eq_refl) as [_ H].
  apply H; [reflexivity | lia].
Defined.

(** ** Reversed Caesar *)

(** The variant reads the key through its length only. *)
Lemma ReversedCaesar_key_length this1 this2 text :
  length (Tughra.encryptionKey this1) = length (Tughra.encryptionKey this2) →
  Tughra._encryptReversedCaesar this1 text
  = Tughra._encryptReversedCaesar this2 text
  ∧ Tughra._decryptReversedCaesar this1 text
    = Tughra._decryptReversedCaesar this2 text.
Proof.
  intros Hlen. unfold Tughra._encryptReversedCaesar, Tughra._decryptReversedCaesar.
  by rewrite Hlen.
Qed.

(** Key lengths below 52, tried on the 52 letters: decryption gives them
    back for the lengths 0, 13 and 26 only. *)
Lemma ReversedCaesar_short_keys :
  forallb (λ k,
    let this :=
      Tughra.Build_t [] "decrypt" false [] (Tughra.baseEncodeDecode [])
        (replicate k 0) "Reversed Caesar" ∅ ∅ 5 8 26 in
    bool_decide
      (bool_decide (Tughra._decryptReversedCaesar this
                      (Tughra._encryptReversedCaesar this letters) = letters)
       = bool_decide (k ∈ [0; 13; 26]%nat)))
    (seq 0 52) = true.
Proof. by vm_compute. Qed.

(** X5. The decryption of 'Reversed Caesar' subtracts the key length where
    the inverse of its encryption adds it: it gives every text back exactly
    when the key, in UTF-8, has 0, 13 or 26 bytes. *)
Theorem ReversedCaesar_round_trip (this : Tughra.t) :
  (∀ text, Tughra._decryptReversedCaesar this
             (Tughra._encryptReversedCaesar this text) = text)
  ↔ length (Tughra.encryptionKey this) ∈ [0; 13; 26]%nat.
Proof.
  set (k := length (Tughra.encryptionKey this)).
  set (this' := Tughra.Build_t [] "decrypt" false []
                  (Tughra.baseEncodeDecode []) (replicate k 0)
                  "Reversed Caesar" ∅ ∅ 5 8 26).
  assert (Hlen : length (Tughra.encryptionKey this)
                 = length (Tughra.encryptionKey this'))
    by (simpl; by rewrite length_replicate).
  split.
  - intros Hback. destruct (decide (k < 52)%nat) as [Hk|Hk].
    + pose proof ReversedCaesar_short_keys as Hall.
      rewrite forallb_forall in Hall.
      specialize (Hall k). cbv zeta in Hall. fold this' in Hall.
      apply bool_decide_eq_true in Hall; [|apply in_seq; lia].
      rewrite <- (bool_decide_eq_true _), <- Hall. apply bool_decide_eq_true.
      destruct (ReversedCaesar_key_length this this' letters Hlen) as [<- _].
      destruct (ReversedCaesar_key_length this this'
                  (Tughra._encryptReversedCaesar this letters) Hlen) as [_ <-].
      apply Hback.
    + exfalso. specialize (Hback [66]). revert Hback.
      unfold Tughra._decryptReversedCaesar, Tughra._encryptReversedCaesar,
        Tughra.replace. fold k. cbn [fmap list_fmap].
      assert (Tughra.is_letter 66 = true) as -> by done.
      assert (Tughra.letter_base 66 = 65) as -> by done. cbv zeta.
      set (e := Z.rem (25 - (66 - 65) + Z.of_nat k) 26 + 65).
      assert (65 ≤ e ≤ 90) as He by (unfold e; div_mod_lia).
      unfold JS.fromCharCode, JS.ToUint16. rewrite (Z.mod_small e) by lia.
      unfold Tughra.is_letter, Tughra.letter_base.
      rewrite (bool_decide_eq_true_2 (65 ≤ e ≤ 90)) by done. cbn [orb].
      rewrite (bool_decide_eq_true_2 (e ≤ 90)) by lia.
      intros [= Hd]. revert Hd.
      rewrite Z.mod_small by div_mod_lia. div_mod_lia.
  - intros Hk text.
    destruct (ReversedCaesar_key_length this this' text Hlen) as [-> _].
    destruct (ReversedCaesar_key_length this this'
                (Tughra._encryptReversedCaesar this' text) Hlen) as [_ ->].
    unfold Tughra._decryptReversedCaesar, Tughra._encryptReversedCaesar.
    apply replace_letters_inverse. unfold this'.
    cbn [Tughra.encryptionKey]. rewrite length_replicate.
    repeat (apply elem_of_cons in Hk as [->|Hk]; [by vm_compute|]).
    by apply elem_of_nil in Hk.
Qed.

(** ** How the cycles of the shifting variants add up *)

Lemma iter_shift (d : Z) (n : nat) text :
  wf_string text →
  Nat.iter n (fmap (λ char, JS.fromCharCode (char + d))) text
  = (λ c, (c + Z.of_nat n * d) `mod` 65536) <$> text.
Proof.
  intros Hwf. induction n as [|n IH].
  - simpl. rewrite <- (list_fmap_id text) at 1. apply Forall_fmap_ext.
    eapply Forall_impl; [exact Hwf|]. intros c Hc. simpl.
    rewrite Z.add_0_r. symmetry. by apply Z.mod_small.
  - simpl. rewrite IH, <- list_fmap_compose. apply list_fmap_ext.
    intros _ c _. simpl. unfold JS.fromCharCode, JS.ToUint16.
    rewrite Zplus_mod_idemp_l. f_equal. lia.
Qed.

Lemma iter_shift_by_position (offset : nat → Z) (n : nat) text :
  wf_string text →
  Nat.iter n (imap (λ i char, JS.fromCharCode (char + offset i))) text
  = imap (λ i c, (c + Z.of_nat n * offset i) `mod` 65536) text.
Proof.
  intros Hwf. induction n as [|n IH].
  - simpl. apply list_eq. intros i. rewrite list_lookup_imap.
    destruct (text !! i) as [c|] eqn:Hc; [|done]. simpl. f_equal.
    rewrite Z.add_0_r. symmetry. apply Z.mod_small.
    by apply (Forall_lookup_1 _ _ _ _ Hwf Hc).
  - simpl. rewrite IH. apply list_eq. intros i. rewrite !list_lookup_imap.
    destruct (text !! i) as [c|]; [|done]. simpl. f_equal.
    unfold JS.fromCharCode, JS.ToUint16.
    rewrite Zplus_mod_idemp_l. f_equal. lia.
Qed.

(** X6. 'caesar', 'ASCII' and 'Unicode Shift' are one shift by the number
    of bytes the key has in UTF-8, and their cycles add up: without base
    encoding, [n] cycles send every code unit [c] to
    [(c + n * bytes) mod 65536], with [- n] in place of [n] when the mode
    is not 'encrypt'. *)
Theorem shift_cycles_add {host : Host} (mode algorithm : string)
    (charset key text : jsstring) (n : Z) (this : Tughra.t) :
  Tughra.constructor mode charset algorithm key false = Normal this →
  algorithm ∈ ["caesar"; "ASCII"; "Unicode Shift"]%string →
  wf_string text → 0 ≤ n →
  Tughra.process this text n
  = Normal ((λ c,
      (c + (if String.eqb (Tughra.mode this) "encrypt" then n else - n)
           * Z.of_nat (length (JS.TextEncoder_encode key))) `mod` 65536)
      <$> text).
Proof.
  intros Hthis Halg Hwf Hn. apply constructor_inv in Hthis.
  rewrite process_cycles_only by (by subst).
  set (sign := if String.eqb (Tughra.mode this) "encrypt" then 1 else -1).
  set (bytes := Z.of_nat (length (JS.TextEncoder_encode key))).
  rewrite (for_loop_Normal _
             (fmap (λ char, JS.fromCharCode (char + sign * bytes)))).
  - assert (String.eqb (Tughra.algorithm this) "xor"
            || String.eqb (Tughra.algorithm this) "ROT47"
            || String.eqb (Tughra.algorithm this) "ROT13" = false) as ->.
    { subst this. simpl.
      repeat (apply elem_of_cons in Halg as [->|Halg]; [done|]).
      by apply elem_of_nil in Halg. }
    cbv iota. rewrite iter_shift by done. f_equal. apply list_fmap_ext. intros _ c _.
    rewrite Z2Nat.id by done. apply (f_equal (λ x, x `mod` 65536)).
    unfold sign. destruct (String.eqb (Tughra.mode this) "encrypt"); lia.
  - intros r. unfold Tughra._processCycle, sign.
    assert (length (Tughra.encryptionKey this)
            = length (JS.TextEncoder_encode key)) as Hkey by (by subst).
    unfold Tughra._caesarEncrypt, Tughra._caesarDecrypt,
      Tughra._encryptAsciiShift, Tughra._decryptAsciiShift,
      Tughra._encryptUnicodeShift, Tughra._decryptUnicodeShift.
    rewrite Hkey. fold bytes.
    assert (Tughra.switch (Tughra.algorithm this)
            ∈ [Tughra.Caesar; Tughra.ASCII; Tughra.UnicodeShift]) as Hv.
    { subst this. simpl.
      repeat (apply elem_of_cons in Halg as [->|Halg];
              [repeat constructor|]).
      by apply elem_of_nil in Halg. }
    repeat (apply elem_of_cons in Hv as [->|Hv];
            [destruct (String.eqb (Tughra.mode this) "encrypt"); f_equal; apply list_fmap_ext;
             intros _ c _; apply (f_equal JS.fromCharCode); lia|]).
    by apply elem_of_nil in Hv.
Qed.

Lemma shift_cycles_add_witness :
  ∃ this,
    Tughra.constructor "decrypt" [] "ASCII" (js "abcdefgh") false = Normal this
    ∧ Tughra.process (host := example_host) this (js "Hello") 3
      = Normal ((λ c, (c + - 3 * 8) `mod` 65536) <$> js "Hello").
Proof.
  eexists. split; [reflexivity|].
  apply (shift_cycles_add "decrypt" "ASCII" [] (js "abcdefgh") (js "Hello") 3);
    [reflexivity | | | lia].
  - apply (bool_decide_unpack _). by vm_compute.
  - apply (bool_decide_unpack _). by vm_compute.
Defined.

(** X7. The cycles of the default variant add up too: without base
    encoding, [n] cycles send the code unit [c] at position [i] to
    [(c + n * offset) mod 65536], where [offset] is the unit of the
    duplicate-free key at [i mod its length], with [- n] in place of [n]
    when the mode is not 'encrypt'. After 65536 cycles every text is back
    to itself. *)
Theorem default_cycles_add {host : Host} (mode : string) (charset key text : jsstring)
    (n : Z) (this : Tughra.t) :
  Tughra.constructor mode charset "default" key false = Normal this →
  wf_string text → 0 ≤ n →
  Tughra.process this text n
  = Normal (imap (λ i c,
      (c + (if String.eqb (Tughra.mode this) "encrypt" then n else - n)
           * default 0 (Tughra.keyOffsets this
                          !! (i `mod` length (Tughra.keyOffsets this))%nat))
      `mod` 65536) text)
  ∧ Tughra.process this text 65536 = Normal text.
Proof.
  intros Hthis Hwf Hn.
  destruct (constructor_Normal _ _ _ _ _ _ Hthis) as (_ & Hkey & _).
  apply constructor_inv in Hthis.
  set (sign := if String.eqb (Tughra.mode this) "encrypt" then 1 else -1).
  set (offset := λ i : nat,
    sign * default 0 (Tughra.keyOffsets this
                        !! (i `mod` length (Tughra.keyOffsets this))%nat)).
  assert (Hcycles : ∀ k, 0 ≤ k →
    Tughra.process this text k
    = Normal (imap (λ i c, (c + k * offset i) `mod` 65536) text)).
  { intros k Hk. rewrite process_cycles_only by (by subst).
    rewrite (for_loop_Normal _
               (imap (λ i char, JS.fromCharCode (char + offset i)))).
    - assert (Tughra.algorithm this = "default"%string) as -> by (by subst).
      simpl. rewrite iter_shift_by_position by done.
      by rewrite Z2Nat.id by done.
    - intros r. rewrite processCycle_Default by (by subst).
      unfold Tughra._TughraEncrypt, Tughra._TughraDecrypt, offset, sign.
      f_equal. destruct (String.eqb (Tughra.mode this) "encrypt"); apply imap_ext; intros i c _;
        unfold JS.charCodeAt;
        destruct (keyOffsets_lookup this Hkey i) as [o ->]; simpl;
        apply (f_equal JS.fromCharCode); lia. }
  split.
  - rewrite Hcycles by done. f_equal. apply imap_ext. intros i c _.
    apply (f_equal (λ x, x `mod` 65536)). unfold offset, sign.
    destruct (String.eqb (Tughra.mode this) "encrypt"); lia.
  - rewrite Hcycles by done. f_equal. apply list_eq. intros i.
    rewrite list_lookup_imap. destruct (text !! i) as [c|] eqn:Hc; [|done].
    simpl. f_equal.
    replace (c + 65536 * offset i) with (c + offset i * 65536) by lia.
    rewrite Z.mod_add by done.
    apply Z.mod_small. by apply (Forall_lookup_1 _ _ _ _ Hwf Hc).
Qed.

Lemma default_cycles_add_witness :
  ∃ this,
    Tughra.constructor "encrypt" [] "default" (js "abc") false = Normal this
    ∧ Tughra.process (host := example_host) this (js "Hello") 65536 = Normal (js "Hello").
Proof.
  eexists. split; [reflexivity|].
  eapply (default_cycles_add "encrypt" [] (js "abc") (js "Hello") 65536);
    [reflexivity | | lia].
  apply (bool_decide_unpack _). by vm_compute.
Defined.

(** ** What the base codec writes and accepts *)

Lemma length_chunks n s :
  length (chunks n s) = ((length s + n - 1) `div` n)%nat.
Proof.
  unfold chunks, Tughra.loop_indices. by rewrite !length_fmap, length_seq.
Qed.

Lemma bind_singletons {A B} (f : A → list B) (P : B → Prop) (l : list A) :
  Forall (λ x, ∃ y, f x = [y] ∧ P y) l →
  length (l ≫= f) = length l ∧ Forall P (l ≫= f).
Proof.
  induction 1 as [|x l (y & Hy & HP) _ [IHlen IHP]]; [by split|].
  rewrite bind_cons, Hy. simpl. split; [by rewrite IHlen | by constructor].
Qed.

Lemma length_binary (bytes : jsstring) :
  Forall byte bytes →
  length (c ← bytes; JS.padStart 8 48 (JS.Number_toString 2 c))
  = (8 * length bytes)%nat
  ∧ Forall binary_digit (c ← bytes; JS.padStart 8 48 (JS.Number_toString 2 c)).
Proof.
  induction 1 as [|c bytes Hc _ [IHlen IHbin]]; [by split|].
  destruct (byte_digits c Hc) as (Hbin & Hlen & _).
  rewrite bind_cons, length_app, Hlen, IHlen. split; [simpl; lia|].
  by apply Forall_app.
Qed.

(** X8. For an alphabet of 2 or of 4 to 2980 symbols, with chunks of
    [n = ceil(ln(size))] bits, [encode] writes [ceil(8 * bytes / n)]
    symbols for a sequence of bytes, and takes every one of them from the
    first [2^n] symbols of the alphabet: the symbols after these are never
    written. *)
Theorem encode_length_and_symbols (alphabet bytes : jsstring) :
  length alphabet = 2%nat ∨ (4 ≤ length alphabet ≤ 2980)%nat →
  Forall byte bytes →
  ∃ symbols,
    Tughra.encode (Tughra.baseEncodeDecode alphabet) bytes = Normal symbols
    ∧ length symbols
      = ((8 * length bytes + Tughra.ceil_log (length alphabet) - 1)
         `div` Tughra.ceil_log (length alphabet))%nat
    ∧ Forall (λ c, c ∈ take (2 ^ Tughra.ceil_log (length alphabet)) alphabet)
        symbols.
Proof.
  intros [Hsize Haddr]%ceil_log_addressable Hbytes.
  set (n := Tughra.ceil_log (length alphabet)) in *.
  eexists. split; [apply encode_eq; fold n; lia|]. fold n.
  destruct (length_binary bytes Hbytes) as [Hlen Hbin].
  set (binary := c ← bytes; JS.padStart 8 48 (JS.Number_toString 2 c)) in *.
  destruct (bind_singletons
    (λ ch, Tughra.alphabet_at alphabet (JS.parseInt ch 2))
    (λ c, c ∈ take (2 ^ n) alphabet)
    (JS.padEnd n 48 <$> chunks n binary)) as [Hsymbols Hfirst].
  - pose proof (padded_chunks_length n binary ltac:(lia)) as Hlens.
    pose proof (padded_chunks_binary n binary ltac:(lia) Hbin) as Hbins.
    revert Hlens Hbins. generalize (JS.padEnd n 48 <$> chunks n binary).
    intros padded Hlens Hbins.
    induction Hlens as [|ch padded Hch _ IH]; [constructor|].
    apply Forall_cons_1 in Hbins as [Hb Hbins]. constructor; [|by apply IH].
    destruct (binary_chunk n ch Hsize Hch Hb) as (v & Hparse & Hv & _).
    assert (Z.to_nat v < 2 ^ n)%nat as Hvn.
    { apply Nat2Z.inj_lt. rewrite Z2Nat.id by lia. rewrite Nat2Z.inj_pow.
      change (Z.of_nat 2) with 2. lia. }
    destruct (lookup_lt_is_Some_2 alphabet (Z.to_nat v)) as [c Hc]; [lia|].
    exists c. unfold Tughra.alphabet_at. rewrite Hparse. simpl.
    rewrite bool_decide_eq_true_2 by lia. rewrite Hc. split; [done|].
    apply list_elem_of_lookup. exists (Z.to_nat v).
    by rewrite lookup_take_lt.
  - split; [|done]. rewrite Hsymbols, length_fmap, length_chunks. by rewrite Hlen.
Qed.

Lemma encode_length_and_symbols_witness :
  ∃ symbols,
    Tughra.encode (Tughra.baseEncodeDecode Tughra.default_baseCharset)
      (js "Tughra") = Normal symbols
    ∧ length symbols = 10%nat
    ∧ Forall (λ c, c ∈ js "ABCDEFGHIJKLMNOPQRSTUVWXYZabcdef") symbols.
Proof.
  apply (encode_length_and_symbols Tughra.default_baseCharset (js "Tughra")).
  - right. change (length Tughra.default_baseCharset) with 65%nat. lia.
  - apply (bool_decide_unpack _). by vm_compute.
Defined.

Lemma Number_toString_binary v :
  0 ≤ v → Forall binary_digit (JS.Number_toString 2 v).
Proof.
  intros Hv. unfold JS.Number_toString. rewrite bool_decide_eq_false_2 by lia.
  destruct (digits_of_spec 2 (Z.to_nat (Z.log2 v)) v []) as (ds & -> & _ & Hds & _).
  - lia.
  - rewrite Z2Nat.id by apply Z.log2_nonneg. split; [done|].
    destruct (decide (v = 0)) as [->|Hnz]; [done|].
    apply Z.log2_spec. lia.
  - rewrite app_nil_r. apply Forall_fmap. eapply Forall_impl; [exact Hds|].
    intros d Hd. unfold binary_digit, compose. cbv beta in *. lia.
Qed.

Lemma decode_pieces alphabet n text :
  Forall (λ c, c ∈ alphabet) text →
  ∃ pieces,
    mapM (λ c,
      match JS.indexOf alphabet c with
      | None => Throw (Error "Invalid Base character")
      | Some index =>
          Normal (JS.padStart n 48 (JS.Number_toString 2 (Z.of_nat index)))
      end) text = Normal pieces
    ∧ Forall binary_digit (concat pieces).
Proof.
  induction 1 as [|c text Hc _ (pieces & Hpieces & Hbin)]; [by exists []|].
  destruct (JS.indexOf alphabet c) as [index|] eqn:Hindex.
  - eexists. simpl. rewrite Hindex, Hpieces. simpl. split; [done|].
    apply Forall_app. split; [|done]. unfold JS.padStart.
    apply Forall_app. split; [apply Forall_replicate; by left|].
    apply Number_toString_binary. lia.
  - by apply indexOf_None in Hindex.
Qed.

(** X9. [decode] has one way to fail: it throws
    [Error('Invalid Base character')] exactly when a symbol of the text is
    not in the alphabet. Otherwise it returns, and every unit it returns is
    a byte: no chunk is read as [NaN]. *)
Theorem decode_outcome (alphabet text : jsstring) :
  match Tughra.decode (Tughra.baseEncodeDecode alphabet) text with
  | Normal bytes => Forall (λ c, c ∈ alphabet) text ∧ Forall byte bytes
  | Throw e =>
      e = Error "Invalid Base character" ∧ ∃ c, c ∈ text ∧ c ∉ alphabet
  | Diverge => False
  end.
Proof.
  destruct (decide (Forall (λ c, c ∈ alphabet) text)) as [Hall|Hnot].
  - rewrite decode_eq.
    destruct (decode_pieces alphabet (Tughra.ceil_log (length alphabet))
                text Hall) as (pieces & -> & Hbin).
    rewrite bind_Normal. split; [done|].
    apply Forall_bind. apply Forall_forall. intros ch Hch.
    unfold compose. cbv beta.
    case_bool_decide as Hlen; [|constructor].
    assert (Forall binary_digit ch) as Hdigits.
    { unfold chunks in Hch. apply list_elem_of_fmap in Hch as (i & -> & _).
      unfold JS.substring. by apply Forall_take, Forall_drop. }
    destruct (binary_chunk 8 ch ltac:(lia) Hlen Hdigits) as (v & -> & Hv & _).
    apply Forall_singleton. unfold byte. simpl.
    unfold JS.fromCharCode, JS.ToUint16. rewrite Z.mod_small; lia.
  - apply not_Forall_Exists in Hnot; [|apply _].
    apply Exists_exists in Hnot as (c & Hc & Hout).
    rewrite (decode_invalid_symbol alphabet text c) by done. eauto.
Qed.

(** ** When 'Base64' encrypts *)

Lemma btoa_cycles (n : nat) (s : jsstring) :
  Forall byte s →
  ∃ e, for_loop n JS.btoa s = Normal e ∧ Forall byte e.
Proof.
  revert s. induction n as [|n IH]; intros s Hs; [by exists s|].
  destruct (atob_btoa s Hs) as (e & He & Hbe & _).
  destruct (IH e Hbe) as (e' & He' & Hbe'). exists e'.
  simpl. by rewrite He.
Qed.

(** X10. In encrypt mode and without base encoding, 'Base64' with one
    cycle or more throws [btoa]'s [InvalidCharacterError] exactly when the
    text has a code unit above 255; otherwise it returns, and the
    ciphertext has no unit above 255 either, so the later cycles never
    fail. *)
Theorem Base64_encrypt_outcome {host : Host} (charset key text : jsstring) (n : Z)
    (this : Tughra.t) :
  Tughra.constructor "encrypt" charset "Base64" key false = Normal this →
  wf_string text → 0 < n →
  match Tughra.process this text n with
  | Normal ciphertext => Forall byte text ∧ Forall byte ciphertext
  | Throw e => e = InvalidCharacterError ∧ Exists (λ c, 255 < c) text
  | Diverge => False
  end.
Proof.
  intros Hthis%constructor_inv Hwf Hn.
  rewrite process_cycles_only by (by subst).
  assert (Hcycle : ∀ r, Tughra._processCycle this r (Tughra.mode this)
                        = JS.btoa r) by (by subst).
  rewrite (for_loop_ext _ _ _ _ Hcycle).
  assert (Tughra.algorithm this = "Base64"%string) as -> by (by subst).
  replace (String.eqb "Base64" "xor" || String.eqb "Base64" "ROT47"
           || String.eqb "Base64" "ROT13") with false by done.
  cbv iota.
  destruct (Z.to_nat n) as [|k] eqn:Hk; [lia|].
  change (for_loop (S k) JS.btoa text) with (JS.btoa text ≫= for_loop k JS.btoa).
  destruct (decide (Forall byte text)) as [Hbytes|Hwide].
  - destruct (atob_btoa text Hbytes) as (e & -> & Hbe & _).
    rewrite bind_Normal.
    by destruct (btoa_cycles k e Hbe) as (e' & -> & Hbe').
  - assert (Exists (λ c, 255 < c) text) as Hex.
    { apply not_Forall_Exists in Hwide; [|apply _].
      apply Exists_exists in Hwide as (c & Hc & Hout).
      apply Exists_exists. exists c. split; [done|].
      apply (proj1 (Forall_forall _ _) Hwf) in Hc.
      unfold compose, byte, code_unit in *. lia. }
    unfold JS.btoa. destruct (forallb _ text) eqn:Hall; [|done].
    exfalso. apply Exists_exists in Hex as (c & Hc & Hout).
    rewrite forallb_forall in Hall. apply list_elem_of_In, Hall in Hc.
    apply bool_decide_eq_true in Hc. lia.
Qed.

Lemma Base64_encrypt_outcome_witness :
  ∃ this,
    Tughra.constructor "encrypt" [] "Base64" (js "abcdefgh") false
    = Normal this
    ∧ Tughra.process (host := example_host) this [0x20AC] 2 = Throw InvalidCharacterError.
Proof.
  eexists. split; [reflexivity|].
  assert (wf_string [0x20AC]) as Hwf
    by (apply (bool_decide_unpack _); by vm_compute).
  pose proof (Base64_encrypt_outcome (host := example_host) [] (js "abcdefgh") [0x20AC] 2 _ eq_refl
                Hwf ltac:(lia)) as H.
  destruct (Tughra.process _ [0x20AC] 2) as [c|e|]; [|by destruct H as [-> _]|done].
  destruct H as [H _]. apply Forall_cons_1 in H as [H _]. unfold byte in H. lia.
Defined.

(** ** The variants that replace letters *)

Lemma keeps_letter_class_trans c d e :
  keeps_letter_class c d = true → keeps_letter_class d e = true →
  keeps_letter_class c e = true.
Proof.
  unfold keeps_letter_class. destruct (Tughra.is_letter c) eqn:Hc.
  - intros [Hd Hbase%bool_decide_eq_true]%andb_true_iff. rewrite Hd.
    intros [He Hbase'%bool_decide_eq_true]%andb_true_iff. rewrite He.
    apply bool_decide_eq_true. congruence.
  - intros ->%bool_decide_eq_true. by rewrite Hc.
Qed.

Lemma keeps_letter_class_cycles (l1 l2 l3 : jsstring) :
  Forall2 (λ c d, keeps_letter_class c d = true) l1 l2 →
  Forall2 (λ c d, keeps_letter_class c d = true) l2 l3 →
  Forall2 (λ c d, keeps_letter_class c d = true) l1 l3.
Proof.
  intros H12. revert l3. induction H12 as [|c d l1 l2 Hcd _ IH]; intros l3 H23.
  - by inversion H23.
  - inversion H23 as [|? e ? l3' Hde H23']; subst. constructor; [|by apply IH].
    by eapply keeps_letter_class_trans.
Qed.

Lemma replace_keeps_letter_class f text :
  (∀ c, Tughra.is_letter c = true → keeps_letter_class c (f c) = true) →
  Forall2 (λ c d, keeps_letter_class c d = true) text
    (Tughra.replace Tughra.is_letter f text).
Proof.
  intros Hf. unfold Tughra.replace. apply Forall2_fmap_r, Forall_Forall2_diag.
  apply Forall_forall. intros c _. unfold compose. cbv beta.
  destruct (Tughra.is_letter c) eqn:Hc; cbv iota; [by apply Hf|].
  unfold keeps_letter_class. rewrite Hc. by apply bool_decide_eq_true.
Qed.

(** For a replacement that reads nothing but the letter, the 52 letters
    are tried. *)
Lemma letters_keep_letter_class f :
  forallb (λ c, keeps_letter_class c (f c)) letters = true →
  ∀ c, Tughra.is_letter c = true → keeps_letter_class c (f c) = true.
Proof.
  intros Hall c Hc%is_letter_letters. rewrite forallb_forall in Hall.
  by apply list_elem_of_In, Hall in Hc.
Qed.

Lemma substitution_keeps_letter_class (entries : list (Z * Z)) text :
  forallb Tughra.is_letter entries.*1 = true →
  forallb (λ c, keeps_letter_class c
                  (default c (Object_fromEntries entries !! c))) letters
  = true →
  Forall2 (λ c d, keeps_letter_class c d = true) text
    ((λ char, default char (Object_fromEntries entries !! char)) <$> text).
Proof.
  intros Hkeys Hall. apply Forall2_fmap_r, Forall_Forall2_diag.
  apply Forall_forall. intros c _. unfold compose. cbv beta.
  destruct (Tughra.is_letter c) eqn:Hc.
  - by apply (letters_keep_letter_class
                (λ c, default c (Object_fromEntries entries !! c))).
  - rewrite (substitution_keys_letters entries c) by done. simpl.
    unfold keeps_letter_class. rewrite Hc. by apply bool_decide_eq_true.
Qed.

Lemma ReversedCaesar_keeps_letter_class this text :
  Forall2 (λ c d, keeps_letter_class c d = true) text
    (Tughra._encryptReversedCaesar this text).
Proof.
  apply replace_keeps_letter_class. intros c Hc.
  unfold keeps_letter_class. rewrite Hc. cbv zeta.
  set (k := Z.of_nat (length (Tughra.encryptionKey this))).
  assert (0 ≤ k) as Hk by (unfold k; lia).
  assert (65 ≤ c ≤ 90 ∨ 97 ≤ c ≤ 122) as Hrange.
  { unfold Tughra.is_letter in Hc. apply orb_true_iff in Hc.
    destruct Hc as [Hc|Hc]; apply bool_decide_eq_true in Hc; lia. }
  clear Hc. unfold JS.fromCharCode, JS.ToUint16.
  destruct Hrange as [Hrange|Hrange].
  - assert (Tughra.letter_base c = 65) as ->
      by (unfold Tughra.letter_base; by rewrite bool_decide_eq_true_2 by lia).
    set (e := Z.rem (25 - (c - 65) + k) 26 + 65).
    assert (65 ≤ e ≤ 90) as He by (unfold e; div_mod_lia).
    rewrite (Z.mod_small e) by lia. unfold Tughra.is_letter, Tughra.letter_base.
    rewrite (bool_decide_eq_true_2 (65 ≤ e ≤ 90)) by done.
    by rewrite (bool_decide_eq_true_2 (e ≤ 90)) by lia.
  - assert (Tughra.letter_base c = 97) as ->
      by (unfold Tughra.letter_base; by rewrite bool_decide_eq_false_2 by lia).
    set (e := Z.rem (25 - (c - 97) + k) 26 + 97).
    assert (97 ≤ e ≤ 122) as He by (unfold e; div_mod_lia).
    rewrite (Z.mod_small e) by lia. unfold Tughra.is_letter, Tughra.letter_base.
    rewrite (bool_decide_eq_true_2 (97 ≤ e ≤ 122)) by done.
    rewrite (bool_decide_eq_false_2 (e ≤ 90)) by lia.
    by rewrite orb_true_r.
Qed.

Section letter_variants.
Context {host : Host}.
Variable this : Tughra.t.
Hypothesis table :
  Tughra.substitutionKey this = Object_fromEntries Tughra.substitution_entries.
Hypothesis reverse_table :
  Tughra.reverseSubstitutionKey this
  = Object_fromEntries ((λ kv, (kv.2, kv.1)) <$> Tughra.substitution_entries).
Hypothesis affine_a : Tughra.a this = 5.
Hypothesis affine_b : Tughra.b this = 8.
Hypothesis affine_m : Tughra.m this = 26.
Hypothesis letter_variant :
  Tughra.mode this = "encrypt"%string
  ∧ Tughra.switch (Tughra.algorithm this)
    ∈ [Tughra.Atbash; Tughra.ReversedCaesar]
  ∨ Tughra.switch (Tughra.algorithm this)
    ∈ [Tughra.Substitution; Tughra.Affine; Tughra.ROT13; Tughra.ROT18;
       Tughra.ROT25; Tughra.ROT30; Tughra.AffinePro; Tughra.SubstitutionPro].

Lemma letter_cycle r :
  ∃ y, Tughra._processCycle this r (Tughra.mode this) = Normal y
       ∧ Forall2 (λ c d, keeps_letter_class c d = true) r y.
Proof.
  unfold Tughra._processCycle.
  destruct letter_variant as [[-> Hv]|Hv].
  - change (String.eqb "encrypt" "encrypt") with true.
    apply elem_of_cons in Hv as [->|Hv].
    { eexists. split; [done|]. apply replace_keeps_letter_class.
      apply letters_keep_letter_class. by vm_compute. }
    apply elem_of_cons in Hv as [->|Hv]; [|by apply elem_of_nil in Hv].
    eexists. split; [done|]. apply ReversedCaesar_keeps_letter_class.
  - repeat (apply elem_of_cons in Hv as [->|Hv]; [
      destruct (String.eqb (Tughra.mode this) "encrypt");
      unfold Tughra._encryptSubstitution, Tughra._decryptSubstitution,
        Tughra._encryptSubstitutionPro, Tughra._decryptSubstitutionPro,
        Tughra._encryptAffine, Tughra._decryptAffine,
        Tughra._encryptAffinePro, Tughra._decryptAffinePro;
      rewrite ?table, ?reverse_table, ?affine_a, ?affine_b, ?affine_m;
      try change (Tughra._modInverse 5 26) with (Some 21);
      cbv beta iota;
      (eexists; split; [reflexivity|]);
      first
        [ apply substitution_keeps_letter_class; by vm_compute
        | apply replace_keeps_letter_class, letters_keep_letter_class;
          by vm_compute ]
      |]).
    by apply elem_of_nil in Hv.
Qed.

Lemma letter_cycles (n : nat) text :
  ∃ r, for_loop n (λ r, Tughra._processCycle this r (Tughra.mode this)) text
       = Normal r
       ∧ Forall2 (λ c d, keeps_letter_class c d = true) text r.
Proof.
  induction n as [|n (r & Hr & Hkeeps)].
  - exists text. split; [done|]. apply Forall_Forall2_diag, Forall_forall.
    intros c _. unfold keeps_letter_class.
    destruct (Tughra.is_letter c); by apply bool_decide_eq_true.
  - destruct (letter_cycle r) as (y & Hy & Hstep). exists y.
    rewrite for_loop_snoc, Hr. split; [done|].
    by eapply keeps_letter_class_cycles.
Qed.
End letter_variants.

(** X11. The variants that replace letters ('Atbash' and 'Reversed
    Caesar' when encrypting; 'Substitution', 'Substitution Pro', 'Affine',
    'Affine Pro', 'ROT13', 'ROT18', 'ROT25' and 'ROT30' in any mode) never
    fail without base encoding, and whatever the cycle count they put a
    letter of the same case where a letter of A-Z or a-z stood and leave
    every other code unit as it is: a text without these letters comes
    back unchanged. *)
Theorem letter_variants_keep_the_rest {host : Host} (mode algorithm : string)
    (charset key text : jsstring) (n : Z) (this : Tughra.t) :
  Tughra.constructor mode charset algorithm key false = Normal this →
  Tughra.mode this = "encrypt"%string
  ∧ Tughra.switch algorithm ∈ [Tughra.Atbash; Tughra.ReversedCaesar]
  ∨ Tughra.switch algorithm
    ∈ [Tughra.Substitution; Tughra.Affine; Tughra.ROT13; Tughra.ROT18;
       Tughra.ROT25; Tughra.ROT30; Tughra.AffinePro; Tughra.SubstitutionPro] →
  ∃ result,
    Tughra.process this text n = Normal result
    ∧ Forall2 (λ c d, keeps_letter_class c d = true) text result
    ∧ (Forall (λ c, Tughra.is_letter c = false) text → result = text).
Proof.
  intros Hthis%constructor_inv Hvariant.
  destruct (letter_cycles this) with
    (n := Z.to_nat
       (if String.eqb (Tughra.algorithm this) "xor"
           || String.eqb (Tughra.algorithm this) "ROT47"
           || String.eqb (Tughra.algorithm this) "ROT13" then 1 else n))
    (text := text) as (result & Hresult & Hkeeps); [by subst..| |].
  { replace (Tughra.switch (Tughra.algorithm this))
      with (Tughra.switch algorithm); [done|].
    subst this. simpl. by rewrite switch_empty. }
  exists result. rewrite process_cycles_only by (by subst).
  split; [done|]. split; [done|]. intros Hrest.
  clear Hresult. induction Hkeeps as [|c d text result Hcd _ IH]; [done|].
  apply Forall_cons_1 in Hrest as [Hc Hrest]. unfold keeps_letter_class in Hcd.
  rewrite Hc in Hcd. apply bool_decide_eq_true in Hcd as ->.
  by rewrite IH.
Qed.

Lemma letter_variants_keep_the_rest_witness :
  ∃ this,
    Tughra.constructor "encrypt" [] "Affine" (js "abcdefgh") false = Normal this
    ∧ Tughra.process (host := example_host) this [0x645; 0x631; 0x62D; 0x628; 0x627] 4
      = Normal [0x645; 0x631; 0x62D; 0x628; 0x627].
Proof.
  eexists. split; [reflexivity|].
  destruct (letter_variants_keep_the_rest (host := example_host) "encrypt" "Affine" []
              (js "abcdefgh") [0x645; 0x631; 0x62D; 0x628; 0x627] 4 _ eq_refl)
    as (result & -> & _ & Hsame).
  - right. change (Tughra.switch "Affine") with Tughra.Affine.
    repeat constructor.
  - f_equal. apply Hsame. apply (bool_decide_unpack _). by vm_compute.
Defined.

(** ** Identifiers that name the same cipher *)

(** Two instances that differ in how they name one cycle are processed
    alike. *)
Lemma process_ext {host : Host} (this1 this2 : Tughra.t) text n :
  Tughra.mode this1 = Tughra.mode this2 →
  Tughra.useBaseEncoding this1 = Tughra.useBaseEncoding this2 →
  Tughra.baseLibrary this1 = Tughra.baseLibrary this2 →
  String.eqb (Tughra.algorithm this1) "xor"
  || String.eqb (Tughra.algorithm this1) "ROT47"
  || String.eqb (Tughra.algorithm this1) "ROT13"
  = String.eqb (Tughra.algorithm this2) "xor"
    || String.eqb (Tughra.algorithm this2) "ROT47"
    || String.eqb (Tughra.algorithm this2) "ROT13" →
  (∀ r, Tughra._processCycle this1 r (Tughra.mode this1)
        = Tughra._processCycle this2 r (Tughra.mode this1)) →
  Tughra.process this1 text n = Tughra.process this2 text n.
Proof.
  intros Hmode Hub Hlib Hforced Hstep.
  assert (Hfrom : ∀ s, Tughra.fromBase this1 s = Tughra.fromBase this2 s).
  { intros s. unfold Tughra.fromBase. by rewrite Hlib. }
  assert (Hto : ∀ s, Tughra.toBase this1 s = Tughra.toBase this2 s).
  { intros s. unfold Tughra.toBase. by rewrite Hlib. }
  unfold Tughra.process. rewrite Hforced, <- Hub, <- Hmode, Hfrom.
  destruct (if _ && _ then _ else _) as [text'| |]; simpl; [|done..].
  rewrite (for_loop_ext _ _ _ _ Hstep).
  destruct (for_loop _ _ _) as [r| |]; simpl; [|done..].
  by rewrite Hto.
Qed.

(** Two replacements of letters that agree on the 52 letters agree on
    every text. *)
Lemma replace_letters_ext f g text :
  forallb (λ c, bool_decide (f c = g c)) letters = true →
  Tughra.replace Tughra.is_letter f text = Tughra.replace Tughra.is_letter g text.
Proof.
  intros Hall. apply list_fmap_ext. intros _ c _.
  destruct (Tughra.is_letter c) eqn:Hc; [|done].
  apply is_letter_letters in Hc. rewrite forallb_forall in Hall.
  apply list_elem_of_In, Hall in Hc. by apply bool_decide_eq_true in Hc.
Qed.

(** X12. Some identifiers name one and the same cipher: on instances
    constructed with the same other arguments, 'ASCII' and 'Unicode Shift'
    give what 'caesar' gives, 'Affine Pro' what 'Affine' gives and
    'Substitution Pro' what 'Substitution' gives, for every text, mode,
    cycle count and base encoding. *)
Theorem identifiers_of_one_cipher {host : Host} (mode algorithm1 algorithm2 : string)
    (charset key text : jsstring) (ub : bool) (n : Z) (this1 this2 : Tughra.t) :
  Tughra.constructor mode charset algorithm1 key ub = Normal this1 →
  Tughra.constructor mode charset algorithm2 key ub = Normal this2 →
  (algorithm1, algorithm2)
  ∈ [("caesar", "ASCII"); ("caesar", "Unicode Shift");
     ("Affine", "Affine Pro"); ("Substitution", "Substitution Pro")]%string →
  Tughra.process this1 text n = Tughra.process this2 text n.
Proof.
  intros H1%constructor_inv H2%constructor_inv Hpair.
  apply process_ext; [by subst..| |].
  { repeat (apply elem_of_cons in Hpair as [[= -> ->]|Hpair]; [by subst|]).
    by apply elem_of_nil in Hpair. }
  intros r. unfold Tughra._processCycle.
  repeat (apply elem_of_cons in Hpair as [[= -> ->]|Hpair];
          [subst this1 this2; cbn [Tughra.algorithm Tughra.mode];
           try done|]); [|by apply elem_of_nil in Hpair].
  change (Tughra.switch (if String.eqb "Affine" "" then "default" else "Affine"))
    with Tughra.Affine.
  change (Tughra.switch
            (if String.eqb "Affine Pro" "" then "default" else "Affine Pro"))
    with Tughra.AffinePro.
  cbv beta iota.
  unfold Tughra._encryptAffine, Tughra._decryptAffine, Tughra._encryptAffinePro,
    Tughra._decryptAffinePro. cbn [Tughra.a Tughra.b Tughra.m].
  change (Tughra._modInverse 5 26) with (Some 21). cbv beta iota.
  destruct (String.eqb _ "encrypt"); f_equal;
    apply (replace_letters_ext _ _ r); by vm_compute.
Qed.

Lemma identifiers_of_one_cipher_witness :
  ∃ this1 this2,
    Tughra.constructor "decrypt" [] "Affine" (js "abcdefgh") true = Normal this1
    ∧ Tughra.constructor "decrypt" [] "Affine Pro" (js "abcdefgh") true
      = Normal this2
    ∧ Tughra.process (host := example_host) this1 (js "Tughra") 3 = Tughra.process (host := example_host) this2 (js "Tughra") 3.
Proof.
  eexists _, _. split; [reflexivity|]. split; [reflexivity|].
  apply (identifiers_of_one_cipher "decrypt" "Affine" "Affine Pro" []
           (js "abcdefgh") (js "Tughra") true 3); [reflexivity..|].
  apply (bool_decide_unpack _). by vm_compute.
Defined.

(** * The worker and the library *)

(** ** What the worker answers *)


(** ** The characters of a group *)

Lemma find_group_Some this groupName group :
  TughraLibrary.find_group this groupName = Some group →
  group ∈ TughraLibrary.unicodeGroups this
  ∧ js (TughraLibrary.name group) = groupName.
Proof.
  unfold TughraLibrary.find_group.
  intros ([i g] & Hfind & ->)%fmap_Some.
  apply list_find_Some in Hfind as (Hi & Hname & _).
  split; [|done]. by eapply list_elem_of_lookup_2.
Qed.

(** The string iterator reads back the code points a string was written
    from, when none of them is a surrogate. *)
Lemma String_iterator_utf16_units cps :
  Forall scalar_value cps →
  JS.String_iterator (cps ≫= JS.utf16_units) = JS.utf16_units <$> cps.
Proof.
  induction 1 as [|cp cps [Hcp Hsur] _ IH]; [done|].
  rewrite bind_cons, fmap_cons, <- IH. unfold JS.utf16_units at 1 3.
  case_bool_decide as Hbmp.
  - cbn [app]. destruct (cps ≫= JS.utf16_units) as [|d rest]; [done|].
    rewrite String_iterator_cons. unfold JS.is_high_surrogate.
    by rewrite bool_decide_eq_false_2 by lia.
  - bits_to_arith. cbn [app]. rewrite String_iterator_cons.
    unfold JS.is_high_surrogate, JS.is_low_surrogate.
    rewrite !bool_decide_eq_true_2 by div_mod_lia. done.
Qed.

Lemma codePoint_utf16_units cp :
  scalar_value cp → JS.codePoint (JS.utf16_units cp) = cp.
Proof.
  intros [Hcp Hsur]. unfold JS.utf16_units. case_bool_decide; [done|].
  bits_to_arith. simpl. div_mod_lia.
Qed.

Lemma concat_fmap_bind {A B} (f : A → list B) (l : list A) :
  concat (f <$> l) = l ≫= f.
Proof.
  induction l as [|x l IH]; [done|].
  rewrite fmap_cons, bind_cons. simpl. by rewrite IH.
Qed.

Lemma mapM_fromCodePoint cps :
  Forall scalar_value cps →
  mapM TughraLibrary.fromCodePoint cps = Some (JS.utf16_units <$> cps).
Proof.
  intros Hcps. apply mapM_Some, Forall2_fmap_r, Forall_Forall2_diag.
  eapply Forall_impl; [exact Hcps|]. intros cp [Hcp _].
  unfold TughraLibrary.fromCodePoint. by rewrite bool_decide_eq_true_2.
Qed.

(** No group of the table reaches into the surrogates or beyond the last
    code point. *)
Lemma unicodeGroups_scalar group :
  group ∈ TughraLibrary.unicodeGroups TughraLibrary.constructor →
  0 ≤ TughraLibrary.start group
  ∧ TughraLibrary.start group ≤ TughraLibrary.end_ group
  ∧ (TughraLibrary.end_ group < 0xD800
     ∨ 0xDFFF < TughraLibrary.start group
       ∧ TughraLibrary.end_ group ≤ 0x10FFFF).
Proof.
  revert group. apply Forall_forall. apply (bool_decide_unpack _). by vm_compute.
Qed.

(** X14. [displayCharacters] gives the empty string for a name that is
    not in the table, and for a name of the table exactly the characters
    from [start] to [end], in order, one for every code point: the
    surrogate pairs of the groups above U+FFFF are whole, and
    [String.fromCodePoint] never throws. *)
Theorem displayCharacters_code_points (groupName : jsstring) :
  match TughraLibrary.find_group TughraLibrary.constructor groupName with
  | None =>
      TughraLibrary.displayCharacters TughraLibrary.constructor groupName
      = Some []
  | Some group =>
      ∃ characters,
        TughraLibrary.displayCharacters TughraLibrary.constructor groupName
        = Some characters
        ∧ JS.codePoint <$> JS.String_iterator characters
          = seqZ (TughraLibrary.start group)
              (TughraLibrary.end_ group - TughraLibrary.start group + 1)
  end.
Proof.
  unfold TughraLibrary.displayCharacters.
  destruct (TughraLibrary.find_group _ groupName) as [group|] eqn:Hfind; [|done].
  apply find_group_Some in Hfind as [Hgroup _].
  destruct (unicodeGroups_scalar group Hgroup) as (Hstart & Hend & Hrange).
  set (cps := seqZ (TughraLibrary.start group)
                (TughraLibrary.end_ group - TughraLibrary.start group + 1)).
  assert (Forall scalar_value cps) as Hcps.
  { apply Forall_forall. intros cp Hcp%elem_of_seqZ. unfold scalar_value. lia. }
  exists (cps ≫= JS.utf16_units).
  rewrite mapM_fromCodePoint by done. split.
  - simpl. by rewrite concat_fmap_bind.
  - rewrite String_iterator_utf16_units by done.
    rewrite <- list_fmap_compose. rewrite <- (list_fmap_id cps) at 2.
    apply Forall_fmap_ext. eapply Forall_impl; [exact Hcps|].
    intros cp Hcp. by apply codePoint_utf16_units.
Qed.

(** ** Generated keys *)

Lemma split_nonempty c s : JS.split c s ≠ [].
Proof.
  induction s as [|x s IH]; [done|]. simpl.
  case_bool_decide; [done|]. by destruct (JS.split c s).
Qed.

Lemma storedGroups_found this groupNames groups :
  TughraLibrary.storedGroups this groupNames = inr groups →
  Forall2 (λ groupName group,
    TughraLibrary.find_group this (TughraLibrary.trim groupName) = Some group)
    groupNames groups.
Proof.
  revert groups. induction groupNames as [|groupName rest IH]; intros groups.
  - by intros [= <-].
  - simpl. destruct (TughraLibrary.find_group _ _) as [group|] eqn:Hfind; [|done].
    destruct (TughraLibrary.storedGroups this rest) as [bad|found]; [done|].
    intros [= <-]. constructor; [done | by apply IH].
Qed.

Lemma storedGroups_invalid this groupNames trimmedGroupName :
  TughraLibrary.storedGroups this groupNames = inl trimmedGroupName →
  ∃ valid groupName rest,
    groupNames = valid ++ groupName :: rest
    ∧ Forall (λ name,
        is_Some (TughraLibrary.find_group this (TughraLibrary.trim name)))
        valid
    ∧ trimmedGroupName = TughraLibrary.trim groupName
    ∧ TughraLibrary.find_group this trimmedGroupName = None.
Proof.
  induction groupNames as [|groupName rest IH]; [done|]. simpl.
  destruct (TughraLibrary.find_group this (TughraLibrary.trim groupName))
    as [group|] eqn:Hfind.
  - destruct (TughraLibrary.storedGroups this rest) as [bad|found]; [|done].
    intros [= <-].
    destruct (IH eq_refl) as (valid & name & rest' & -> & Hvalid & Htrim & Hnone).
    exists (groupName :: valid), name, rest'. split; [done|].
    split; [|done]. constructor; [by rewrite Hfind | done].
  - intros [= <-]. exists [], groupName, rest. by repeat split.
Qed.

Lemma mapM_option_Forall {A B} (f : A → option B) (P : B → Prop) (l : list A) :
  (∀ x, ∃ y, f x = Some y ∧ P y) →
  ∃ ys, mapM f l = Some ys ∧ length ys = length l ∧ Forall P ys.
Proof.
  intros Hf. induction l as [|x l (ys & Hys & Hlen & HP)]; [by exists []|].
  destruct (Hf x) as (y & Hy & HPy). exists (y :: ys).
  simpl. rewrite Hy, Hys. simpl. split; [done|]. split; [by rewrite Hlen|].
  by constructor.
Qed.

(** X15. Whatever [Math.random] returns, [generateKey] checks the names
    first, in order, and throws for the first one that, trimmed, is not a
    name of the table, even when no character is asked for: it throws
    exactly when there is such a name. When every name is one, it returns
    exactly [cycles] one-unit strings, never [undefined], and the unit of
    each is [j mod 65536] for a code point [j] of one of the named groups:
    [String.fromCharCode] cuts the code points above U+FFFF down to 16
    bits. *)
Theorem generateKey_outcome (random_floor : nat → nat → nat) (cycles : Z)
    (groupNames : jsstring) :
  (∀ k n, (0 < n)%nat → (random_floor k n < n)%nat) →
  match TughraLibrary.generateKey random_floor TughraLibrary.constructor
          cycles groupNames with
  | TughraLibrary.Returned encryptionArray =>
      Forall (λ groupName,
        is_Some (TughraLibrary.find_group TughraLibrary.constructor
                   (TughraLibrary.trim groupName)))
        (JS.split 44 groupNames)
      ∧ length encryptionArray = Z.to_nat cycles
      ∧ Forall (λ item, ∃ groupName group j,
          groupName ∈ JS.split 44 groupNames
          ∧ TughraLibrary.find_group TughraLibrary.constructor
              (TughraLibrary.trim groupName) = Some group
          ∧ TughraLibrary.start group ≤ j ≤ TughraLibrary.end_ group
          ∧ item = Some [j `mod` 65536]) encryptionArray
  | TughraLibrary.InvalidUnicodeGroupName trimmedGroupName =>
      ∃ valid groupName rest,
        JS.split 44 groupNames = valid ++ groupName :: rest
        ∧ Forall (λ name,
            is_Some (TughraLibrary.find_group TughraLibrary.constructor
                       (TughraLibrary.trim name))) valid
        ∧ trimmedGroupName = TughraLibrary.trim groupName
        ∧ TughraLibrary.find_group TughraLibrary.constructor trimmedGroupName
          = None
  | TughraLibrary.UndefinedGroup => False
  end.
Proof.
  intros Hrandom. unfold TughraLibrary.generateKey.
  destruct (TughraLibrary.storedGroups _ _) as [bad|groups] eqn:Hstored.
  { by apply storedGroups_invalid. }
  apply storedGroups_found in Hstored.
  assert (0 < length groups)%nat as Hgroups.
  { rewrite <- (Forall2_length _ _ _ Hstored).
    pose proof (split_nonempty 44 groupNames).
    destruct (JS.split 44 groupNames); simpl; [done | lia]. }
  match goal with |- context [mapM ?f ?l] =>
    destruct (mapM_option_Forall f (λ item, ∃ groupName group j,
      groupName ∈ JS.split 44 groupNames
      ∧ TughraLibrary.find_group TughraLibrary.constructor
          (TughraLibrary.trim groupName) = Some group
      ∧ TughraLibrary.start group ≤ j ≤ TughraLibrary.end_ group
      ∧ item = Some [j `mod` 65536]) l) as (items & -> & Hlen & Hitems)
  end.
  - intros i.
    destruct (lookup_lt_is_Some_2 groups
                (random_floor (2 * i)%nat (length groups))) as [group Hgroup];
      [by apply Hrandom|].
    rewrite Hgroup. cbn [mbind option_bind].
    destruct (Forall2_lookup_r _ _ _ _ _ Hstored Hgroup)
      as (groupName & HgroupName & Hfind).
    destruct (find_group_Some _ _ _ Hfind) as [Hin _].
    destruct (unicodeGroups_scalar group Hin) as (Hstart & Hend & _).
    set (n := TughraLibrary.end_ group - TughraLibrary.start group + 1).
    rewrite list_lookup_fmap, length_fmap, length_seqZ.
    set (randomIndex := random_floor (2 * i + 1)%nat (Z.to_nat n)).
    assert (randomIndex < Z.to_nat n)%nat as Hindex
      by (apply Hrandom; unfold n; lia).
    rewrite (lookup_seqZ_lt _ _ randomIndex) by lia.
    eexists. split; [done|].
    exists groupName, group, (TughraLibrary.start group + Z.of_nat randomIndex).
    split; [by eapply list_elem_of_lookup_2|]. split; [done|].
    split; [unfold n in Hindex; lia | done].
  - simpl. split; [|split; [by rewrite Hlen, length_seq | done]].
    apply Forall_forall. intros groupName Hin.
    apply list_elem_of_lookup in Hin as [i Hi].
    destruct (Forall2_lookup_l _ _ _ _ _ Hstored Hi) as (group & _ & ->).
    by eexists.
Qed.

(** Three names with blanks around them give five characters; with the
    second of three names misspelt, it is that name that is reported,
    though the third is wrong too and no character is asked for. *)
Lemma generateKey_outcome_witness :
  TughraLibrary.generateKey (λ k n, (7 * k + 3) `mod` n)%nat
    TughraLibrary.constructor 5 (js "Numbers, Gothic ,Arabic")
  = TughraLibrary.Returned
      [Some [48]; Some [1560]; Some [822]; Some [50]; Some [1602]]
  ∧ TughraLibrary.generateKey (λ k n, (7 * k + 3) `mod` n)%nat
      TughraLibrary.constructor 0 (js "Numbers, gothic,arabic")
    = TughraLibrary.InvalidUnicodeGroupName (js "gothic").
Proof.
  assert (∀ k n, (0 < n)%nat → ((7 * k + 3) `mod` n < n)%nat) as Hrandom
    by (intros k n Hn; apply Nat.mod_upper_bound; lia).
  split; [reflexivity|].
  pose proof (generateKey_outcome (λ k n, (7 * k + 3) `mod` n)%nat 0
                (js "Numbers, gothic,arabic") Hrandom) as H.
  destruct (TughraLibrary.generateKey _ _ 0 (js "Numbers, gothic,arabic"))
    as [key|bad|] eqn:Hkey; [by vm_compute in Hkey| |done].
  destruct H as (valid & groupName & rest & Hsplit & Hvalid & -> & Hnone).
  f_equal.
  destruct valid as [|name1 valid].
  { injection Hsplit as <- _. by vm_compute in Hnone. }
  destruct valid as [|name2 valid].
  { by injection Hsplit as _ <- _. }
  injection Hsplit as _ <- Hrest.
  apply Forall_cons_1 in Hvalid as [_ Hvalid].
  apply Forall_cons_1 in Hvalid as [[group Hgroup] _].
  by vm_compute in Hgroup.
Defined.

(** ** The group most of a text is written in *)

Lemma most_frequent_snoc counts groupName count :
  most_frequent (counts ++ [(groupName, count)])
  = if bool_decide (count > (most_frequent counts).2)
    then (Some groupName, count) else most_frequent counts.
Proof.
  unfold most_frequent. rewrite foldl_snoc.
  by destruct (foldl _ _ counts) as [detected maxCount].
Qed.

(** What the last loop keeps: the largest count so far, and the first name
    that has it, when it is above 0. *)
Lemma most_frequent_invariant counts :
  let detected := (most_frequent counts).1 in
  let maxCount := (most_frequent counts).2 in
  (∀ j name count, counts !! j = Some (name, count) → count ≤ maxCount)
  ∧ match detected with
    | None => maxCount = 0
    | Some name =>
        0 < maxCount
        ∧ ∃ i, counts !! i = Some (name, maxCount)
               ∧ ∀ j name' count, (j < i)%nat →
                   counts !! j = Some (name', count) → count < maxCount
    end.
Proof.
  induction counts as [|[groupName count] counts IH] using rev_ind; [done|].
  cbv zeta in *. rewrite most_frequent_snoc.
  destruct (most_frequent counts) as [detected maxCount]. simpl in *.
  destruct IH as [Hmax Hfirst].
  assert (Hlookup : ∀ j name' count',
    (counts ++ [(groupName, count)]) !! j = Some (name', count') →
    counts !! j = Some (name', count') ∧ (j < length counts)%nat
    ∨ j = length counts ∧ name' = groupName ∧ count' = count).
  { intros j name' count' Hj. apply lookup_app_Some in Hj as [Hj|[Hlen Hj]].
    - left. split; [done|]. by eapply lookup_lt_Some.
    - right. apply list_lookup_singleton_Some in Hj as [Hj [= <- <-]].
      split; [lia | done]. }
  case_bool_decide as Hcount; simpl.
  - split.
    + intros j name' count' [[Hj _]|(_ & _ & ->)]%Hlookup; [|lia].
      apply Hmax in Hj. lia.
    + split; [destruct detected; lia|]. exists (length counts). split.
      * by rewrite lookup_app_r, Nat.sub_diag by lia.
      * intros j name' count' Hj [[Hj' _]|(-> & _)]%Hlookup; [|lia].
        apply Hmax in Hj'. lia.
  - split.
    + intros j name' count' [[Hj _]|(_ & _ & ->)]%Hlookup; [|lia].
      by apply Hmax in Hj.
    + destruct detected as [name|]; [|done].
      destruct Hfirst as (Hpos & i & Hi & Hbefore). split; [done|].
      exists i. split; [by apply lookup_app_l_Some|].
      intros j name' count' Hj [[Hj' _]|(-> & _)]%Hlookup.
      * by eapply Hbefore.
      * apply lookup_lt_Some in Hi. lia.
Qed.

Lemma most_frequent_spec counts groupName :
  (most_frequent counts).1 = Some groupName
  ↔ ∃ i count,
      counts !! i = Some (groupName, count) ∧ 0 < count
      ∧ ∀ j name' count', counts !! j = Some (name', count') →
          count' ≤ count ∧ ((j < i)%nat → count' < count).
Proof.
  pose proof (most_frequent_invariant counts) as [Hmax Hfirst].
  cbv zeta in *. destruct (most_frequent counts) as [detected maxCount].
  simpl in *. split.
  - intros ->. destruct Hfirst as (Hpos & i & Hi & Hbefore).
    exists i, maxCount. split; [done|]. split; [done|].
    intros j name' count' Hj. split; [by eapply Hmax|].
    intros Hlt. by eapply Hbefore.
  - intros (i & count & Hi & Hpos & Hall).
    pose proof (Hmax _ _ _ Hi) as Hle.
    destruct detected as [name|]; [|lia].
    destruct Hfirst as (_ & i' & Hi' & Hbefore).
    destruct (Hall _ _ _ Hi') as [Hle' Hlt'].
    assert (maxCount = count) as -> by lia.
    destruct (decide (i' < i)%nat) as [Hii|Hii]; [specialize (Hlt' Hii); lia|].
    destruct (decide (i < i')%nat) as [Hii'|Hii'].
    { pose proof (Hbefore _ _ _ Hii' Hi). lia. }
    assert (i' = i) as -> by lia. congruence.
Qed.

(** The names of the table are distinct. *)
Lemma unicodeGroups_names :
  NoDup (TughraLibrary.name
           <$> TughraLibrary.unicodeGroups TughraLibrary.constructor).
Proof. apply (bool_decide_unpack _). by vm_compute. Qed.

Lemma counts_increment_counts (groupName : string) (c : TughraLibrary.group → Z)
    (groups : list TughraLibrary.group) :
  TughraLibrary.counts_increment groupName
    ((λ g, (TughraLibrary.name g, c g)) <$> groups)
  = (λ g, (TughraLibrary.name g,
           c g + if bool_decide (TughraLibrary.name g = groupName)
                 then 1 else 0)) <$> groups.
Proof.
  unfold TughraLibrary.counts_increment. rewrite <- list_fmap_compose.
  apply list_fmap_ext. intros _ g _. simpl.
  case_bool_decide; [done|]. by rewrite Z.add_0_r.
Qed.

Lemma head_charCodeAt (char : jsstring) : JS.charCodeAt char 0 = head char.
Proof. by destruct char. Qed.

(** The counts after the loop over the characters. *)
Lemma counted (chars : list jsstring) (c : TughraLibrary.group → Z)
    (groups : list TughraLibrary.group) :
  foldl (λ counts char,
    match JS.charCodeAt char 0 with
    | None => counts
    | Some charCode =>
        match list_find (λ group,
                TughraLibrary.start group ≤ charCode
                ∧ charCode ≤ TughraLibrary.end_ group)
                (TughraLibrary.unicodeGroups TughraLibrary.constructor) with
        | Some (_, group) =>
            TughraLibrary.counts_increment (TughraLibrary.name group) counts
        | None => counts
        end
    end)
    ((λ g, (TughraLibrary.name g, c g)) <$> groups) chars
  = (λ g, (TughraLibrary.name g,
           c g + Z.of_nat (length (filter
                   (λ char, counts_for (TughraLibrary.name g) char) chars))))
      <$> groups.
Proof.
  revert c. induction chars as [|char chars IH]; intros c.
  { cbn [foldl]. apply list_fmap_ext. intros _ g _.
    by rewrite filter_nil, Z.add_0_r. }
  cbn [foldl]. rewrite head_charCodeAt.
  assert (Hstep : ∀ g, Z.of_nat (length (filter
              (λ char, counts_for (TughraLibrary.name g) char) (char :: chars)))
            = (if bool_decide (TughraLibrary.name <$> (head char ≫= group_of)
                               = Some (TughraLibrary.name g)) then 1 else 0)
              + Z.of_nat (length (filter
                  (λ char, counts_for (TughraLibrary.name g) char) chars))).
  { intros g. rewrite filter_cons.
    change (bool_decide (TughraLibrary.name <$> (head char ≫= group_of)
                         = Some (TughraLibrary.name g)))
      with (counts_for (TughraLibrary.name g) char).
    destruct (counts_for (TughraLibrary.name g) char); simpl; lia. }
  destruct (head char) as [charCode|] eqn:Hhead.
  - unfold group_of in Hstep. cbn [mbind option_bind] in Hstep.
    destruct (list_find _ _) as [[i group]|] eqn:Hfind.
    + rewrite counts_increment_counts, IH. apply list_fmap_ext. intros _ g _.
      rewrite Hstep. cbn [fmap option_fmap option_map snd]. f_equal.
      destruct (decide (TughraLibrary.name g = TughraLibrary.name group)) as [Hg|Hg].
      * rewrite !bool_decide_eq_true_2 by congruence. lia.
      * rewrite !bool_decide_eq_false_2 by congruence. lia.
    + rewrite IH. apply list_fmap_ext. intros _ g _. rewrite Hstep.
      cbn [fmap option_fmap option_map].
      rewrite bool_decide_eq_false_2 by done. f_equal.
  - rewrite IH. apply list_fmap_ext. intros _ g _. rewrite Hstep.
    cbn [mbind option_bind fmap option_fmap option_map].
    rewrite bool_decide_eq_false_2 by done. f_equal.
Qed.

Lemma detectLanguage_most_frequent_count text :
  TughraLibrary.detectLanguage TughraLibrary.constructor text
  = (most_frequent
       ((λ g, (TughraLibrary.name g, occurrences text g))
          <$> TughraLibrary.unicodeGroups TughraLibrary.constructor)).1.
Proof.
  unfold TughraLibrary.detectLanguage. cbv zeta.
  assert (foldl (λ counts group,
            TughraLibrary.counts_assign (TughraLibrary.name group) 0 counts) []
            (TughraLibrary.unicodeGroups TughraLibrary.constructor)
          = (λ g, (TughraLibrary.name g, 0))
              <$> TughraLibrary.unicodeGroups TughraLibrary.constructor) as ->
    by (by vm_compute).
  rewrite (counted _ (λ _, 0)). reflexivity.
Qed.

(** X16. [detectLanguage] returns the name of the group that counts the
    most characters of the text, a character counting for the first group
    of the table that holds its first code unit; of several groups with
    the largest count, the one that comes first in the table; and [null]
    exactly when no character counts for any group. *)
Theorem detectLanguage_most_frequent (text : jsstring) (groupName : string) :
  (TughraLibrary.detectLanguage TughraLibrary.constructor text = Some groupName
   ↔ ∃ i group,
       TughraLibrary.unicodeGroups TughraLibrary.constructor !! i = Some group
       ∧ TughraLibrary.name group = groupName
       ∧ 0 < occurrences text group
       ∧ ∀ j other,
           TughraLibrary.unicodeGroups TughraLibrary.constructor !! j
           = Some other →
           occurrences text other ≤ occurrences text group
           ∧ ((j < i)%nat → occurrences text other < occurrences text group))
  ∧ (TughraLibrary.detectLanguage TughraLibrary.constructor text = None
     ↔ ∀ group,
         group ∈ TughraLibrary.unicodeGroups TughraLibrary.constructor →
         occurrences text group = 0).
Proof.
  rewrite detectLanguage_most_frequent_count.
  set (groups := TughraLibrary.unicodeGroups TughraLibrary.constructor).
  set (counts := (λ g, (TughraLibrary.name g, occurrences text g)) <$> groups).
  assert (Hcounts : ∀ j name count,
    counts !! j = Some (name, count)
    ↔ ∃ g, groups !! j = Some g ∧ TughraLibrary.name g = name
           ∧ occurrences text g = count).
  { intros j name count. unfold counts. rewrite list_lookup_fmap.
    destruct (groups !! j) as [g|]; simpl; split.
    - intros [= <- <-]. by exists g.
    - by intros (g' & [= <-] & <- & <-).
    - done.
    - by intros (g' & [=] & _). }
  split.
  - rewrite most_frequent_spec. split.
    + intros (i & count & Hi & Hpos & Hall).
      apply Hcounts in Hi as (group & Hgroup & Hname & <-).
      exists i, group. split; [done|]. split; [done|]. split; [done|].
      intros j other Hother. apply (Hall j (TughraLibrary.name other)).
      apply Hcounts. by exists other.
    + intros (i & group & Hgroup & Hname & Hpos & Hall).
      exists i, (occurrences text group). split; [|split; [done|]].
      * apply Hcounts. by exists group.
      * intros j name' count' (other & Hother & _ & <-)%Hcounts.
        by apply Hall.
  - pose proof (most_frequent_invariant counts) as [Hmax Hfirst].
    cbv zeta in *. destruct (most_frequent counts) as [detected maxCount].
    simpl in *. split.
    + intros ->. subst maxCount. intros group (j & Hj)%list_elem_of_lookup_1.
      assert (occurrences text group ≤ 0) as Hle.
      { apply (Hmax j (TughraLibrary.name group)). apply Hcounts. by exists group. }
      unfold occurrences in *. lia.
    + intros Hzero. destruct detected as [name|]; [|done].
      destruct Hfirst as (Hpos & i & Hi & _).
      apply Hcounts in Hi as (group & Hgroup & _ & Hocc).
      rewrite Hzero in Hocc by (by eapply list_elem_of_lookup_2). lia.
Qed.

Lemma detectLanguage_counted text groupName :
  TughraLibrary.detectLanguage TughraLibrary.constructor text = Some groupName →
  ∃ char charCode group,
    char ∈ JS.String_iterator text ∧ head char = Some charCode
    ∧ group_of charCode = Some group
    ∧ TughraLibrary.name group = groupName.
Proof.
  rewrite detectLanguage_most_frequent_count, most_frequent_spec.
  intros (i & count & Hi & Hpos & _).
  rewrite list_lookup_fmap in Hi.
  destruct (_ !! i) as [g|]; [|done]. injection Hi as <- <-.
  unfold occurrences in Hpos.
  destruct (filter _ (JS.String_iterator text)) as [|char chars] eqn:Hfilter;
    [simpl in Hpos; lia|].
  assert (char ∈ filter (λ char, counts_for (TughraLibrary.name g) char)
                   (JS.String_iterator text)) as Hchar
    by (rewrite Hfilter; by left).
  apply list_elem_of_filter in Hchar as [Hcounts Hchar].
  unfold counts_for in Hcounts. apply bool_decide_unpack in Hcounts.
  destruct (head char) as [charCode|] eqn:Hhead; [|done]. simpl in Hcounts.
  destruct (group_of charCode) as [group|] eqn:Hgroup; [|done].
  injection Hcounts as Hname. exists char, charCode, group.
  split; [done|]. split; [done|]. split; done.
Qed.

Lemma group_of_Some charCode group :
  group_of charCode = Some group →
  group ∈ TughraLibrary.unicodeGroups TughraLibrary.constructor
  ∧ TughraLibrary.start group ≤ charCode ≤ TughraLibrary.end_ group.
Proof.
  unfold group_of. intros ([i g] & Hfind & ->)%fmap_Some.
  apply list_find_Some in Hfind as (Hi & Hrange & _).
  split; [by eapply list_elem_of_lookup_2 | done].
Qed.

Lemma unicodeGroups_by_name group1 group2 :
  group1 ∈ TughraLibrary.unicodeGroups TughraLibrary.constructor →
  group2 ∈ TughraLibrary.unicodeGroups TughraLibrary.constructor →
  TughraLibrary.name group1 = TughraLibrary.name group2 → group1 = group2.
Proof.
  intros (i & Hi)%list_elem_of_lookup_1 (j & Hj)%list_elem_of_lookup_1 Hname.
  assert (i = j) as ->.
  { apply (NoDup_lookup _ i j (TughraLibrary.name group1) unicodeGroups_names);
      rewrite list_lookup_fmap; [by rewrite Hi | by rewrite Hj, Hname]. }
  congruence.
Qed.

(** X17. [detectLanguage] reads the first code unit of a character only,
    which for a character above U+FFFF is a high surrogate, held by no
    group: none of the groups of the table that start above U+FFFF is ever
    the answer, and a text written with such characters alone gives
    [null]. *)
Theorem detectLanguage_misses_supplementary (text : jsstring) :
  wf_string text →
  (∀ group,
     group ∈ TughraLibrary.unicodeGroups TughraLibrary.constructor →
     0xFFFF < TughraLibrary.start group →
     TughraLibrary.detectLanguage TughraLibrary.constructor text
     ≠ Some (TughraLibrary.name group))
  ∧ (Forall (λ char, 0xFFFF < JS.codePoint char) (JS.String_iterator text) →
     TughraLibrary.detectLanguage TughraLibrary.constructor text = None).
Proof.
  intros Hwf. pose proof (String_iterator_items text Hwf) as Hitems.
  rewrite Forall_forall in Hitems. split.
  - intros group Hgroup Hstart
      (char & charCode & group' & Hchar & Hhead & Hof & Hname)%detectLanguage_counted.
    apply group_of_Some in Hof as [Hgroup' Hrange].
    apply (unicodeGroups_by_name _ _ Hgroup' Hgroup) in Hname as ->.
    destruct (Hitems char Hchar) as [(c & -> & Hc)|(c & d & -> & Hc & Hd)];
      injection Hhead as <-; unfold code_unit in *; lia.
  - intros Hall.
    destruct (TughraLibrary.detectLanguage _ text) as [groupName|] eqn:Hdetect;
      [|done].
    apply detectLanguage_counted in Hdetect
      as (char & charCode & group & Hchar & Hhead & Hof & _).
    apply group_of_Some in Hof as [Hgroup Hrange].
    destruct (unicodeGroups_scalar group Hgroup) as (_ & _ & Hscalar).
    rewrite Forall_forall in Hall. specialize (Hall char Hchar).
    destruct (Hitems char Hchar) as [(c & -> & Hc)|(c & d & -> & Hc & Hd)];
      injection Hhead as <-; simpl in Hall; unfold code_unit in *; lia.
Qed.

Lemma detectLanguage_misses_supplementary_witness :
  TughraLibrary.detectLanguage TughraLibrary.constructor
    [0xD800; 0xDF30; 0xD800; 0xDF31] = None.
Proof.
  assert (wf_string [0xD800; 0xDF30; 0xD800; 0xDF31]) as Hwf
    by (apply (bool_decide_unpack _); by vm_compute).
  apply (detectLanguage_misses_supplementary _ Hwf).
  apply (bool_decide_unpack _). by vm_compute.
Defined.

(** ** The statistics of a text *)

Lemma length_utf8_bytes cp :
  0 ≤ cp ≤ 0x10FFFF →
  length (JS.utf8_bytes cp)
  = if bool_decide (cp < 0x80) then 1%nat
    else if bool_decide (cp < 0x800) then 2%nat
    else if bool_decide (cp < 0x10000) then 3%nat else 4%nat.
Proof.
  intros Hcp. rewrite utf8_bytes_arith by done. by repeat case_bool_decide.
Qed.

Lemma length_utf8_items (items : list jsstring) :
  Forall iterator_item items →
  (length (concat items)
   ≤ length (item ← items;
             JS.utf8_bytes (if JS.is_surrogate (JS.codePoint item)
                            then 0xFFFD else JS.codePoint item))
   ≤ 3 * length (concat items))%nat.
Proof.
  induction 1 as [|item items Hitem _ IH]; [simpl; lia|].
  rewrite bind_cons. cbn [concat]. rewrite !length_app.
  enough (length item ≤ length (JS.utf8_bytes
            (if JS.is_surrogate (JS.codePoint item) then 0xFFFD
             else JS.codePoint item)) ≤ 3 * length item)%nat by lia.
  destruct Hitem as [(c & -> & Hc)|(c & d & -> & Hc & Hd)]; simpl.
  - unfold code_unit in Hc.
    destruct (JS.is_surrogate c); rewrite length_utf8_bytes by lia;
      repeat case_bool_decide; lia.
  - unfold JS.is_surrogate. rewrite bool_decide_eq_false_2 by lia.
    rewrite length_utf8_bytes by lia. repeat case_bool_decide; lia.
Qed.

(** A string takes at least as many bytes in UTF-8 as it has code units,
    and at most three times as many. *)
Lemma length_TextEncoder_encode s :
  wf_string s →
  (length s ≤ length (JS.TextEncoder_encode s) ≤ 3 * length s)%nat.
Proof.
  intros Hitems%String_iterator_items.
  apply length_utf8_items in Hitems.
  by rewrite concat_String_iterator in Hitems.
Qed.

Lemma length_split_lines s :
  (1 ≤ length (TughraLibrary.split_lines s) ≤ length s + 1)%nat.
Proof.
  induction s as [s IH] using (induction_ltof1 _ length). unfold ltof in IH.
  destruct s as [|c s']; [simpl; lia|]. cbn [TughraLibrary.split_lines].
  case_bool_decide.
  - destruct s' as [|d s'']; [simpl; lia|]. case_bool_decide.
    + specialize (IH s''). simpl in *. lia.
    + specialize (IH (d :: s'')). simpl in *. lia.
  - specialize (IH s'). case_bool_decide; [simpl in *; lia|].
    destruct (TughraLibrary.split_lines s'); simpl in *; lia.
Qed.

(** Words take a unit each, and a unit between one and the next. *)
Lemma length_words in_separator s :
  ∃ p ps,
    TughraLibrary.split_white_space in_separator s = p :: ps
    ∧ (2 * length (filter (λ word, word ≠ []) (p :: ps))
       ≤ length s + if bool_decide (p ≠ []) then 1 else 0)%nat.
Proof.
  revert in_separator. induction s as [|c s' IH]; intros in_separator.
  { exists [], []. split; [done|]. rewrite filter_cons_False by (by intros []).
    simpl. lia. }
  cbn [TughraLibrary.split_white_space].
  destruct (JS.is_StrWhiteSpaceChar c).
  - destruct (IH true) as (p & ps & Hsplit & Hlen). destruct in_separator.
    + exists p, ps. split; [done|]. simpl. case_bool_decide; lia.
    + exists [], (p :: ps). rewrite Hsplit. split; [done|].
      rewrite filter_cons_False by (by intros []).
      rewrite bool_decide_eq_false_2 by (by intros []).
      simpl. case_bool_decide; lia.
  - destruct (IH false) as (p & ps & -> & Hlen). exists (c :: p), ps.
    split; [done|]. rewrite filter_cons_True by done.
    rewrite bool_decide_eq_true_2 by done.
    destruct (decide (p = [])) as [->|Hp].
    + rewrite filter_cons_False in Hlen by (by intros []).
      rewrite bool_decide_eq_false_2 in Hlen by (by intros []). simpl in *. lia.
    + rewrite filter_cons_True in Hlen by done.
      rewrite bool_decide_eq_true_2 in Hlen by done. simpl in *. lia.
Qed.

Lemma length_skip_white_space s :
  (length (JS.skip_white_space s) ≤ length s)%nat.
Proof.
  induction s as [|c s IH]; [done|]. simpl.
  destruct (JS.is_StrWhiteSpaceChar c); simpl; lia.
Qed.

Lemma count_words_bound text :
  (2 * TughraLibrary.count_words text ≤ length text + 1)%nat.
Proof.
  unfold TughraLibrary.count_words.
  destruct (length_words false (TughraLibrary.trim text))
    as (p & ps & -> & Hlen).
  assert (length (TughraLibrary.trim text) ≤ length text)%nat as Htrim.
  { unfold TughraLibrary.trim. rewrite length_reverse.
    etrans; [apply length_skip_white_space|]. rewrite length_reverse.
    apply length_skip_white_space. }
  case_bool_decide; lia.
Qed.

(** X18. For a string that does not start with "data:", [_calculateStats]
    returns, with the type "text/plain" and both flags off; [characters]
    is the length in code units, [size], the length in UTF-8, lies between
    [characters] and three times [characters]; there is one line at least
    and one line more than units at most; and [n] words need [2 n - 1]
    units. *)
Theorem calculateStats_of_text (text : jsstring) :
  wf_string text →
  TughraLibrary.startsWith (js "data:") text = false →
  ∃ stats,
    TughraLibrary._calculateStats (TughraLibrary.String text) = Normal stats
    ∧ TughraLibrary.characters stats = length text
    ∧ (TughraLibrary.characters stats ≤ TughraLibrary.size stats
       ≤ 3 * TughraLibrary.characters stats)%nat
    ∧ (1 ≤ TughraLibrary.lines stats ≤ TughraLibrary.characters stats + 1)%nat
    ∧ (2 * TughraLibrary.words stats ≤ TughraLibrary.characters stats + 1)%nat
    ∧ TughraLibrary.type stats = js "text/plain"
    ∧ TughraLibrary.isBlob stats = false
    ∧ TughraLibrary.isDataURI stats = false.
Proof.
  intros Hwf Hdata. unfold TughraLibrary._calculateStats. rewrite Hdata.
  eexists. split; [reflexivity|]. cbn [TughraLibrary.characters
    TughraLibrary.size TughraLibrary.lines TughraLibrary.words
    TughraLibrary.type TughraLibrary.isBlob TughraLibrary.isDataURI].
  split; [done|]. split; [by apply length_TextEncoder_encode|].
  split; [apply length_split_lines|]. split; [apply count_words_bound|].
  done.
Qed.

Lemma calculateStats_of_text_witness :
  ∃ stats,
    TughraLibrary._calculateStats (TughraLibrary.String (js "Hello  big world"))
    = Normal stats
    ∧ TughraLibrary.characters stats = 16%nat
    ∧ (16 ≤ TughraLibrary.size stats ≤ 48)%nat.
Proof.
  destruct (calculateStats_of_text (js "Hello  big world"))
    as (stats & Hstats & Hchars & Hsize & _).
  - apply (bool_decide_unpack _). by vm_compute.
  - reflexivity.
  - exists stats. split; [done|]. split; [done|]. rewrite Hchars in Hsize.
    exact Hsize.
Defined.

Lemma base64_encode_no_comma bytes :
  Forall byte bytes → 44 ∉ JS.base64_encode bytes.
Proof.
  intros Hbytes%base64_sextets_range.
  destruct (base64_encode_sextets bytes) as (k & _ & -> & _).
  intros [Hin|Hin]%elem_of_app.
  - apply list_elem_of_fmap in Hin as (v & Hv & Hin).
    apply (proj1 (Forall_forall _ _) Hbytes) in Hin.
    destruct (base64_symbol_facts v Hin) as (_ & _ & Hindex & _).
    apply indexOf_Some in Hindex. rewrite <- Hv in Hindex.
    apply list_elem_of_lookup_2 in Hindex. revert Hindex.
    apply (bool_decide_unpack _). by vm_compute.
  - by apply elem_of_replicate in Hin as [? _].
Qed.

Lemma up_to_semicolon_app type rest :
  Forall (λ c, c ∉ [44; 59; 0xA; 0xD; 0x2028; 0x2029]) type →
  TughraLibrary.up_to_semicolon (type ++ 59 :: rest) = Some type.
Proof.
  induction 1 as [|c type Hc _ IH]; cbn [app TughraLibrary.up_to_semicolon].
  - by rewrite bool_decide_eq_true_2.
  - rewrite (bool_decide_eq_false_2 (c = 59)).
    2:{ intros ->. apply Hc. right. left. }
    unfold TughraLibrary.is_LineTerminator.
    rewrite bool_decide_eq_false_2.
    2:{ intros Hin. apply Hc. right. right. exact Hin. }
    by rewrite IH.
Qed.

Lemma TextEncoder_encode_bytes bytes :
  Forall byte bytes →
  length (JS.TextEncoder_encode bytes)
  = (length bytes + length (filter (λ b : Z, (128 ≤ b)%Z) bytes))%nat.
Proof.
  intros Hbytes. unfold JS.TextEncoder_encode. cbv zeta.
  induction Hbytes as [|b bytes Hb Hbytes IH]; [done|].
  assert (JS.String_iterator (b :: bytes) = [b] :: JS.String_iterator bytes) as ->.
  { destruct bytes as [|d bytes]; [done|]. rewrite String_iterator_cons.
    unfold JS.is_high_surrogate, byte in *.
    by rewrite bool_decide_eq_false_2 by lia. }
  rewrite bind_cons, length_app, IH. unfold byte in Hb. simpl.
  unfold JS.is_surrogate. rewrite bool_decide_eq_false_2 by lia.
  rewrite length_utf8_bytes by lia. rewrite filter_cons.
  destruct (decide (128 ≤ b)).
  - rewrite bool_decide_eq_false_2 by lia.
    rewrite bool_decide_eq_true_2 by lia. simpl. lia.
  - rewrite bool_decide_eq_true_2 by lia. simpl. lia.
Qed.

(** X19. For the data URI of a sequence of bytes, "data:", a media type,
    ";base64," and the bytes in Base64, [_calculateStats] returns the
    media type, [isDataURI] on, and for [characters] the number of bytes;
    [size] however is the length in UTF-8 of the decoded string, in which
    every byte from 128 on takes two bytes. *)
Theorem calculateStats_of_data_URI (mediaType bytes : jsstring) :
  Forall byte bytes →
  Forall (λ c, c ∉ [44; 59; 0xA; 0xD; 0x2028; 0x2029]) mediaType →
  ∃ base64 stats,
    JS.btoa bytes = Normal base64
    ∧ TughraLibrary._calculateStats
        (TughraLibrary.String
           (js "data:" ++ mediaType ++ js ";base64," ++ base64))
      = Normal stats
    ∧ TughraLibrary.characters stats = length bytes
    ∧ TughraLibrary.size stats
      = (length bytes + length (filter (λ b : Z, (128 ≤ b)%Z) bytes))%nat
    ∧ TughraLibrary.type stats = mediaType
    ∧ TughraLibrary.isBlob stats = false
    ∧ TughraLibrary.isDataURI stats = true.
Proof.
  intros Hbytes Htype.
  destruct (atob_btoa bytes Hbytes) as (base64 & Hbtoa & _ & Hatob).
  assert (44 ∉ base64) as Hcomma.
  { unfold JS.btoa in Hbtoa. destruct (forallb _ bytes); [|done].
    injection Hbtoa as <-. by apply base64_encode_no_comma. }
  exists base64. eexists. split; [done|].
  unfold TughraLibrary._calculateStats.
  assert (TughraLibrary.startsWith (js "data:")
            (js "data:" ++ mediaType ++ js ";base64," ++ base64) = true) as ->
    by done.
  assert (JS.split 44 (js "data:" ++ mediaType ++ js ";base64," ++ base64)
          = [js "data:" ++ mediaType ++ js ";base64"; base64]) as ->.
  { replace (js "data:" ++ mediaType ++ js ";base64," ++ base64)
      with ((js "data:" ++ mediaType ++ js ";base64") ++ 44 :: base64)
      by (by rewrite <- !app_assoc).
    rewrite split_app, split_no_separator; [done..|].
    intros [Hin|[Hin|Hin]%elem_of_app]%elem_of_app.
    - revert Hin. apply (bool_decide_unpack _). by vm_compute.
    - apply (proj1 (Forall_forall _ _) Htype) in Hin. apply Hin. left.
    - revert Hin. apply (bool_decide_unpack _). by vm_compute. }
  cbv zeta. cbn [head default lookup list_lookup]. unfold id.
  assert (TughraLibrary.match_type (js "data:" ++ mediaType ++ js ";base64")
          = Some mediaType) as ->.
  { change (js "data:") with [100; 97; 116; 97; 58].
    change (js ";base64") with (59 :: js "base64").
    cbn [app TughraLibrary.match_type].
    rewrite !bool_decide_eq_false_2 by done.
    rewrite bool_decide_eq_true_2 by done.
    by rewrite up_to_semicolon_app. }
  rewrite bind_Normal, Hatob, bind_Normal. split; [reflexivity|].
  cbn [TughraLibrary.characters TughraLibrary.size TughraLibrary.type
       TughraLibrary.isBlob TughraLibrary.isDataURI].
  split; [done|]. split; [by apply TextEncoder_encode_bytes | done].
Qed.

Lemma calculateStats_of_data_URI_witness :
  ∃ stats,
    TughraLibrary._calculateStats
      (TughraLibrary.String (js "data:image/png;base64,iVBORw=="))
    = Normal stats
    ∧ TughraLibrary.characters stats = 4%nat
    ∧ TughraLibrary.size stats = 5%nat.
Proof.
  destruct (calculateStats_of_data_URI (js "image/png") [0x89; 0x50; 0x4E; 0x47])
    as (base64 & stats & Hbtoa & Hstats & Hchars & Hsize & _).
  - apply (bool_decide_unpack _). by vm_compute.
  - apply (bool_decide_unpack _). by vm_compute.
  - injection Hbtoa as <-. by exists stats.
Defined.

(** ** Sizes *)

Lemma digits_of_acc fuel R n acc :
  JS.digits_of fuel R n acc = JS.digits_of fuel R n [] ++ acc.
Proof.
  revert n acc. induction fuel as [|fuel IH]; intros n acc; simpl; [done|].
  case_bool_decide; [done|].
  rewrite IH, (IH _ [_]). by rewrite <- app_assoc.
Qed.

Lemma digits_of_fuel f1 f2 n :
  0 ≤ n < 10 ^ (Z.of_nat f1 + 1) → n < 10 ^ (Z.of_nat f2 + 1) →
  JS.digits_of f1 10 n [] = JS.digits_of f2 10 n [].
Proof.
  revert f2 n. induction f1 as [|f1 IH]; intros f2 n H1 H2.
  - change (10 ^ (Z.of_nat 0 + 1)) with 10 in H1.
    destruct f2; simpl; [done|]. by rewrite bool_decide_eq_true_2 by lia.
  - destruct f2 as [|f2]; simpl.
    + change (10 ^ (Z.of_nat 0 + 1)) with 10 in H2.
      by rewrite bool_decide_eq_true_2 by lia.
    + case_bool_decide; [done|].
      rewrite digits_of_acc, (digits_of_acc f2). f_equal.
      replace (Z.of_nat (S f1) + 1) with (Z.succ (Z.of_nat f1 + 1)) in H1 by lia.
      replace (Z.of_nat (S f2) + 1) with (Z.succ (Z.of_nat f2 + 1)) in H2 by lia.
      rewrite Z.pow_succ_r in H1, H2 by lia.
      apply IH.
      * split; [apply Z.div_pos; lia|]. apply Z.div_lt_upper_bound; lia.
      * apply Z.div_lt_upper_bound; lia.
Qed.

Lemma log2_decimal_fuel n :
  0 < n → n < 10 ^ (Z.of_nat (Z.to_nat (Z.log2 n)) + 1).
Proof.
  intros Hn. rewrite Z2Nat.id by apply Z.log2_nonneg.
  pose proof (Z.log2_spec n Hn) as [_ Hlt].
  replace (Z.succ (Z.log2 n)) with (Z.log2 n + 1) in Hlt by lia.
  eapply Z.lt_le_trans; [exact Hlt|].
  apply Z.pow_le_mono_l. pose proof (Z.log2_nonneg n). lia.
Qed.

Lemma Number_toString_digit n :
  0 ≤ n < 10 → JS.Number_toString 10 n = [48 + n].
Proof.
  intros Hn. unfold JS.Number_toString. rewrite bool_decide_eq_false_2 by lia.
  assert (Hd : JS.digit_char (n `mod` 10) = 48 + n).
  { rewrite Z.mod_small by lia. unfold JS.digit_char.
    by rewrite bool_decide_eq_true_2 by lia. }
  destruct (Z.to_nat (Z.log2 n)); simpl; [by rewrite Hd|].
  rewrite bool_decide_eq_true_2 by lia. by rewrite Hd.
Qed.

Lemma Number_toString_snoc n :
  10 ≤ n →
  JS.Number_toString 10 n = JS.Number_toString 10 (n `div` 10) ++ [48 + n `mod` 10].
Proof.
  intros Hn. unfold JS.Number_toString.
  assert (0 < n `div` 10) by (apply Z.div_str_pos; lia).
  rewrite !bool_decide_eq_false_2 by lia.
  pose proof (log2_decimal_fuel n ltac:(lia)) as Hfuel.
  destruct (Z.to_nat (Z.log2 n)) as [|f] eqn:Hf.
  { change (10 ^ (Z.of_nat 0 + 1)) with 10 in Hfuel. lia. }
  simpl. rewrite bool_decide_eq_false_2 by lia.
  rewrite digits_of_acc. f_equal.
  - replace (Z.of_nat (S f) + 1) with (Z.succ (Z.of_nat f + 1)) in Hfuel by lia.
    rewrite Z.pow_succ_r in Hfuel by lia.
    apply digits_of_fuel.
    + split; [lia|]. apply Z.div_lt_upper_bound; lia.
    + by apply log2_decimal_fuel.
  - unfold JS.digit_char.
    pose proof (Z.mod_pos_bound n 10 ltac:(lia)).
    by rewrite bool_decide_eq_true_2 by lia.
Qed.

Lemma length_Number_toString n :
  10 ≤ n → (2 ≤ length (JS.Number_toString 10 n))%nat.
Proof.
  intros Hn. rewrite Number_toString_snoc by done. rewrite length_app. simpl.
  destruct (decide (n `div` 10 < 10)) as [Hd|Hd].
  - rewrite Number_toString_digit; [simpl; lia|].
    split; [apply Z.div_pos; lia | done].
  - rewrite Number_toString_snoc by lia. rewrite length_app. simpl. lia.
Qed.

(** The hundredths [n] of [toFixed(2)] are shown as the decimal numeral of
    [n / 100], a point and the two digits of [n mod 100]. *)
Lemma point2_div_mod n :
  0 ≤ n →
  TughraLibrary.point2 n
  = JS.Number_toString 10 (n `div` 100) ++ [46]
      ++ JS.padStart 2 48 (JS.Number_toString 10 (n `mod` 100)).
Proof.
  intros Hn. unfold TughraLibrary.point2.
  destruct (decide (n < 10)) as [H10|H10].
  { rewrite Z.div_small, Z.mod_small by lia.
    rewrite !Number_toString_digit by lia. reflexivity. }
  rewrite (Number_toString_snoc n) by lia.
  destruct (decide (n < 100)) as [H100|H100].
  { rewrite (Z.div_small n 100), (Z.mod_small n 100) by lia.
    rewrite (Number_toString_snoc n) by lia.
    rewrite !Number_toString_digit by (lia || div_mod_lia). reflexivity. }
  rewrite (Number_toString_snoc (n `div` 10)) by div_mod_lia.
  replace ((n `div` 10) `div` 10) with (n `div` 100) by div_mod_lia.
  assert (Hlen : (1 ≤ length (JS.Number_toString 10 (n `div` 100)))%nat).
  { destruct (decide (n `div` 100 < 10)).
    - rewrite Number_toString_digit by div_mod_lia. simpl. lia.
    - pose proof (length_Number_toString (n `div` 100) ltac:(lia)). lia. }
  set (high := JS.Number_toString 10 (n `div` 100)) in *.
  set (d1 := 48 + (n `div` 10) `mod` 10). set (d0 := 48 + n `mod` 10).
  assert (JS.padStart 3 48 ((high ++ [d1]) ++ [d0]) = high ++ [d1; d0]) as ->.
  { unfold JS.padStart. rewrite !length_app. cbn [length].
    replace (3 - (length high + 1 + 1))%nat with 0%nat by lia.
    by rewrite <- app_assoc. }
  rewrite length_app. cbn [length].
  replace (length high + 2 - 2)%nat with (length high) by lia.
  rewrite take_app_length, drop_app_length.
  do 2 f_equal. subst d1 d0.
  destruct (decide (n `mod` 100 < 10)) as [Hm|Hm].
  - rewrite Number_toString_digit by div_mod_lia.
    unfold JS.padStart. cbn [length replicate app Nat.sub].
    f_equal; [div_mod_lia | f_equal; div_mod_lia].
  - rewrite (Number_toString_snoc (n `mod` 100)) by lia.
    rewrite Number_toString_digit by div_mod_lia.
    unfold JS.padStart. cbn [length replicate app Nat.sub].
    f_equal; [div_mod_lia | f_equal; div_mod_lia].
Qed.

Lemma formatSize_while_step fuel n d i :
  TughraLibrary.formatSize_while (S fuel) (n # d) i
  = if bool_decide (1024 * Z.pos d ≤ n) && bool_decide (i < 4)%nat
    then TughraLibrary.formatSize_while fuel (n # d * 1024) (S i)
    else (n # d, i).
Proof.
  cbn [TughraLibrary.formatSize_while].
  assert (Qle_bool 1024 (n # d) = bool_decide (1024 * Z.pos d ≤ n)) as ->.
  { unfold Qle_bool. cbn [Qnum Qden]. rewrite Z.mul_1_r.
    case_bool_decide; [by apply Z.leb_le | by apply Z.leb_gt; lia]. }
  assert (Qdiv (n # d) 1024 = (n # d * 1024)) as ->.
  { unfold Qdiv, Qmult, Qinv. cbn [Qnum Qden]. by rewrite Z.mul_1_r. }
  reflexivity.
Qed.

Lemma toFixed2_round n d :
  0 ≤ n →
  TughraLibrary.toFixed2 (n # d)
  = TughraLibrary.point2 ((200 * n + Z.pos d) `div` (2 * Z.pos d)).
Proof.
  intros Hn. unfold TughraLibrary.toFixed2.
  assert (Qle_bool 0 (n # d) = true) as ->.
  { unfold Qle_bool. cbn [Qnum Qden]. apply Z.leb_le. lia. }
  f_equal. unfold Qfloor, Qplus, Qmult. cbn [Qnum Qden].
  f_equal; lia.
Qed.

(** X20. [_formatSize]: a size from 0 up to [2^53] is shown in the largest
    of the units bytes, KB, MB, GB and TB that does not exceed it (bytes
    below 1024, TB from [1024^4] on), as its quotient by that unit rounded
    to hundredths, a half rounding up: the integer part, a point, two
    digits, a space and the unit. *)
Theorem formatSize_rounds (bytes : Z) :
  0 ≤ bytes < 2 ^ 53 →
  ∃ (unitIndex : nat) (unit : string),
    ["bytes"; "KB"; "MB"; "GB"; "TB"]%string !! unitIndex = Some unit
    ∧ (unitIndex = 0%nat ∨ 1024 ^ Z.of_nat unitIndex ≤ bytes)
    ∧ (unitIndex = 4%nat ∨ bytes < 1024 ^ (Z.of_nat unitIndex + 1))
    ∧ let hundredths := (200 * bytes + 1024 ^ Z.of_nat unitIndex)
                          `div` (2 * 1024 ^ Z.of_nat unitIndex) in
      TughraLibrary._formatSize bytes
      = JS.Number_toString 10 (hundredths `div` 100) ++ [46]
          ++ JS.padStart 2 48 (JS.Number_toString 10 (hundredths `mod` 100))
          ++ js " " ++ js unit.
Proof.
  intros [H0 _].
  assert (Hshown : ∀ d, 0 ≤ (200 * bytes + Z.pos d) `div` (2 * Z.pos d)).
  { intros d. apply Z.div_pos; lia. }
  unfold TughraLibrary._formatSize, inject_Z.
  rewrite formatSize_while_step.
  case_bool_decide as H1; cbn [andb bool_decide]; last first.
  { exists 0%nat, "bytes"%string. split; [done|]. split; [by left|].
    split; [right; change (1024 ^ (Z.of_nat 0 + 1)) with 1024; lia|].
    cbv zeta. rewrite toFixed2_round, point2_div_mod by done.
    by rewrite <- !app_assoc. }
  rewrite bool_decide_eq_true_2 by lia. rewrite formatSize_while_step.
  case_bool_decide as H2; cbn [andb bool_decide]; last first.
  { exists 1%nat, "KB"%string. split; [done|]. split; [right; exact H1|].
    split; [right; change (1024 ^ (Z.of_nat 1 + 1)) with (1024 * 1024); lia|].
    cbv zeta. rewrite toFixed2_round, point2_div_mod by done.
    by rewrite <- !app_assoc. }
  rewrite bool_decide_eq_true_2 by lia. rewrite formatSize_while_step.
  case_bool_decide as H3; cbn [andb bool_decide]; last first.
  { exists 2%nat, "MB"%string. split; [done|]. split; [right; exact H2|].
    split; [right; change (1024 ^ (Z.of_nat 2 + 1)) with (1024 * 1048576); lia|].
    cbv zeta. rewrite toFixed2_round, point2_div_mod by done.
    by rewrite <- !app_assoc. }
  rewrite bool_decide_eq_true_2 by lia. rewrite formatSize_while_step.
  case_bool_decide as H4; cbn [andb bool_decide]; last first.
  { exists 3%nat, "GB"%string. split; [done|]. split; [right; exact H3|].
    split; [right; change (1024 ^ (Z.of_nat 3 + 1)) with (1024 * 1073741824); lia|].
    cbv zeta. rewrite toFixed2_round, point2_div_mod by done.
    by rewrite <- !app_assoc. }
  rewrite bool_decide_eq_true_2 by lia.
  exists 4%nat, "TB"%string. split; [done|]. split; [right; exact H4|].
  split; [by left|].
  cbn [TughraLibrary.formatSize_while].
  cbv zeta. rewrite toFixed2_round, point2_div_mod by done.
  by rewrite <- !app_assoc.
Qed.

Lemma formatSize_rounds_witness :
  0 ≤ 1536 < 2 ^ 53
  ∧ ∃ (unitIndex : nat) (unit : string),
      ["bytes"; "KB"; "MB"; "GB"; "TB"]%string !! unitIndex = Some unit
      ∧ (unitIndex = 0%nat ∨ 1024 ^ Z.of_nat unitIndex ≤ 1536)
      ∧ (unitIndex = 4%nat ∨ 1536 < 1024 ^ (Z.of_nat unitIndex + 1))
      ∧ let hundredths := (200 * 1536 + 1024 ^ Z.of_nat unitIndex)
                            `div` (2 * 1024 ^ Z.of_nat unitIndex) in
        TughraLibrary._formatSize 1536
        = JS.Number_toString 10 (hundredths `div` 100) ++ [46]
            ++ JS.padStart 2 48 (JS.Number_toString 10 (hundredths `mod` 100))
            ++ js " " ++ js unit.
Proof.
  assert (H : 0 ≤ 1536 < 2 ^ 53) by (split; [lia | reflexivity]).
  split; [exact H | exact (formatSize_rounds 1536 H)].
Defined.

(** Rounding can reach 1024.00 without moving to the next unit. *)
Example formatSize_known :
  TughraLibrary._formatSize 0 = js "0.00 bytes"
  ∧ TughraLibrary._formatSize 1023 = js "1023.00 bytes"
  ∧ TughraLibrary._formatSize 1536 = js "1.50 KB"
  ∧ TughraLibrary._formatSize 1048575 = js "1024.00 KB"
  ∧ TughraLibrary._formatSize (2 ^ 53 - 1) = js "8192.00 TB".
Proof. repeat split; vm_compute; reflexivity. Qed.

(** * The host's limit on arguments *)

(** X21. 'xor' in encrypt mode passes all the bytes of the text to one
    call of [String.fromCharCode]: for a text of code units, [process]
    throws a [RangeError] exactly when the text has more bytes in UTF-8
    than a call takes arguments on the host, whatever the key, the cycle
    count and the base encoding; otherwise it returns. *)
Theorem xor_encrypt_outcome {host : Host} (charset key text : jsstring)
    (ub : bool) (n : Z) (this : Tughra.t) :
  Tughra.constructor "encrypt" charset "xor" key ub = Normal this →
  wf_string text →
  match Tughra.process this text n with
  | Normal ciphertext =>
      Z.of_nat (length (JS.TextEncoder_encode text)) ≤ max_arguments
  | Throw e =>
      e = RangeError
      ∧ max_arguments < Z.of_nat (length (JS.TextEncoder_encode text))
  | Diverge => False
  end.
Proof.
  intros Hthis Hwf.
  destruct (constructor_Normal _ _ _ _ _ _ Hthis)
    as (_ & _ & _ & _ & Hlib & _).
  apply constructor_inv in Hthis.
  assert (Tughra.mode this = "encrypt"%string) as Hmode by (by subst).
  assert (Tughra.algorithm this = "xor"%string) as Halg by (by subst).
  rewrite process_encrypt by done. rewrite Halg.
  change (Z.to_nat (if String.eqb "xor" "xor" || _ || _ then 1 else n))
    with 1%nat.
  cbn [for_loop]. unfold Tughra._processCycle. rewrite Halg.
  change (Tughra.switch "xor") with Tughra.Xor.
  change (String.eqb "encrypt" "encrypt") with true. cbv iota.
  destruct (xorEncrypt_spread this text Hwf)
    as (encryptedBytes & _ & Hbytes & _ & ->).
  case_bool_decide as Hlen; [|split; [done | lia]].
  destruct (atob_btoa encryptedBytes Hbytes) as (e & -> & _).
  rewrite !bind_Normal.
  destruct (Tughra.useBaseEncoding this); [|done].
  by destruct (toBase_returns this (Tughra.baseCharset this) e Hlib) as [? ->].
Qed.

(** A text of 65536 letters, one more than the host of the examples
    takes. *)
Lemma xor_encrypt_outcome_witness :
  ∃ this,
    Tughra.constructor "encrypt" [] "xor" (js "abcdefgh") false = Normal this
    ∧ Tughra.process (host := example_host) this (replicate (Z.to_nat 65536) 65) 7
      = Throw RangeError.
Proof.
  eexists. split; [reflexivity|].
  assert (Hwf : wf_string (replicate (Z.to_nat 65536) 65))
    by (apply Forall_replicate; unfold code_unit; lia).
  lazymatch goal with
  | |- Tughra.process ?this _ _ = _ =>
      pose proof (xor_encrypt_outcome (host := example_host) []
                    (js "abcdefgh") (replicate (Z.to_nat 65536) 65) false 7 this
                    eq_refl Hwf) as H;
      destruct (Tughra.process this (replicate (Z.to_nat 65536) 65) 7)
        as [ciphertext|e|]; [|by destruct H as [-> _]|done]
  end.
  exfalso. revert H. by vm_compute.
Defined.
